(** * VisionCare: the frame pipeline of the backend

    A shallow embedding of the connection manager
    ([services/websocket.service.js]), of the message handlers and the start-up
    sequence of [app.js], of the inference worker ([processInferenceJob],
    with [services/inference.service.js] and [services/storage.service.js])
    and of the queue policies ([queues/queue.config.js]), with the properties
    of the pipeline stated over them; then the earlier worker, the
    reconnection policy of [config/redis.js], the object store and the frame
    table ([config/s3.js], [services/storage.service.js]) and the ingestion
    of frames in [app.js]. *)

From stdpp Require Import gmap strings list fin_maps fin_sets pretty.
From Stdlib Require Import ZArith QArith Ascii String.

Open Scope Z_scope.
Open Scope string_scope.
Open Scope list_scope.
Open Scope stdpp_scope.

(** ** JSON values

    A JavaScript value that came out of [JSON.parse] or that is about to go
    through [JSON.stringify]: a finite tree.  A number is a rational
    (timestamps, identifiers and lengths, and the confidences and readings
    of the bus messages); the keys of an object are distinct. *)
Module Json.

#[local] Set Warnings "-register-all".

Inductive json :=
| JNull
| JBool (b : bool)
| JNum (n : Q)
| JStr (s : string)
| JArr (items : list json)
| JObj (fields : list (string * json)).

(** [obj.key] on a parsed object; a missing key is [undefined] ([None]),
    as is a property read on a number, boolean, string or array.  (The
    read throws on [null] and [undefined]; callers test for these first.) *)
Fixpoint assoc (key : string) (fields : list (string * json)) : option json :=
  match fields with
  | [] => None
  | (k, v) :: rest => if String.eqb k key then Some v else assoc key rest
  end.

Definition prop (key : string) (v : json) : option json :=
  match v with
  | JObj fields => assoc key fields
  | _ => None
  end.

(** JavaScript truthiness of a possibly undefined value. *)
Definition truthy (v : option json) : bool :=
  match v with
  | None => false
  | Some JNull => false
  | Some (JBool b) => b
  | Some (JNum n) => negb (Qeq_bool n 0)
  | Some (JStr s) => negb (String.eqb s "")
  | Some (JArr _) => true
  | Some (JObj _) => true
  end.

(** *** Objects as the runtime builds them

    The fields of a [JObj] are listed in the order the runtime enumerates
    the properties of an object, which is the order [JSON.stringify]
    writes them in: the keys that are array indices first, in ascending
    order, then the other keys in the order they were created.  Writing a
    property that exists replaces its value in place. *)

(** The number a text of decimal digits denotes. *)
Definition digit (ch : ascii) : option N :=
  let n := N_of_ascii ch in
  if (48 <=? n)%N && (n <=? 57)%N then Some (n - 48)%N else None.

Fixpoint number (acc : N) (text : string) : option N :=
  match text with
  | EmptyString => Some acc
  | String ch rest =>
      match digit ch with
      | Some d => number (acc * 10 + d)%N rest
      | None => None
      end
  end.

(** An array index: the canonical decimal text of an integer below
    [2^32 - 1]. *)
Definition array_index (key : string) : option N :=
  match number 0 key with
  | Some n => if String.eqb (pretty n) key && (n <? 4294967295)%N then Some n else None
  | None => None
  end.

(** Writing a property that exists: [None] when there is none. *)
Fixpoint obj_replace (key : string) (v : json) (fields : list (string * json))
    : option (list (string * json)) :=
  match fields with
  | [] => None
  | (k, old) :: rest =>
      if String.eqb k key then Some ((k, v) :: rest)
      else match obj_replace key v rest with
           | Some rest' => Some ((k, old) :: rest')
           | None => None
           end
  end.

(** A new array index takes its place among the array indices. *)
Fixpoint obj_insert_index (i : N) (key : string) (v : json) (fields : list (string * json))
    : list (string * json) :=
  match fields with
  | [] => [(key, v)]
  | (k, old) :: rest =>
      match array_index k with
      | Some j => if (j <? i)%N then (k, old) :: obj_insert_index i key v rest
                  else (key, v) :: fields
      | None => (key, v) :: fields
      end
  end.

(** [obj[key] = v] *)
Definition obj_set (key : string) (v : json) (fields : list (string * json))
    : list (string * json) :=
  match obj_replace key v fields with
  | Some fields' => fields'
  | None =>
      match array_index key with
      | Some i => obj_insert_index i key v fields
      | None => fields ++ [(key, v)]
      end
  end.

(** The own properties an object spread [...v] copies: the fields of an
    object, the items of an array and the characters of a string under
    their indices (one character per byte, which is the string's own
    indexing for a text in ASCII), and nothing for [null], [undefined], a
    number or a boolean. *)
Fixpoint indexed {A} (wrap : A → json) (from : nat) (items : list A)
    : list (string * json) :=
  match items with
  | [] => []
  | x :: rest => (pretty from, wrap x) :: indexed wrap (S from) rest
  end.

Definition spread (v : option json) : list (string * json) :=
  match v with
  | Some (JObj fields) => fields
  | Some (JArr items) => indexed id 0 items
  | Some (JStr s) => indexed (λ ch, JStr (String ch "")) 0 (list_ascii_of_string s)
  | _ => []
  end.

(** [{ ...target, ...source }]: the properties of [source] written one by
    one over those of [target]. *)
Definition assign (target source : list (string * json)) : list (string * json) :=
  fold_left (λ acc kv, obj_set (fst kv) (snd kv) acc) source target.

End Json.
Import Json.

(** ** Texts

    A JavaScript string is held as the bytes of its text in UTF-8, which
    is also what a [Buffer] of that text holds. *)
Module Text.

(** [text.split(sep)] for a separator of one character. *)
Fixpoint split (sep : ascii) (text : string) : list string :=
  match text with
  | EmptyString => [""]
  | String ch rest =>
      if Ascii.eqb ch sep then "" :: split sep rest
      else match split sep rest with
           | part :: parts => String ch part :: parts
           | [] => [String ch ""]
           end
  end.

(** The UTF-16 code units of a code point. *)
Definition units (code_point : N) : list N :=
  if (code_point <? 65536)%N then [code_point]
  else [(55296 + (code_point - 65536) / 1024)%N; (56320 + (code_point - 65536) mod 1024)%N].

(** The UTF-16 code units of a text, which are what [length],
    [substring] and the indices of a JavaScript string count; [acc] holds
    the bits read of the code point being decoded and [need] the number
    of bytes it still lacks.  A byte that is out of place gives U+FFFD. *)
Fixpoint utf16_from (acc : N) (need : nat) (text : string) : list N :=
  match text with
  | EmptyString => match need with O => [] | S _ => [65533%N] end
  | String ch rest =>
      let n := N_of_ascii ch in
      match need with
      | S need' =>
          if (128 <=? n)%N && (n <? 192)%N then
            let acc' := (acc * 64 + (n - 128))%N in
            match need' with
            | O => units acc' ++ utf16_from 0 0 rest
            | S _ => utf16_from acc' need' rest
            end
          else 65533%N :: utf16_from 0 0 rest
      | O =>
          if (n <? 128)%N then n :: utf16_from 0 0 rest
          else if (192 <=? n)%N && (n <? 224)%N then utf16_from (n - 192) 1 rest
          else if (224 <=? n)%N && (n <? 240)%N then utf16_from (n - 224) 2 rest
          else if (240 <=? n)%N && (n <? 248)%N then utf16_from (n - 240) 3 rest
          else 65533%N :: utf16_from 0 0 rest
      end
  end.

Definition utf16 (text : string) : list N := utf16_from 0 0 text.

(** [text.length] *)
Definition length (text : string) : nat := List.length (utf16 text).

(** [text.substring(0, n)], as code units. *)
Definition substring_from_0 (n : nat) (text : string) : list N := take n (utf16 text).

End Text.

(** ** The event emitter of the service: [on] and [emit]

    The table [eventHandlers = new Map()] with its two methods, for any
    payload [P] and any state [St] the handlers work on.  A handler leaves
    a state and tells whether it threw; [emit] counts the errors it logs. *)
Module Emitter.
Section emitter.
Context {P St : Type}.

Definition Handler : Type := P → St → St * bool.

(** [on(event, handler)] *)
Definition on (event : string) (handler : Handler) (table : gmap string (list Handler))
    : gmap string (list Handler) :=
  let table' := match table !! event with
                | None => <[event := []]> table
                | Some _ => table
                end in
  alter (λ handlers, handlers ++ [handler]) event table'.

(** The [try { handler(data) } catch] of one handler. *)
Definition call_handler (data : P) (acc : St * nat) (handler : Handler) : St * nat :=
  let '(st, threw) := handler data acc.1 in
  (st, if threw then S acc.2 else acc.2).

(** [emit(event, data)] *)
Definition emit (table : gmap string (list Handler)) (event : string) (data : P) (st : St)
    : St * nat :=
  match table !! event with
  | Some handlers => foldl (call_handler data) (st, 0%nat) handlers
  | None => (st, 0%nat)
  end.

End emitter.
End Emitter.

(** ** The connection manager: [WebSocketService] *)
Module WS.

(** A [WebSocket] object is known by its identity. *)
Abbreviation ws := positive.

(** *** The transport socket (the [ws] package)

    Only what the service uses of a socket: its [readyState], the frames
    written through [send], the probes written through [ping] and the calls
    of [terminate]. *)
Inductive ReadyState := CONNECTING | OPEN | CLOSING | CLOSED.

Definition readyState_code (r : ReadyState) : nat :=
  match r with CONNECTING => 0 | OPEN => 1 | CLOSING => 2 | CLOSED => 3 end%nat.

Record Socket := mkSocket {
  readyState : ReadyState;
  outbox : list string;
  pings : nat;
  terminate_calls : nat
}.

Definition new_socket : Socket := mkSocket OPEN [] 0 0.

(** [ws.send(message)]: throws while the handshake is not finished, writes
    the frame when the socket is open, and otherwise reports the error to
    the (absent) callback without writing. *)
Definition ws_send (s : Socket) (message : string) : option Socket :=
  match readyState s with
  | CONNECTING => None
  | OPEN => Some (mkSocket OPEN (outbox s ++ [message]) (pings s) (terminate_calls s))
  | _ => Some s
  end.

(** [ws.ping()]: a probe is written on an open socket only.  Sockets handed
    over by the server's [connection] event have finished the handshake. *)
Definition ws_ping (s : Socket) : Socket :=
  match readyState s with
  | OPEN => mkSocket OPEN (outbox s) (S (pings s)) (terminate_calls s)
  | _ => s
  end.

(** [ws.terminate()]: destroys the transport; the [close] event follows
    later. *)
Definition ws_terminate (s : Socket) : Socket :=
  match readyState s with
  | CLOSED => mkSocket CLOSED (outbox s) (pings s) (S (terminate_calls s))
  | _ => mkSocket CLOSING (outbox s) (pings s) (S (terminate_calls s))
  end.

(** The socket once the transport is closed, as the [close] event finds it. *)
Definition ws_closed (s : Socket) : Socket :=
  mkSocket CLOSED (outbox s) (pings s) (terminate_calls s).

(** *** The service state *)

(** The upgrade request: the peer's address ([request.socket.remoteAddress])
    and the parameters of its URL, where a client can name a session. *)
Record Request := mkRequest {
  remoteAddress : string;
  query : list (string * string)
}.

Record ClientInfo := mkClientInfo {
  sessionId : string;
  connectedAt : Z;
  ip : string;
  isAlive : bool;
  metadata : list (string * json)
}.

(** What [handleMessage] is given as [data]: a JavaScript string, or a
    [Buffer] with its bytes.  The [ws] package hands the payload of every
    frame over as a [Buffer], that of a text frame as well (from its
    version 8, which the import of [WebSocketServer] by name needs). *)
Inductive Incoming := Text (s : string) | Binary (bytes : string).

(** What [sendToClient] is given: a string, or an object to serialise. *)
Inductive Data := DString (s : string) | DObject (j : json).

(** The calls of [this.emit(event, payload)]. *)
Inductive Emitted :=
| json_message (c : ws) (clientInfo : ClientInfo) (message : json)
| text_message (c : ws) (clientInfo : ClientInfo) (data : string)
| binary_message (c : ws) (clientInfo : ClientInfo) (data : string)
| session_ended (sid : string)
| client_disconnected (sid : string) (clientInfo : ClientInfo) (code : Z) (reason : string).

(** The lines written to the console. *)
Inductive LogLine :=
| LClientConnected (sid : string) (total : nat)
| LClientDisconnected (sid : string) (code : Z) (reason : string)
| LActiveConnections (total : nat)
| LSendError
| LTerminatingDead (sid : string)
| LUnknownMessageType (type : option json)
| LMessageHandlingError
| LTextMessage (sid : string) (shown : list N).

Record World := mkWorld {
  clients : gmap ws ClientInfo;       (* Map<WebSocket, ClientInfo> *)
  sessions : gmap string (gset ws);   (* Map<sessionId, Set<WebSocket>> *)
  sockets : gmap ws Socket;           (* the socket objects themselves *)
  emitted : list Emitted;
  console : list LogLine;
  clock : Z;                          (* what Date.now() returns *)
  session_stats : string → json       (* what getSessionStats(sessionId) resolves to *)
}.

(** The state the constructor leaves. *)
Definition init : World := mkWorld ∅ ∅ ∅ [] [] 0 (λ _, JNull).

Definition set_clients (f : gmap ws ClientInfo → gmap ws ClientInfo) (w : World) : World :=
  mkWorld (f (clients w)) (sessions w) (sockets w) (emitted w) (console w)
          (clock w) (session_stats w).
Definition set_sessions (f : gmap string (gset ws) → gmap string (gset ws)) (w : World) : World :=
  mkWorld (clients w) (f (sessions w)) (sockets w) (emitted w) (console w)
          (clock w) (session_stats w).
Definition set_sockets (f : gmap ws Socket → gmap ws Socket) (w : World) : World :=
  mkWorld (clients w) (sessions w) (f (sockets w)) (emitted w) (console w)
          (clock w) (session_stats w).
Definition record_emit (e : Emitted) (w : World) : World :=
  mkWorld (clients w) (sessions w) (sockets w) (emitted w ++ [e]) (console w)
          (clock w) (session_stats w).
Definition log (l : LogLine) (w : World) : World :=
  mkWorld (clients w) (sessions w) (sockets w) (emitted w) (console w ++ [l])
          (clock w) (session_stats w).
Definition set_env (t : Z) (st : string → json) (w : World) : World :=
  mkWorld (clients w) (sessions w) (sockets w) (emitted w) (console w) t st.

Definition with_isAlive (b : bool) (ci : ClientInfo) : ClientInfo :=
  mkClientInfo (sessionId ci) (connectedAt ci) (ip ci) b (metadata ci).

(** [JSON.stringify] and [JSON.parse] are the runtime's; [JSON.parse]
    throws ([None]) on text that is not JSON. *)
Class Runtime := {
  JSON_stringify : json → string;
  JSON_parse : string → option json
}.

Section service.
Context `{!Runtime}.

Definition serialize (data : Data) : string :=
  match data with
  | DString s => s
  | DObject j => JSON_stringify j
  end.

(** [sendToClient(ws, data)].  A reference to no socket object does not
    occur; it is answered like a socket that is not open. *)
Definition sendToClient (w : World) (c : ws) (data : Data) : World * bool :=
  match sockets w !! c with
  | None => (w, false)
  | Some s =>
      if negb (readyState_code (readyState s) =? 1)%nat then (w, false)
      else
        match ws_send s (serialize data) with
        | Some s' => (set_sockets <[c := s']> w, true)
        | None => (log LSendError w, false)
        end
  end.

(** The body of the two sending loops: [if (this.sendToClient(ws, data)) sent++]. *)
Definition send_step (data : Data) (c : ws) (acc : World * nat) : World * nat :=
  let '(w', ok) := sendToClient acc.1 c data in
  (w', if ok then S acc.2 else acc.2).

(** [sendToSession(sessionId, data)] *)
Definition sendToSession (w : World) (sid : string) (data : Data) : World * nat :=
  match sessions w !! sid with
  | None => (w, 0%nat)
  | Some sessionClients => set_fold (send_step data) (w, 0%nat) sessionClients
  end.

(** [broadcast(data, excludeWs = null)] *)
Definition broadcast (w : World) (data : Data) (excludeWs : option ws) : World * nat :=
  map_fold (λ c (_ : ClientInfo) acc,
             if bool_decide (Some c ≠ excludeWs) then send_step data c acc else acc)
           (w, 0%nat) (clients w).

(** [sendError(ws, message, code = 'ERROR')] *)
Definition sendError (w : World) (c : ws) (message : string) : World :=
  (sendToClient w c
     (DObject (JObj [("type", JStr "error"); ("code", JStr "ERROR");
                     ("message", JStr message)]))).1.

(** *** The handlers [app.js] registers ([setupWebSocketHandlers]) *)

(** The [switch (type)] of the [json_message] handler. *)
Inductive MessageKind := KPing | KGetStats | KRequestBlinkDetection | KUnknown.

Definition classify (type : option json) : MessageKind :=
  match type with
  | Some (JStr t) =>
      if String.eqb t "ping" then KPing
      else if String.eqb t "get_stats" then KGetStats
      else if String.eqb t "request_blink_detection" then KRequestBlinkDetection
      else KUnknown
  | _ => KUnknown
  end.

(** The [try] block of the [json_message] handler; [None] when it throws. *)
Definition json_message_body (w : World) (c : ws) (clientInfo : ClientInfo)
    (message : json) : option World :=
  match message with
  | JNull => None                       (* const { type, data } = null *)
  | _ =>
      let type := prop "type" message in
      let data := prop "data" message in
      match classify type with
      | KPing =>
          Some (sendToClient w c
                  (DObject (JObj [("type", JStr "pong"); ("timestamp", JNum (inject_Z (clock w)))]))).1
      | KGetStats =>
          let stats := session_stats w (sessionId clientInfo) in
          Some (sendToClient w c
                  (DObject (JObj [("type", JStr "stats"); ("data", stats)]))).1
      | KRequestBlinkDetection =>
          match data with
          | None | Some JNull => None   (* data.frameId on undefined or null *)
          | Some d =>
              match prop "frameId" d with
              | Some frameId =>
                  if truthy (Some frameId) then
                    Some (sendToClient w c
                            (DObject (JObj [("type", JStr "blink_detection_queued");
                                            ("frameId", frameId)]))).1
                  else Some w
              | None => Some w
              end
          end
      | KUnknown => Some (log (LUnknownMessageType type) w)
      end
  end.

Definition json_message_handler (w : World) (c : ws) (clientInfo : ClientInfo)
    (message : json) : World :=
  match json_message_body w c clientInfo message with
  | Some w' => w'
  | None => sendError (log LMessageHandlingError w) c "Failed to process message"
  end.

Definition text_message_handler (w : World) (c : ws) (clientInfo : ClientInfo)
    (data : string) : World :=
  (sendToClient (log (LTextMessage (sessionId clientInfo) (Text.substring_from_0 100 data)) w)
     c
     (DObject (JObj [("type", JStr "echo"); ("message", JStr "Message received");
                     ("length", JNum (inject_Z (Z.of_nat (Text.length data))))]))).1.

(** The [binary_message] handler up to its first [await], which is what
    runs inside [emit]: the payload is read as text and split at its
    commas, and a payload without a second part is answered at once.
    For any other payload the handler goes on to store and queue the
    frame ([App.binary_message_handler] is the handler as a whole); what
    it then writes back to the socket is an [AppSend] event below. *)
Definition binary_message_start (w : World) (c : ws) (data : string) : World :=
  let text := data in
  match Text.split "," text !! 1%nat with
  | None => sendError w c "Invalid frame format"
  | Some encoded =>
      if String.eqb encoded "" then sendError w c "Invalid frame format" else w
  end.

(** The table [this.eventHandlers] once [setupWebSocketHandlers] has run.
    The [session_ended] handler works on the database and on
    [activeSessions], which are not part of [World]. *)
Definition eventHandlers (e : Emitted) (w : World) : World :=
  match e with
  | json_message c clientInfo message => json_message_handler w c clientInfo message
  | text_message c clientInfo data => text_message_handler w c clientInfo data
  | binary_message c _ data => binary_message_start w c data
  | session_ended _ => w
  | client_disconnected _ _ _ _ => w
  end.

(** [emit(event, data)]: the call is recorded, then the handlers run. *)
Definition emit (e : Emitted) (w : World) : World :=
  eventHandlers e (record_emit e w).

(** *** The service's own handlers *)

(** [handleConnection(ws, request)]; [uuid] is what [uuidv4()] returns. *)
Definition handleConnection (w : World) (c : ws) (request : Request)
    (uuid : string) : World :=
  let sessionId := uuid in
  let clientInfo := mkClientInfo sessionId (clock w) (remoteAddress request) true [] in
  let w1 := set_clients <[c := clientInfo]> w in
  let w2 := match sessions w1 !! sessionId with
            | None => set_sessions <[sessionId := ∅]> w1
            | Some _ => w1
            end in
  let w3 := set_sessions (alter (λ sessionClients, {[c]} ∪ sessionClients) sessionId) w2 in
  let w4 := log (LClientConnected sessionId (size (clients w3))) w3 in
  (sendToClient w4 c
     (DObject (JObj [("type", JStr "connection"); ("sessionId", JStr sessionId);
                     ("message", JStr "Connected successfully")]))).1.

(** [handleMessage(ws, data)].  Nothing in its outer [try] block throws:
    [emit] itself catches what a handler throws. *)
Definition handleMessage (w : World) (c : ws) (data : Incoming) : World :=
  match clients w !! c with
  | None => w
  | Some clientInfo =>
      match data with
      | Text s =>
          match JSON_parse s with
          | Some message => emit (json_message c clientInfo message) w
          | None => emit (text_message c clientInfo s) w
          end
      | Binary bytes => emit (binary_message c clientInfo bytes) w
      end
  end.

(** [handlePong(ws)] *)
Definition handlePong (w : World) (c : ws) : World :=
  set_clients (alter (with_isAlive true) c) w.

(** [handleClose(ws, code, reason)] *)
Definition handleClose (w : World) (c : ws) (code : Z) (reason : string) : World :=
  match clients w !! c with
  | None => w
  | Some clientInfo =>
      let sessionId := sessionId clientInfo in
      let w1 :=
        match sessions w !! sessionId with
        | Some sessionClients =>
            let sessionClients' := sessionClients ∖ {[c]} in
            let w' := set_sessions <[sessionId := sessionClients']> w in
            if (size sessionClients' =? 0)%nat
            then emit (session_ended sessionId) (set_sessions (delete sessionId) w')
            else w'
        | None => w
        end in
      let w2 := set_clients (delete c) w1 in
      let w3 := log (LClientDisconnected sessionId code reason) w2 in
      let w4 := log (LActiveConnections (size (clients w3))) w3 in
      emit (client_disconnected sessionId clientInfo code reason) w4
  end.

(** One firing of the timer [startHeartbeat] sets. *)
Definition heartbeat_visit (c : ws) (clientInfo : ClientInfo) (w : World) : World :=
  if negb (isAlive clientInfo) then
    set_sockets (alter ws_terminate c) (log (LTerminatingDead (sessionId clientInfo)) w)
  else
    set_sockets (alter ws_ping c) (set_clients (alter (with_isAlive false) c) w).

Definition heartbeat_tick (w : World) : World :=
  map_fold heartbeat_visit w (clients w).

(** *** What happens to a running service *)
Inductive Event :=
| Connection (request : Request) (uuid : string)   (* the server's connection event *)
| Message (c : ws) (bytes : string)                (* a frame, text or binary *)
| Pong (c : ws)
| Close (c : ws) (code : Z) (reason : string)
| HeartbeatTick
| Deliver (sid : string) (data : Data)             (* sendToSession *)
| Broadcast (data : Data) (excludeWs : option ws)
| AppSend (c : ws) (data : Data)                   (* sendToClient from app.js *)
| Outside (t : Z) (st : string → json).            (* the clock and the database move *)

(** A connection event brings a socket object that did not exist before;
    a frame reaches [handleMessage] as a [Buffer]; a close event finds the
    socket closed. *)
Definition handle (w : World) (ev : Event) : World :=
  match ev with
  | Connection request uuid =>
      let c := fresh (dom (sockets w)) in
      handleConnection (set_sockets <[c := new_socket]> w) c request uuid
  | Message c bytes => handleMessage w c (Binary bytes)
  | Pong c => handlePong w c
  | Close c code reason => handleClose (set_sockets (alter ws_closed c) w) c code reason
  | HeartbeatTick => heartbeat_tick w
  | Deliver sid data => (sendToSession w sid data).1
  | Broadcast data excludeWs => (broadcast w data excludeWs).1
  | AppSend c data => (sendToClient w c data).1
  | Outside t st => set_env t st w
  end.

Definition run (w : World) (evs : list Event) : World := foldl handle w evs.

(** *** Delivery to a session *)

(** The socket after one more frame has been written to it. *)
Definition push (message : string) (s : Socket) : Socket :=
  mkSocket (readyState s) (outbox s ++ [message]) (pings s) (terminate_calls s).

Definition is_open (w : World) (c : ws) : bool :=
  match sockets w !! c with
  | Some s => (readyState_code (readyState s) =? 1)%nat
  | None => false
  end.

(** The live connections of a session: the members of its set whose socket
    is open. *)
Definition live_connections (w : World) (sid : string) : gset ws :=
  filter (λ c, is_open w c = true) (default ∅ (sessions w !! sid)).


(** *** Notions the statements use *)

(** The two maps agree: every registered socket is in the set of its
    session, every member of a session's set is registered under that
    session, and no session holds an empty set. *)
Definition consistent (w : World) : Prop :=
  (∀ c clientInfo, clients w !! c = Some clientInfo →
     ∃ sessionClients, sessions w !! sessionId clientInfo = Some sessionClients ∧
                       c ∈ sessionClients) ∧
  (∀ sid sessionClients c, sessions w !! sid = Some sessionClients → c ∈ sessionClients →
     ∃ clientInfo, clients w !! c = Some clientInfo ∧ sessionId clientInfo = sid) ∧
  (∀ sid sessionClients, sessions w !! sid = Some sessionClients → sessionClients ≠ ∅).

(** Every registered socket is an existing object. *)
Definition allocated (w : World) : Prop := dom (clients w) ⊆ dom (sockets w).

(** A socket after some more frames have been written to it. *)
Definition grow (messages : list string) (s : Socket) : Socket :=
  mkSocket (readyState s) (outbox s ++ messages) (pings s) (terminate_calls s).

(** A step that only writes frames: the registry is as it was, and every
    socket has at most received more frames. *)
Definition quiet (w w' : World) : Prop :=
  clients w' = clients w ∧ sessions w' = sessions w ∧
  ∀ c, ∃ messages, sockets w' !! c = grow messages <$> sockets w !! c.

(** What may happen between two firings of the heartbeat timer while a
    socket stays connected: anything but a firing and the socket's close. *)
Definition within_interval (c : ws) (ev : Event) : bool :=
  match ev with
  | HeartbeatTick => false
  | Close c' _ _ => negb (Pos.eqb c' c)
  | _ => true
  end.

Definition is_pong (c : ws) (ev : Event) : bool :=
  match ev with
  | Pong c' => Pos.eqb c' c
  | _ => false
  end.

(** The client's view of the session it asked to resume, if it sent one
    with the upgrade request. *)
Definition spec_supplied_session (request : Request) : option string :=
  snd <$> List.find (λ kv, String.eqb (fst kv) "sessionId") (query request).


(** *** The rest of the service *)

(** [broadcastExcept(data, senderWs)] *)
Definition broadcastExcept (w : World) (data : Data) (senderWs : ws) : World * nat :=
  broadcast w data (Some senderWs).

(** The open registered sockets a broadcast reaches. *)
Definition broadcast_targets (w : World) (excludeWs : option ws) : gset ws :=
  filter (λ c, is_open w c = true ∧ Some c ≠ excludeWs) (dom (clients w)).

(** [getClientInfo(ws)] *)
Definition getClientInfo (w : World) (c : ws) : option ClientInfo := clients w !! c.

(** [getSessionClients(sessionId)] *)
Definition getSessionClients (w : World) (sid : string) : list ws :=
  elements (default ∅ (sessions w !! sid)).

(** [updateClientMetadata(ws, metadata)] *)
Definition updateClientMetadata (w : World) (c : ws) (extra : list (string * json)) : World :=
  set_clients
    (alter (λ clientInfo,
              mkClientInfo (sessionId clientInfo) (connectedAt clientInfo) (ip clientInfo)
                           (isAlive clientInfo) (assign (metadata clientInfo) extra)) c) w.

(** [getStats()] *)
Record ConnectionStat := mkConnectionStat {
  stat_sessionId : string;
  stat_connectedAt : Z;
  stat_duration : Z;
  stat_ip : string
}.

Record Stats := mkStats {
  totalConnections : nat;
  totalSessions : nat;
  connections : list ConnectionStat
}.

Definition getStats (w : World) : Stats :=
  mkStats (size (clients w)) (size (sessions w))
    ((λ kv, mkConnectionStat (sessionId kv.2) (connectedAt kv.2)
                             (clock w - connectedAt kv.2) (ip kv.2))
       <$> map_to_list (clients w)).

(** [ws.close(code, reason)] of the [ws] package: an open socket starts
    closing; on any other socket nothing is written. *)
Definition ws_close (s : Socket) : Socket :=
  match readyState s with
  | OPEN => mkSocket CLOSING (outbox s) (pings s) (terminate_calls s)
  | _ => s
  end.

(** [shutdown()], up to the closing of the server: the notice, then the
    close of every registered socket.  The calls of [ws.close] are listed
    beside the state. *)
Definition shutdown_notice : Data :=
  DObject (JObj [("type", JStr "server_shutdown");
                 ("message", JStr "Server is shutting down")]).

Definition shutdown (w : World) : World * list (ws * Z * string) :=
  let w1 := (broadcast w shutdown_notice None).1 in
  map_fold (λ c (_ : ClientInfo) acc,
              (set_sockets (alter ws_close c) acc.1, acc.2 ++ [(c, 1001, "Server shutdown")]))
           (w1, []) (clients w1).

(** *** Messages from the bus: [setupRedisSubscriptions] *)

(** The lines the bus handler writes to the console. *)
Inductive BusLine :=
| LUnknownChannel (channel : string)
| LRedisMessageError.

(** [sendToSession] with a key of any type: the registry's keys are
    strings, so no other key finds a session. *)
Definition sendToSessionKey (w : World) (key : option json) (data : Data) : World * nat :=
  match key with
  | Some (JStr sid) => sendToSession w sid data
  | _ => (w, 0%nat)
  end.

(** [handleBlinkUpdate(data)]; [None] when it throws (a property read on
    [null]). *)
Definition handleBlinkUpdate (w : World) (data : json) : option World :=
  match data with
  | JNull => None
  | _ =>
      if truthy (prop "sessionId" data) then
        Some (sendToSessionKey w (prop "sessionId" data)
                (DObject (JObj (assign [("type", JStr "blink_update")]
                                       (spread (prop "stats" data)))))).1
      else
        Some (broadcast w
                (DObject (JObj (assign [("type", JStr "blink_update")]
                                       (spread (Some data))))) None).1
  end.

(** [handleSensorUpdate(data)] *)
Definition handleSensorUpdate (w : World) (data : json) : World :=
  (broadcast w
     (DObject (JObj (assign [("type", JStr "sensor_update")] (spread (Some data))))) None).1.

(** [handleInferenceResults(data)] *)
Definition handleInferenceResults (w : World) (data : json) : option World :=
  match data with
  | JNull => None
  | _ =>
      if truthy (prop "sessionId" data) then
        Some (sendToSessionKey w (prop "sessionId" data)
                (DObject (JObj (assign [("type", JStr "inference_complete")]
                                       (spread (Some data)))))).1
      else Some w
  end.

(** What [sendToClient] makes of a parsed value: a string goes out as it
    is, anything else is serialised. *)
Definition as_data (v : json) : Data :=
  match v with
  | JStr s => DString s
  | _ => DObject v
  end.

(** The handler of [redisSub.on('message', ...)]. *)
Definition onRedisMessage (w : World) (channel message : string) : World * list BusLine :=
  match JSON_parse message with
  | None => (w, [LRedisMessageError])
  | Some data =>
      if String.eqb channel "blink-updates" then
        match handleBlinkUpdate w data with
        | Some w' => (w', [])
        | None => (w, [LRedisMessageError])
        end
      else if String.eqb channel "sensor-updates" then (handleSensorUpdate w data, [])
      else if String.eqb channel "inference-results" then
        match handleInferenceResults w data with
        | Some w' => (w', [])
        | None => (w, [LRedisMessageError])
        end
      else if String.eqb channel "broadcast" then ((broadcast w (as_data data) None).1, [])
      else (w, [LUnknownChannel channel])
  end.

End service.


(** *** A runtime to run examples with *)

Definition dq : string := String "034"%char "".

Fixpoint join (sep : string) (parts : list string) : string :=
  match parts with
  | [] => ""
  | [p] => p
  | p :: rest => (p +:+ sep +:+ join sep rest)%string
  end.

(** The decimal text of a number whose decimal expansion is short. *)
Fixpoint decimals (fuel : nat) (r d : Z) : string :=
  match fuel with
  | O => ""
  | S fuel' =>
      if (r =? 0)%Z then ""
      else (pretty (r * 10 / d)%Z +:+ decimals fuel' (r * 10 mod d)%Z d)%string
  end.

Definition render_number (q : Q) : string :=
  let n := Qnum q in
  let d := Z.pos (Qden q) in
  let r := (Z.abs n mod d)%Z in
  ((if (n <? 0)%Z then "-" else "") +:+ pretty (Z.abs n / d)%Z +:+
   (if (r =? 0)%Z then "" else "." +:+ decimals 17 r d))%string.

(** [JSON.stringify] on trees whose strings need no escaping. *)
Fixpoint render (j : json) : string :=
  match j with
  | JNull => "null"
  | JBool b => if b then "true" else "false"
  | JNum n => render_number n
  | JStr s => dq +:+ s +:+ dq
  | JArr items => "[" +:+ join "," (map render items) +:+ "]"
  | JObj fields =>
      "{" +:+ join "," (map (λ kv, dq +:+ fst kv +:+ dq +:+ ":" +:+ render (snd kv)) fields)
          +:+ "}"
  end.

(** [JSON.parse] on the texts of a table of messages, every other text
    being taken as not JSON. *)
Definition sample_messages : list json :=
  [ JObj [("type", JStr "ping")];
    JObj [("type", JStr "get_stats")];
    JObj [("type", JStr "request_inference")];
    JObj [("type", JStr "request_blink_detection"); ("data", JObj [("frameId", JNum 7)])];
    JObj [("type", JStr "subscribe")];
    JNull ].

Definition sample_parse (text : string) : option json :=
  List.find (λ j, String.eqb (render j) text) sample_messages.

Definition sample_runtime : Runtime :=
  {| JSON_stringify := render; JSON_parse := sample_parse |}.

(** A service with one client, who asked for session [sess-1] and was given
    [uuid-1]. *)
Definition sample_request : Request := mkRequest "10.0.0.7" [("sessionId", "sess-1")].

Definition sample_world : World :=
  @run sample_runtime init [Connection sample_request "uuid-1"].

Definition sample_client : ClientInfo := mkClientInfo "uuid-1" 0 "10.0.0.7" true [].

Definition sample_socket : Socket :=
  mkSocket OPEN
    [render (JObj [("type", JStr "connection"); ("sessionId", JStr "uuid-1");
                   ("message", JStr "Connected successfully")])] 0 0.

End WS.

(** ** Start-up: [startServer] and the constructor of the service *)
Module Startup.

(** How a promise settles. *)
Inductive Outcome := Resolved | Rejected (err : string).

(** What the collaborators answer while the process starts. *)
Record Env := mkEnv {
  initializeDatabase : Outcome;
  storage_initialize : Outcome;     (* StorageService.initialize / getS3Status *)
  redis_ping : Outcome;             (* redisPub.ping() *)
  redis_subscribe : Outcome         (* redisSub.subscribe(...) *)
}.

Inductive LogLine :=
| LS3Warning (err : string)
| LRedisConnected
| LSubscribed
| LSubscriptionError (err : string)
| LWebSocketReady
| LInitializationError (err : string)
| LFailedToStart (err : string)
| LServerRunning.

Record Process := mkProcess {
  exit_code : option Z;               (* process.exit(code) *)
  listening : bool;                   (* server.listen(PORT, ...) *)
  subscribe_requested : list string;  (* the channels handed to redisSub.subscribe *)
  subscribed : list string;           (* the channels the broker delivers *)
  heartbeat_started : bool;
  console : list LogLine
}.

Definition booting : Process := mkProcess None false [] [] false [].

Definition log (l : LogLine) (p : Process) : Process :=
  mkProcess (exit_code p) (listening p) (subscribe_requested p) (subscribed p)
            (heartbeat_started p) (console p ++ [l]).

Definition channels : list string :=
  ["blink-updates"; "sensor-updates"; "inference-results"; "broadcast"].

(** [setupRedisSubscriptions()]: the subscription is requested; its
    settling only writes a line. *)
Definition setupRedisSubscriptions (env : Env) (p : Process) : Process :=
  let p1 := mkProcess (exit_code p) (listening p) channels (subscribed p)
                      (heartbeat_started p) (console p) in
  match redis_subscribe env with
  | Resolved =>
      log LSubscribed
        (mkProcess (exit_code p1) (listening p1) (subscribe_requested p1) channels
                   (heartbeat_started p1) (console p1))
  | Rejected err => log (LSubscriptionError err) p1
  end.

(** [initialize()]: handlers are registered and the heartbeat is started. *)
Definition initialize (p : Process) : Process :=
  mkProcess (exit_code p) (listening p) (subscribe_requested p) (subscribed p)
            true (console p).

(** [new WebSocketService(server)] *)
Definition constructor (env : Env) (p : Process) : Process :=
  initialize (setupRedisSubscriptions env p).

(** [initializeServices()]: the error it rethrows, or the process with its
    services.  The storage step is wrapped in its own [try]. *)
Definition initializeServices (env : Env) (p : Process) : Process * option string :=
  match initializeDatabase env with
  | Rejected err => (log (LInitializationError err) p, Some err)
  | Resolved =>
      let p1 := match storage_initialize env with
                | Resolved => p
                | Rejected err => log (LS3Warning err) p
                end in
      match redis_ping env with
      | Rejected err => (log (LInitializationError err) p1, Some err)
      | Resolved =>
          (log LWebSocketReady (constructor env (log LRedisConnected p1)), None)
      end
  end.

(** [startServer()]; the scheduled tasks it starts before listening are
    left out. *)
Definition startServer (env : Env) : Process :=
  match initializeServices env booting with
  | (p, None) =>
      log LServerRunning
        (mkProcess (exit_code p) true (subscribe_requested p) (subscribed p)
                   (heartbeat_started p) (console p))
  | (p, Some err) =>
      let p1 := log (LFailedToStart err) p in
      mkProcess (Some 1) (listening p1) (subscribe_requested p1) (subscribed p1)
                (heartbeat_started p1) (console p1)
  end.

(** The broker answers, the subscription is refused. *)
Definition refused_subscription : Env :=
  mkEnv Resolved Resolved Resolved (Rejected "ECONNRESET").

End Startup.

(** ** The queues: [queue.config.js] *)
Module Queue.

Inductive BackoffType := fixed | exponential.

Record Backoff := mkBackoff { type : BackoffType; delay : Z }.

Record JobsOptions := mkJobsOptions {
  attempts : nat;
  backoff : Backoff;
  removeOnComplete : nat;
  removeOnFail : nat
}.

Record Job (D : Type) := mkJob { name : string; data : D; opts : JobsOptions }.
Arguments mkJob {D}.
Arguments name {D}.
Arguments data {D}.
Arguments opts {D}.

(** [addFrameJob(data)]: the job [frameQueue.add] is given. *)
Definition addFrameJob {D} (frameQueue : list (Job D)) (d : D) : list (Job D) * Job D :=
  let job := mkJob "process-frame" d
               (mkJobsOptions 3 (mkBackoff exponential 2000) 100 50) in
  (frameQueue ++ [job], job).

(** [addInferenceJob(data)] *)
Definition addInferenceJob {D} (inferenceQueue : list (Job D)) (d : D)
    : list (Job D) * Job D :=
  let job := mkJob "run-inference" d
               (mkJobsOptions 2 (mkBackoff fixed 5000) 100 50) in
  (inferenceQueue ++ [job], job).

(** *** The life of a job

    The retry loop is the queue library's and is not in the repository;
    the definitions of this part follow the specification instead: section
    4.2 (a job whose handler raises is retried after the computed backoff
    delay until its attempts are exhausted, and is then marked failed and
    not resubmitted) and section 9 (the states of a job). *)

(** Modelled from the spec: the states of a job (section 9); the queue
    library that holds them is not in the repository. *)
Inductive JobState :=
| Waiting
| Active (attempt : nat)
| Retrying (attemptsMade : nat) (wait : Z)
| Completed
| Failed.

(** Modelled from the spec: the computed backoff delay of the queue library
    (section 4.2): the base delay when fixed, the base delay doubled with
    every attempt made after the first when exponential. *)
Definition backoff_delay (b : Backoff) (attemptsMade : nat) : Z :=
  match type b with
  | fixed => delay b
  | exponential => 2 ^ Z.of_nat (attemptsMade - 1) * delay b
  end.

(** Modelled from the spec: the state the queue library gives a job when an
    attempt ends (section 4.2, failure policy). *)
Definition after_attempt (o : JobsOptions) (attemptsMade : nat) (succeeded : bool)
    : JobState :=
  if succeeded then Completed
  else if (attemptsMade <? attempts o)%nat
       then Retrying attemptsMade (backoff_delay (backoff o) attemptsMade)
       else Failed.

(** Modelled from the spec: the attempts the queue library makes of one
    job, the handler working on a state [S]; [fuel] bounds the attempts
    still allowed. *)
Fixpoint process {S} (o : JobsOptions) (handler : nat → S → bool * S)
    (fuel attemptsMade : nat) (st : S) : list JobState * S :=
  match fuel with
  | O => ([], st)
  | Datatypes.S fuel' =>
      let attempt := Datatypes.S attemptsMade in
      let '(succeeded, st') := handler attempt st in
      match after_attempt o attempt succeeded with
      | Retrying n wait =>
          let '(states, st'') := process o handler fuel' attempt st' in
          (Active attempt :: Retrying n wait :: states, st'')
      | final => ([Active attempt; final], st')
      end
  end.

(** Modelled from the spec: the life of a job in the queue library, from
    its enqueueing to its last state; a job has as many attempts as its
    options allow. *)
Definition lifecycle {S} (o : JobsOptions) (handler : nat → S → bool * S) (st : S)
    : list JobState * S :=
  let '(states, st') := process o handler (attempts o) 0 st in
  (Waiting :: states, st').

(** The attempts and the waits of a life. *)
Definition attempts_made (states : list JobState) : list nat :=
  omap (λ s, match s with Active n => Some n | _ => None end) states.

Definition waits (states : list JobState) : list Z :=
  omap (λ s, match s with Retrying _ wait => Some wait | _ => None end) states.

(** A handler that raises whatever the attempt. *)
Definition always_raises {S} (effect : nat → S → S) (attempt : nat) (st : S) : bool * S :=
  (false, effect attempt st).

End Queue.

(** ** The inference worker *)
Module Worker.

Abbreviation Error := string.

Inductive result (A : Type) := Ok (a : A) | Throw (e : Error).
Arguments Ok {A}.
Arguments Throw {A}.

Definition is_ok {A} (r : result A) : bool :=
  match r with Ok _ => true | Throw _ => false end.

(** *** The scoring API *)
Record Prediction := mkPrediction {
  label : option string;
  class : option string;
  confidence : option Q;
  score : option Q
}.

(** What [runInference] returns: the decoded reply, or [{ error }]. *)
Record Reply := mkReply {
  predictions : option (list Prediction);
  error : option string
}.

(** *** The tables and the bus *)
Record InferenceRow := mkRow {
  frame_id : Z;
  emotion_label : string;
  emotion_confidence : option Q;
  redness_label : string;
  redness_confidence : option Q;
  processing_time_ms : option Z
}.

Record FrameRow := mkFrame {
  filename : string;
  s3_key : string;
  session_id : option string;
  processed : bool
}.

(** The four values [processFrame] returns. *)
Record Scored := mkScored {
  emotionLabel : string;
  emotionConf : option Q;
  rednessLabel : string;
  rednessConf : option Q
}.

Record ResultEvent := mkResultEvent {
  ev_sessionId : string;
  ev_frameId : Z;
  ev_results : Scored;
  ev_processingTime : Z
}.

Inductive LogLine :=
| LProcessing (frameId : Z)
| LInferenceError (modelId : string) (err : Error)   (* runInference *)
| LProcessingError (err : Error)                     (* processFrame *)
| LCompleted (frameId : Z)
| LWorkerError (frameId : Z) (err : Error)
| LFailedToLogError (dbError : Error).

Record Store := mkStore {
  inference_results : list InferenceRow;
  frames : gmap Z FrameRow;
  published : list (string * ResultEvent);
  progress : list nat;
  console : list LogLine
}.

Record JobData := mkJobData {
  frameId : Z;
  s3Key : string;
  sessionId : option string
}.

(** What the collaborators answer during one attempt: [None] where a call
    resolves, the error where it rejects. *)
Record Attempt := mkAttempt {
  updateProgress_rejects : nat → option Error;
  fetch : string → string → result Reply;   (* signed URL, request and decoding *)
  query_rejects : option Error;              (* pool.query *)
  create_rejects : option Error;             (* InferenceResult.create, try block *)
  update_rejects : option Error;             (* Frame.update *)
  publish_rejects : option Error;            (* redisPub.publish *)
  create_sentinel_rejects : option Error;    (* InferenceResult.create, catch block *)
  elapsed : Z                                (* Date.now() - startTime *)
}.

(** *** Computations that work on the store and may throw *)
Definition M (A : Type) : Type := Store → result A * Store.

#[export] Instance M_ret : MRet M := λ A a st, (Ok a, st).

#[export] Instance M_bind : MBind M :=
  λ A B k m st, match m st with
                | (Ok a, st') => k a st'
                | (Throw e, st') => (Throw e, st')
                end.

Definition ret {A} (a : A) : M A := mret a.

Definition throw {A} (e : Error) : M A := λ st, (Throw e, st).

Definition try_catch {A} (body : M A) (handler : Error → M A) : M A :=
  λ st, match body st with
        | (Ok a, st') => (Ok a, st')
        | (Throw e, st') => handler e st'
        end.

Definition log (l : LogLine) : M unit :=
  λ st, (Ok tt, mkStore (inference_results st) (frames st) (published st) (progress st)
                        (console st ++ [l])).

(** Resolve or reject as the collaborator says, with the effect on success. *)
Definition call (rejects : option Error) (effect : Store → Store) : M unit :=
  λ st, match rejects with
        | Some e => (Throw e, st)
        | None => (Ok tt, effect st)
        end.

Definition insert_row (row : InferenceRow) (st : Store) : Store :=
  mkStore (inference_results st ++ [row]) (frames st) (published st) (progress st)
          (console st).

Definition mark_processed (f : FrameRow) : FrameRow :=
  mkFrame (filename f) (s3_key f) (session_id f) true.

(** [job.updateProgress(p)] *)
Definition updateProgress (att : Attempt) (p : nat) : M unit :=
  call (updateProgress_rejects att p)
       (λ st, mkStore (inference_results st) (frames st) (published st)
                      (progress st ++ [p]) (console st)).

(** *** [InferenceService] *)

(** [runInference(s3Key, modelId)]: an exception becomes an error object. *)
Definition runInference (att : Attempt) (s3Key modelId : string) : M Reply :=
  match fetch att s3Key modelId with
  | Ok reply => ret reply
  | Throw e => log (LInferenceError modelId e);; ret (mkReply None (Some e))
  end.

(** [a || b] on strings and on numbers that may be undefined. *)
Definition or_string (a : option string) (b : string) : string :=
  match a with
  | Some s => if String.eqb s "" then b else s
  | None => b
  end.

Definition or_number (a b : option Q) : option Q :=
  match a with
  | Some q => if Qeq_bool q 0 then b else Some q
  | None => b
  end.

(** The label and the confidence [processFrame] takes from a reply. *)
Definition first_prediction (reply : Reply) : string * option Q :=
  match predictions reply with
  | Some (pred :: _) =>
      (or_string (label pred) (or_string (class pred) "Unknown"),
       or_number (confidence pred) (or_number (score pred) None))
  | _ => ("Unknown", None)
  end.

(** [processFrame(frameId, s3Key)] *)
Definition processFrame (att : Attempt) (frameId : Z) (s3Key : string) : M Scored :=
  try_catch
    (emotionResult ← runInference att s3Key "emotion-esmd2/2";
     rednessResult ← runInference att s3Key "redness-of-eyes-aju4x/1";
     let '(emotionLabel, emotionConf) := first_prediction emotionResult in
     let '(rednessLabel, rednessConf) := first_prediction rednessResult in
     call (query_rejects att)
          (insert_row (mkRow frameId emotionLabel emotionConf rednessLabel rednessConf None));;
     ret (mkScored emotionLabel emotionConf rednessLabel rednessConf))
    (λ error, log (LProcessingError error);; throw error).

(** *** The model [InferenceResult] and [StorageService] *)

(** The validators of the confidence columns: between 0 and 1 when given. *)
Definition valid_confidence (c : option Q) : bool :=
  match c with
  | Some q => Qle_bool 0 q && Qle_bool q 1
  | None => true
  end.

(** [InferenceResult.create(row)] *)
Definition InferenceResult_create (rejects : option Error) (row : InferenceRow)
    : M InferenceRow :=
  if valid_confidence (emotion_confidence row) && valid_confidence (redness_confidence row)
  then call rejects (insert_row row);; ret row
  else throw "Validation error".

(** [StorageService.markFrameProcessed(frameId)] *)
Definition markFrameProcessed (att : Attempt) (frameId : Z) : M unit :=
  call (update_rejects att)
       (λ st, mkStore (inference_results st) (alter mark_processed frameId (frames st))
                      (published st) (progress st) (console st)).

Definition publish (att : Attempt) (channel : string) (event : ResultEvent) : M unit :=
  call (publish_rejects att)
       (λ st, mkStore (inference_results st) (frames st)
                      (published st ++ [(channel, event)]) (progress st) (console st)).

(** *** [processInferenceJob] *)
Record JobReturn := mkJobReturn {
  success : bool;
  ret_frameId : Z;
  inferenceRecord : InferenceRow;   (* the record whose id is returned *)
  processingTime : Z;
  results : Scored
}.

(** The row the catch block records. *)
Definition sentinel_row (frameId : Z) (time : Z) : InferenceRow :=
  mkRow frameId "ERROR" None "ERROR" None (Some time).

(** The [try] block. *)
Definition processInferenceJob_try (att : Attempt) (job : JobData) : M JobReturn :=
  log (LProcessing (frameId job));;
  updateProgress att 10;;
  results ← processFrame att (frameId job) (s3Key job);
  updateProgress att 70;;
  inferenceRecord ←
    InferenceResult_create (create_rejects att)
      (mkRow (frameId job) (emotionLabel results) (emotionConf results)
             (rednessLabel results) (rednessConf results) (Some (elapsed att)));
  updateProgress att 90;;
  markFrameProcessed att (frameId job);;
  match sessionId job with
  | Some sid =>
      if String.eqb sid "" then ret tt
      else publish att "inference-results"
             (mkResultEvent sid (frameId job) results (elapsed att))
  | None => ret tt
  end;;
  updateProgress att 100;;
  log (LCompleted (frameId job));;
  ret (mkJobReturn true (frameId job) inferenceRecord (elapsed att) results).

(** The [catch] block. *)
Definition processInferenceJob_catch (att : Attempt) (job : JobData) (error : Error)
    : M JobReturn :=
  log (LWorkerError (frameId job) error);;
  try_catch
    (InferenceResult_create (create_sentinel_rejects att)
       (sentinel_row (frameId job) (elapsed att));; ret tt)
    (λ dbError, log (LFailedToLogError dbError));;
  throw error.

Definition processInferenceJob (att : Attempt) (job : JobData) : M JobReturn :=
  try_catch (processInferenceJob_try att job) (processInferenceJob_catch att job).

(** The worker's handler as the queue runs it: attempt [n] meets the
    collaborators as [atts n] describes them. *)
Definition handler (atts : nat → Attempt) (job : JobData) (attempt : nat) (st : Store)
    : bool * Store :=
  let '(r, st') := processInferenceJob (atts attempt) job st in (is_ok r, st').

(** *** Notions the statements use *)

Definition is_sentinel (row : InferenceRow) : bool :=
  String.eqb (emotion_label row) "ERROR" && String.eqb (redness_label row) "ERROR" &&
  bool_decide (emotion_confidence row = None) &&
  bool_decide (redness_confidence row = None).

(** The rows of a frame that were added to the table between two stores. *)
Definition new_rows (before after : Store) : list InferenceRow :=
  drop (List.length (inference_results before)) (inference_results after).

Definition sentinels (frameId : Z) (rows : list InferenceRow) : nat :=
  List.length (filter (λ r, frame_id r = frameId ∧ is_sentinel r = true) rows).

Definition non_sentinels (frameId : Z) (rows : list InferenceRow) : nat :=
  List.length (filter (λ r, frame_id r = frameId ∧ is_sentinel r = false) rows).

(** A row that carries the scores of a frame. *)
Definition scored_row (frameId : Z) (scores : Scored) (row : InferenceRow) : Prop :=
  frame_id row = frameId ∧
  emotion_label row = emotionLabel scores ∧ emotion_confidence row = emotionConf scores ∧
  redness_label row = rednessLabel scores ∧ redness_confidence row = rednessConf scores.

(** The scores an attempt computes: those of the replies [runInference]
    hands to [processFrame]. *)
Definition reply_of (att : Attempt) (s3Key modelId : string) : Reply :=
  match fetch att s3Key modelId with
  | Ok reply => reply
  | Throw e => mkReply None (Some e)
  end.

Definition scores_of (att : Attempt) (job : JobData) : Scored :=
  let e := first_prediction (reply_of att (s3Key job) "emotion-esmd2/2") in
  let r := first_prediction (reply_of att (s3Key job) "redness-of-eyes-aju4x/1") in
  mkScored e.1 e.2 r.1 r.2.

(** The sentinel an attempt leaves when its failure is recorded. *)
Definition recorded_sentinel (att : Attempt) (job : JobData) : list InferenceRow :=
  match create_sentinel_rejects att with
  | None => [sentinel_row (frameId job) (elapsed att)]
  | Some _ => []
  end.

(** The calls whose rejection the try block can raise. *)
Definition raised (att : Attempt) (e : Error) : Prop :=
  (∃ p, updateProgress_rejects att p = Some e) ∨ query_rejects att = Some e ∨
  create_rejects att = Some e ∨ e = "Validation error" ∨
  update_rejects att = Some e ∨ publish_rejects att = Some e.

Definition raw_row (att : Attempt) (job : JobData) : InferenceRow :=
  let s := scores_of att job in
  mkRow (frameId job) (emotionLabel s) (emotionConf s) (rednessLabel s) (rednessConf s) None.

Definition worker_row (att : Attempt) (job : JobData) : InferenceRow :=
  let s := scores_of att job in
  mkRow (frameId job) (emotionLabel s) (emotionConf s) (rednessLabel s) (rednessConf s)
        (Some (elapsed att)).

(** Whether the job names a session: [if (sessionId)]. *)
Definition has_session (job : JobData) : bool :=
  match sessionId job with
  | Some sid => negb (String.eqb sid "")
  | None => false
  end.

(** The calls of the try block that can raise, in program order, each with
    the error it raises if it does.  The scoring calls are not among them. *)
Definition in_order (att : Attempt) (job : JobData) : list (option Error) :=
  [ updateProgress_rejects att 10;
    query_rejects att;
    updateProgress_rejects att 70;
    (if valid_confidence (emotionConf (scores_of att job)) &&
        valid_confidence (rednessConf (scores_of att job))
     then None else Some "Validation error");
    create_rejects att;
    updateProgress_rejects att 90;
    update_rejects att;
    (if has_session job then publish_rejects att else None);
    updateProgress_rejects att 100 ].

Definition first_rejection (att : Attempt) (job : JobData) : option Error :=
  head (omap id (in_order att job)).

(** *** Sample attempts *)

Definition sample_job : JobData := mkJobData 1 "frames/1.jpg" (Some "uuid-1").

Definition sample_store : Store :=
  mkStore [] {[ 1 := mkFrame "1.jpg" "frames/1.jpg" (Some "uuid-1") false ]} [] [] [].

Definition sample_reply (name : string) : Reply :=
  mkReply (Some [mkPrediction None (Some name) (Some (9 # 10)%Q) None]) None.

(** Everything answers. *)
Definition smooth : Attempt :=
  mkAttempt (λ _, None)
            (λ _ modelId, Ok (sample_reply (if String.eqb modelId "emotion-esmd2/2"
                                            then "happy" else "red")))
            None None None None None 42.

(** The scoring call throws; everything else answers. *)
Definition scorer_down : Attempt :=
  mkAttempt (λ _, None) (λ _ _, Throw "ETIMEDOUT") None None None None None 42.

(** The database refuses the insert of [processFrame]. *)
Definition insert_refused : Attempt :=
  mkAttempt (λ _, None) (fetch smooth) (Some "deadlock detected") None None None None 42.

(** *** What an attempt publishes *)

(** The event a job with a session puts on the bus. *)
Definition publication (att : Attempt) (job : JobData) : list (string * ResultEvent) :=
  match sessionId job with
  | Some sid =>
      if String.eqb sid "" then []
      else [("inference-results",
             mkResultEvent sid (frameId job) (scores_of att job) (elapsed att))]
  | None => []
  end.

(** The scorer reports a confidence above 1 for the emotion. *)
Definition overconfident : Attempt :=
  mkAttempt (λ _, None)
            (λ _ modelId,
               if String.eqb modelId "emotion-esmd2/2"
               then Ok (mkReply (Some [mkPrediction (Some "happy") None (Some (3 # 2)%Q) None])
                                None)
               else Ok (sample_reply "red"))
            None None None None None 42.

End Worker.

(** ** The result on the bus

    What the worker hands to [JSON.stringify] for the channel
    [inference-results]: [{ sessionId, frameId, ...results,
    processingTime }]. *)
Module Bus.

Definition number_or_null (c : option Q) : json :=
  match c with
  | Some q => JNum q
  | None => JNull
  end.

Definition result_message (event : Worker.ResultEvent) : json :=
  let results := Worker.ev_results event in
  JObj [("sessionId", JStr (Worker.ev_sessionId event));
        ("frameId", JNum (inject_Z (Worker.ev_frameId event)));
        ("emotionLabel", JStr (Worker.emotionLabel results));
        ("emotionConf", number_or_null (Worker.emotionConf results));
        ("rednessLabel", JStr (Worker.rednessLabel results));
        ("rednessConf", number_or_null (Worker.rednessConf results));
        ("processingTime", JNum (inject_Z (Worker.ev_processingTime event)))].

(** The result of the sample job when everything answers, and a runtime
    whose [JSON.parse] knows its text. *)
Definition sample_result : json :=
  result_message (Worker.mkResultEvent "uuid-1" 1
                    (Worker.scores_of Worker.smooth Worker.sample_job)
                    (Worker.elapsed Worker.smooth)).

Definition bus_runtime : WS.Runtime :=
  {| WS.JSON_stringify := WS.render;
     WS.JSON_parse := λ text, if String.eqb text (WS.render sample_result)
                              then Some sample_result else None |}.

End Bus.

(** ** The worker before [processInferenceJob]

    The handler of the earlier [inference-processing] worker: the frame
    is scored and marked, with no [try] around the two calls. *)
Module LegacyWorker.
Import Worker.

Definition processJob (att : Attempt) (job : JobData) : M Scored :=
  log (LProcessing (frameId job));;
  results ← processFrame att (frameId job) (s3Key job);
  markFrameProcessed att (frameId job);;
  ret results.

End LegacyWorker.

(** ** The broker connection: [config/redis.js] *)
Module Redis.

(** [retryStrategy(times)]: the wait in milliseconds before reconnection
    attempt [times]. *)
Definition retryStrategy (times : Z) : Z :=
  let delay := Z.min (times * 50) 2000 in
  delay.

End Redis.

(** ** The object store and the frame table: [config/s3.js] and
    [services/storage.service.js] *)
Module Storage.
Import Worker(result, Ok, Throw, Error).

Abbreviation Buffer := (list Byte.byte).

Definition ENDPOINT : string := "http://localhost:9444".
Definition BUCKET : string := "blink-detector-frames".

Record S3Object := mkObject {
  Body : Buffer;
  LastModified : Z
}.

(** A row of the table [frames], with the columns the model declares.
    ([saveFrame] also passes [storage_location], which is no attribute of
    the model and is not stored.) *)
Record Frame := mkFrame {
  row_id : Z;
  filename : string;
  s3_key : string;
  session_id : option string;
  processed : bool;
  file_size : nat;
  uploaded_at : Z
}.

Inductive LogLine :=
| LCompressed (filename : string) (before after : nat)
| LUploaded (filename : string)
| LUploadError (e : Error)
| LSaveError (e : Error)
| LGetFileError (e : Error)
| LListError (e : Error)
| LDeleted (key : string)
| LDeleteError (e : Error)
| LCleanedUp (deleted : nat)
| LCleanedUpFrames (deleted dbDeleted : nat).

Record Store := mkStore {
  bucket : gmap string S3Object;   (* the bucket, by key *)
  frames : gmap Z Frame;           (* the table, by primary key *)
  next_id : Z;                     (* the sequence of the primary key *)
  console : list LogLine
}.

(** What the collaborators answer during one call: [None] where a request
    resolves, the error where it rejects. *)
Record Env := mkEnv {
  sharp : Buffer → result Buffer;           (* resize and re-encode *)
  put_rejects : option Error;               (* PutObjectCommand *)
  get_rejects : option Error;               (* GetObjectCommand *)
  no_such_key : Error;                      (* what GetObject answers for a missing key *)
  listing : result (list (string * Z));     (* ListObjectsV2: Key and LastModified *)
  delete_rejects : string → option Error;   (* DeleteObjectCommand *)
  create_rejects : option Error;            (* Frame.create *)
  destroy_rejects : option Error;           (* Frame.destroy *)
  now : Z;                                  (* Date.now() *)
  find_rejects : option Error               (* Frame.findByPk *)
}.

Definition log (l : LogLine) (st : Store) : Store :=
  mkStore (bucket st) (frames st) (next_id st) (console st ++ [l]).

Definition set_bucket (f : gmap string S3Object → gmap string S3Object) (st : Store) : Store :=
  mkStore (f (bucket st)) (frames st) (next_id st) (console st).

(** *** [config/s3.js] *)

Record StorageInfo := mkStorageInfo {
  info_location : string;
  info_key : string;
  info_size : nat;
  info_bucket : string
}.

(** [uploadToS3(buffer, filename)] *)
Definition uploadToS3 (env : Env) (buffer : Buffer) (filename : string) (st : Store)
    : result StorageInfo * Store :=
  let key := "frames/" +:+ filename in
  match put_rejects env with
  | None =>
      (Ok (mkStorageInfo "s3" key (List.length buffer) BUCKET),
       log (LUploaded filename) (set_bucket <[key := mkObject buffer (now env)]> st))
  | Some error => (Throw error, log (LUploadError error) st)
  end.

(** [getFile(key)] *)
Definition getFile (env : Env) (key : string) (st : Store) : result Buffer * Store :=
  let response :=
    match get_rejects env with
    | Some error => Throw error
    | None =>
        match bucket st !! key with
        | Some object => Ok (Body object)
        | None => Throw (no_such_key env)
        end
    end in
  match response with
  | Ok chunks => (Ok chunks, st)
  | Throw error => (Throw error, log (LGetFileError error) st)
  end.

(** [getSignedUrlForFrame(key)] *)
Definition getSignedUrlForFrame (key : string) : string :=
  ENDPOINT +:+ "/" +:+ BUCKET +:+ "/" +:+ key.

(** [listObjects(prefix = 'frames/')] *)
Definition listObjects (env : Env) (st : Store) : list (string * Z) * Store :=
  match listing env with
  | Ok contents => (contents, st)
  | Throw error => ([], log (LListError error) st)
  end.

(** [deleteObject(key)] *)
Definition deleteObject (env : Env) (key : string) (st : Store) : bool * Store :=
  match delete_rejects env key with
  | None => (true, log (LDeleted key) (set_bucket (delete key) st))
  | Some error => (false, log (LDeleteError error) st)
  end.

(** The body of the loop of [cleanupOldFiles]. *)
Definition cleanup_step (env : Env) (maxAge : Z) (acc : nat * Store) (obj : string * Z)
    : nat * Store :=
  let age := now env - obj.2 in
  if (maxAge <? age)%Z then (S acc.1, (deleteObject env obj.1 acc.2).2) else acc.

(** [cleanupOldFiles(daysOld = 7)] *)
Definition cleanupOldFiles (env : Env) (daysOld : Z) (st : Store) : nat * Store :=
  let '(objects, st1) := listObjects env st in
  let maxAge := daysOld * 24 * 60 * 60 * 1000 in
  let '(deleted, st2) := foldl (cleanup_step env maxAge) (0%nat, st1) objects in
  (deleted, if (0 <? deleted)%nat then log (LCleanedUp deleted) st2 else st2).

(** *** The model [Frame] *)

Record NewFrame := mkNewFrame {
  new_filename : string;
  new_s3_key : string;
  new_session_id : option string;
  new_file_size : nat
}.

(** [Frame.create(values)]: the file name is unique; [processed] and
    [uploaded_at] take their defaults. *)
Definition Frame_create (env : Env) (values : NewFrame) (st : Store) : result Frame * Store :=
  match create_rejects env with
  | Some error => (Throw error, st)
  | None =>
      if bool_decide (∃ i row, frames st !! i = Some row ∧ filename row = new_filename values)
      then (Throw "Validation error", st)
      else
        let row := mkFrame (next_id st) (new_filename values) (new_s3_key values)
                           (new_session_id values) false (new_file_size values) (now env) in
        (Ok row, mkStore (bucket st) (<[next_id st := row]> (frames st)) (next_id st + 1)
                         (console st))
  end.

(** [Frame.findByPk(id)]: the row, [null] ([None]) when there is none. *)
Definition Frame_findByPk (env : Env) (st : Store) (frameId : Z) : result (option Frame) :=
  match find_rejects env with
  | Some error => Throw error
  | None => Ok (frames st !! frameId)
  end.

(** [Frame.destroy({ where: { uploaded_at: { [Op.lt]: cutoffDate } } })] *)
Definition Frame_destroy (env : Env) (cutoffDate : Z) (st : Store) : result nat * Store :=
  match destroy_rejects env with
  | Some error => (Throw error, st)
  | None =>
      let old := filter (λ kv, uploaded_at kv.2 < cutoffDate) (frames st) in
      (Ok (size old),
       mkStore (bucket st) (filter (λ kv, ¬ uploaded_at kv.2 < cutoffDate) (frames st))
               (next_id st) (console st))
  end.

(** *** [StorageService] *)

Record Saved := mkSaved {
  frameId : Z;
  s3Key : string;
  saved_location : string;
  saved_size : nat
}.

(** [saveFrame(buffer, filename, sessionId = null)] *)
Definition saveFrame (env : Env) (buffer : Buffer) (filename : string)
    (sessionId : option string) (st : Store) : result Saved * Store :=
  let body :=
    match sharp env buffer with
    | Throw error => (Throw error, st)
    | Ok optimizedBuffer =>
        let st1 := log (LCompressed filename (List.length buffer)
                                    (List.length optimizedBuffer)) st in
        match uploadToS3 env optimizedBuffer filename st1 with
        | (Throw error, st2) => (Throw error, st2)
        | (Ok storageInfo, st2) =>
            match Frame_create env (mkNewFrame filename (info_key storageInfo) sessionId
                                               (info_size storageInfo)) st2 with
            | (Throw error, st3) => (Throw error, st3)
            | (Ok result, st3) =>
                (Ok (mkSaved (row_id result) (info_key storageInfo) "s3" (info_size storageInfo)), st3)
            end
        end
    end in
  match body with
  | (Throw error, st') => (Throw error, log (LSaveError error) st')
  | other => other
  end.

(** [getFrameUrl(frameId)] *)
Definition getFrameUrl (env : Env) (st : Store) (frameId : Z) : result string :=
  match Frame_findByPk env st frameId with
  | Throw error => Throw error
  | Ok None => Throw "Frame not found"
  | Ok (Some frame) => Ok (getSignedUrlForFrame (s3_key frame))
  end.

(** [getFrameBuffer(frameId)] *)
Definition getFrameBuffer (env : Env) (frameId : Z) (st : Store) : result Buffer * Store :=
  match Frame_findByPk env st frameId with
  | Throw error => (Throw error, st)
  | Ok None => (Throw "Frame not found", st)
  | Ok (Some frame) => getFile env (s3_key frame) st
  end.

(** [cleanupOldFrames(daysOld = 7)]; [later] is what [Date.now()] returns
    once the bucket has been cleaned. *)
Definition cleanupOldFrames (env : Env) (later : Z) (daysOld : Z) (st : Store)
    : result (nat * nat) * Store :=
  let '(deleted, st1) := cleanupOldFiles env daysOld st in
  let cutoffDate := later - daysOld * 24 * 60 * 60 * 1000 in
  match Frame_destroy env cutoffDate st1 with
  | (Throw error, st2) => (Throw error, st2)
  | (Ok dbDeleted, st2) => (Ok (deleted, dbDeleted), log (LCleanedUpFrames deleted dbDeleted) st2)
  end.

(** *** A sample store *)

Definition sample_env : Env :=
  mkEnv (λ buffer, Ok (take 2 buffer)) None None "NoSuchKey"
        (Ok [("frames/old.jpg", 0); ("frames/edge.jpg", 400000000); ("frames/new.jpg", 900000000)])
        (λ _, None) None None 1004800000 None.

Definition sample_store : Store := mkStore ∅ ∅ 1 [].

Definition sample_buffer : Buffer := [Byte.xff; Byte.xd8; Byte.xff; Byte.xe0].

End Storage.


(** ** Frame ingestion: the [binary_message] handler of [app.js] *)
Module App.
Import Worker(result, Ok, Throw, Error, JobData, mkJobData).
Import WS.

Abbreviation split := Text.split.

(** An entry of [activeSessions]. *)
Record SessionData := mkSessionData {
  sd_connectedAt : Z;
  frameCount : nat;
  blinkCount : nat
}.

Inductive LogLine :=
| LFrameProcessingError (e : Error)
| LFrameCountError (e : Error).

Record State := mkState {
  world : World;                                    (* wsService *)
  store : Storage.Store;                            (* the bucket and the table frames *)
  inferenceQueue : list (Queue.Job JobData);
  activeSessions : gmap string SessionData;
  total_frames : gmap string Z;                     (* the table sessions, by session_id *)
  console : list LogLine
}.

(** What the collaborators answer while one frame is handled. *)
Record Env := mkEnv {
  storage : Storage.Env;
  base64 : string → Storage.Buffer;     (* Buffer.from(encoded, 'base64') *)
  uuid : string;                        (* uuidv4() *)
  findOne_rejects : option Error;       (* Session.findOne *)
  update_rejects : option Error;        (* session.update *)
  add_rejects : option Error            (* inferenceQueue.add *)
}.

Definition set_world (f : World → World) (a : State) : State :=
  mkState (f (world a)) (store a) (inferenceQueue a) (activeSessions a) (total_frames a)
          (console a).
Definition set_store (s : Storage.Store) (a : State) : State :=
  mkState (world a) s (inferenceQueue a) (activeSessions a) (total_frames a) (console a).
Definition log (l : LogLine) (a : State) : State :=
  mkState (world a) (store a) (inferenceQueue a) (activeSessions a) (total_frames a)
          (console a ++ [l]).

(** [updateSessionFrameCount(sessionId)]: whatever rejects is logged and
    the rest of the body is skipped. *)
Definition updateSessionFrameCount (env : Env) (sessionId : string) (a : State) : State :=
  match findOne_rejects env with
  | Some error => log (LFrameCountError error) a
  | None =>
      let updated :=
        match total_frames a !! sessionId with
        | Some n =>
            match update_rejects env with
            | Some error => Throw error
            | None => Ok (<[sessionId := n + 1]> (total_frames a))
            end
        | None => Ok (total_frames a)
        end in
      match updated with
      | Throw error => log (LFrameCountError error) a
      | Ok rows =>
          mkState (world a) (store a) (inferenceQueue a)
                  (alter (λ sessionData,
                            mkSessionData (sd_connectedAt sessionData)
                                          (S (frameCount sessionData))
                                          (blinkCount sessionData))
                         sessionId (activeSessions a))
                  rows (console a)
      end
  end.

(** [addInferenceJob(data)] on the state. *)
Definition addInferenceJob (env : Env) (data : JobData) (a : State) : result unit * State :=
  match add_rejects env with
  | Some error => (Throw error, a)
  | None =>
      (Ok tt, mkState (world a) (store a) (Queue.addInferenceJob (inferenceQueue a) data).1
                      (activeSessions a) (total_frames a) (console a))
  end.

Section handlers.
Context `{!Runtime}.

(** The name the handler gives the frame. *)
Definition frame_filename (timestamp : Z) (uuid : string) : string :=
  pretty timestamp +:+ "_" +:+ substring 0 8 uuid +:+ ".jpg".

(** The acknowledgment. *)
Definition frame_received (saved : Storage.Saved) (sessionId filename : string) : json :=
  JObj [("type", JStr "frame_received"); ("frameId", JNum (inject_Z (Storage.frameId saved)));
        ("sessionId", JStr sessionId); ("filename", JStr filename);
        ("size", JNum (inject_Z (Z.of_nat (Storage.saved_size saved))));
        ("queuedForInference", JBool true)].

(** The [try] block of the handler once the frame is decoded. *)
Definition ingest (env : Env) (c : ws) (clientInfo : ClientInfo) (encoded : string)
    (a : State) : result unit * State :=
  let buffer := base64 env encoded in
  let timestamp := clock (world a) in
  let filename := frame_filename timestamp (uuid env) in
  match Storage.saveFrame (storage env) buffer filename (Some (sessionId clientInfo))
                          (store a) with
  | (Throw error, s) => (Throw error, set_store s a)
  | (Ok saved, s) =>
      let a1 := updateSessionFrameCount env (sessionId clientInfo) (set_store s a) in
      match addInferenceJob env (mkJobData (Storage.frameId saved) (Storage.s3Key saved)
                                           (Some (sessionId clientInfo))) a1 with
      | (Throw error, a2) => (Throw error, a2)
      | (Ok _, a2) =>
          (Ok tt,
           set_world (λ w, (sendToClient w c
                              (DObject (frame_received saved (sessionId clientInfo)
                                                       filename))).1) a2)
      end
  end.

(** The handler of [binary_message]; the payload is read as text. *)
Definition binary_message_handler (env : Env) (c : ws) (clientInfo : ClientInfo)
    (data : string) (a : State) : State :=
  let text := data in
  let encoded := split "," text !! 1%nat in
  match encoded with
  | None => set_world (λ w, sendError w c "Invalid frame format") a
  | Some encoded =>
      if String.eqb encoded "" then set_world (λ w, sendError w c "Invalid frame format") a
      else
        match ingest env c clientInfo encoded a with
        | (Ok _, a') => a'
        | (Throw error, a') =>
            set_world (λ w, sendError w c "Failed to process frame")
                      (log (LFrameProcessingError error) a')
        end
  end.

End handlers.

(** *** A sample frame *)

Definition sample_env : Env :=
  mkEnv Storage.sample_env (λ _, Storage.sample_buffer) "3f2b8c1e-aaaa-bbbb-cccc-000000000000"
        None None None.

Definition sample_state : State :=
  mkState sample_world Storage.sample_store [] ∅ ∅ [].

(** The image cannot be decoded. *)
Definition unreadable : Env :=
  mkEnv (Storage.mkEnv (λ _, Throw "Input buffer contains unsupported image format")
                       None None "NoSuchKey" (Ok []) (λ _, None) None None 1004800000 None)
        (base64 sample_env) (uuid sample_env) None None None.

(** The queue refuses the job. *)
Definition queue_down : Env :=
  mkEnv Storage.sample_env (base64 sample_env) (uuid sample_env) None None
        (Some "Connection is closed.").

End App.


(** * Properties *)

Import WS.

Section connection_manager.
Context {runtime : Runtime}.

Lemma sendToClient_open w c data :
  is_open w c = true →
  sendToClient w c data = (set_sockets (alter (push (serialize data)) c) w, true).
Proof.
  unfold is_open, sendToClient. destruct (sockets w !! c) as [s|] eqn:Hs; [|done].
  intros Ho. rewrite Ho. simpl. unfold ws_send.
  destruct (readyState s) eqn:Hr; try discriminate Ho.
  f_equal. unfold set_sockets. f_equal.
  apply map_eq. intros i. rewrite lookup_insert, lookup_alter.
  case_decide; subst; [|done].
  rewrite Hs. simpl. unfold push. by rewrite Hr.
Qed.

Lemma sendToClient_not_open w c data :
  is_open w c = false → sendToClient w c data = (w, false).
Proof.
  unfold is_open, sendToClient. destruct (sockets w !! c) as [s|] eqn:Hs; [|done].
  intros Ho. by rewrite Ho.
Qed.

(** [sendToClient] touches one socket and nothing else. *)
Lemma sendToClient_frame w c data :
  let w' := (sendToClient w c data).1 in
  clients w' = clients w ∧ sessions w' = sessions w ∧ emitted w' = emitted w ∧
  console w' = console w ∧ clock w' = clock w ∧ session_stats w' = session_stats w ∧
  dom (sockets w') = dom (sockets w) ∧
  (∀ c', c' ≠ c → sockets w' !! c' = sockets w !! c').
Proof.
  destruct (is_open w c) eqn:Ho.
  - rewrite sendToClient_open by done. simpl. repeat split; try done.
    + apply set_eq. intros i. rewrite !elem_of_dom, lookup_alter.
      case_decide; subst; [by rewrite fmap_is_Some|done].
    + intros c' Hne. by rewrite lookup_alter_ne.
  - rewrite sendToClient_not_open by done. simpl. repeat split; done.
Qed.


Lemma send_loop w data (X : gset ws) :
  let r := set_fold (send_step data) (w, 0%nat) X in
  r.2 = size (filter (λ c, is_open w c = true) X) ∧
  (∀ c, sockets r.1 !! c =
        if decide (c ∈ X ∧ is_open w c = true)
        then push (serialize data) <$> sockets w !! c
        else sockets w !! c) ∧
  clients r.1 = clients w ∧ sessions r.1 = sessions w ∧
  emitted r.1 = emitted w ∧ console r.1 = console w.
Proof.
  simpl. revert X.
  pose (P := λ (r : World * nat) (Y : gset ws),
    r.2 = size (filter (λ c, is_open w c = true) Y) ∧
    (∀ c, sockets r.1 !! c =
          if decide (c ∈ Y ∧ is_open w c = true)
          then push (serialize data) <$> sockets w !! c
          else sockets w !! c) ∧
    clients r.1 = clients w ∧ sessions r.1 = sessions w ∧
    emitted r.1 = emitted w ∧ console r.1 = console w).
  apply (set_fold_ind_L P); unfold P; clear P; try (by apply _).
  - simpl. rewrite filter_empty_L by apply _. rewrite size_empty.
    repeat split; done.
  - intros x Y [w1 n] Hx (Hn & Hs & Hc & Hse & He & Hl). simpl in *.
    assert (is_open w1 x = is_open w x) as Hopen.
    { unfold is_open. rewrite Hs. rewrite decide_False; [done|]. intros [? _]. done. }
    unfold send_step. simpl.
    destruct (is_open w x) eqn:Ho.
    + rewrite sendToClient_open by congruence. simpl.
      rewrite filter_union_L by apply _.
      rewrite filter_singleton_True_L by (done || apply _).
      rewrite size_union
        by (apply disjoint_singleton_l; rewrite elem_of_filter; tauto).
      rewrite size_singleton. rewrite Hn.
      repeat split; try done.
      intros c. rewrite lookup_alter. case_decide as Hcx.
      * subst c. rewrite Hs. rewrite decide_False by (intros [? _]; done).
        rewrite decide_True; [done|]. split; [set_solver|done].
      * rewrite Hs. apply decide_ext. rewrite elem_of_union, elem_of_singleton.
        split; intros [Hin Hop]; (split; [|done]); [by right|].
        by destruct Hin as [->|Hin].
    + rewrite sendToClient_not_open by congruence. simpl.
      rewrite filter_union_L by apply _.
      rewrite filter_singleton_False_L by (congruence || apply _).
      rewrite union_empty_l_L. repeat split; try done.
      intros c. rewrite Hs. apply decide_ext.
      split; intros [Hin Hop]; (split; [|done]); [set_solver|].
      apply elem_of_union in Hin as [Hin|Hin]; [|done].
      apply elem_of_singleton in Hin. subst. congruence.
Qed.

(** C1.  [sendToSession] writes the event, once and as it is, to every live
    (open) connection of the session and to no other socket, and returns
    the number of those connections: an event that is a string is written
    as that very string, an event that is an object as the text
    [JSON.stringify] gives of it; it logs no error, and for a session the
    registry does not hold it returns 0 and changes nothing. *)
Theorem sendToSession_delivers (w : World) (sid : string) (data : Data) :
  let live := live_connections w sid in
  let r := sendToSession w sid data in
  let frame := match data with
               | DString e => e
               | DObject e => JSON_stringify e
               end in
  r.2 = size live ∧
  (∀ c, c ∈ live → sockets r.1 !! c = push frame <$> sockets w !! c) ∧
  (∀ c, c ∉ live → sockets r.1 !! c = sockets w !! c) ∧
  clients r.1 = clients w ∧ sessions r.1 = sessions w ∧
  emitted r.1 = emitted w ∧ console r.1 = console w ∧
  (sessions w !! sid = None → r = (w, 0%nat)).
Proof.
  unfold live_connections, sendToSession.
  destruct (sessions w !! sid) as [X|] eqn:HX; simpl.
  - pose proof (send_loop w data X) as (Hn & Hs & Hc & Hse & He & Hl).
    simpl in *.
    repeat split; try done.
    + intros c [Hop Hin]%elem_of_filter. rewrite Hs. by rewrite decide_True.
    + intros c Hc'. rewrite Hs. rewrite decide_False; [done|].
      intros [Hin Hop]. apply Hc'. by apply elem_of_filter.
  - rewrite filter_empty_L by apply _. rewrite size_empty.
    repeat split; done.
Qed.

(** *** Steps that only write frames *)

Lemma grow_nil s : grow [] s = s.
Proof. destruct s. unfold grow. simpl. by rewrite app_nil_r. Qed.

Lemma grow_grow l1 l2 s : grow l2 (grow l1 s) = grow (l1 ++ l2) s.
Proof. unfold grow. simpl. by rewrite app_assoc. Qed.

Lemma push_grow m s : push m s = grow [m] s.
Proof. done. Qed.

Lemma quiet_refl w : quiet w w.
Proof.
  repeat split. intros c. exists []. destruct (sockets w !! c); simpl; [|done].
  by rewrite grow_nil.
Qed.

Lemma quiet_trans w1 w2 w3 : quiet w1 w2 → quiet w2 w3 → quiet w1 w3.
Proof.
  intros (Hc1 & Hs1 & Hk1) (Hc2 & Hs2 & Hk2). repeat split; try congruence.
  intros c. destruct (Hk1 c) as [l1 H1]. destruct (Hk2 c) as [l2 H2].
  exists (l1 ++ l2). rewrite H2, H1. destruct (sockets w1 !! c); simpl; [|done].
  by rewrite grow_grow.
Qed.

Lemma quiet_same w w' :
  clients w' = clients w → sessions w' = sessions w → sockets w' = sockets w →
  quiet w w'.
Proof.
  intros Hc Hs Hk. repeat split; try done. intros c. exists []. rewrite Hk.
  destruct (sockets w !! c); simpl; [|done]. by rewrite grow_nil.
Qed.

Lemma sendToClient_quiet w c data : quiet w (sendToClient w c data).1.
Proof.
  destruct (is_open w c) eqn:Ho.
  - rewrite sendToClient_open by done. simpl. repeat split.
    intros c'. simpl. rewrite lookup_alter. case_decide; subst.
    + exists [serialize data]. by destruct (sockets w !! c').
    + exists []. destruct (sockets w !! c'); simpl; [|done]. by rewrite grow_nil.
  - rewrite sendToClient_not_open by done. apply quiet_refl.
Qed.

Lemma sendError_quiet w c message : quiet w (sendError w c message).
Proof. apply sendToClient_quiet. Qed.

Lemma json_message_body_quiet w c clientInfo message w' :
  json_message_body w c clientInfo message = Some w' → quiet w w'.
Proof.
  unfold json_message_body. intros Hb.
  repeat case_match; simplify_eq;
    try apply sendToClient_quiet; try apply quiet_refl; by apply quiet_same.
Qed.

Lemma json_message_handler_quiet w c clientInfo message :
  quiet w (json_message_handler w c clientInfo message).
Proof.
  unfold json_message_handler.
  destruct (json_message_body w c clientInfo message) as [w'|] eqn:Hb.
  - by eapply json_message_body_quiet.
  - eapply quiet_trans; [|apply sendError_quiet]. by apply quiet_same.
Qed.

Lemma text_message_handler_quiet w c clientInfo data :
  quiet w (text_message_handler w c clientInfo data).
Proof.
  unfold text_message_handler.
  eapply quiet_trans; [|apply sendToClient_quiet]. by apply quiet_same.
Qed.

Lemma binary_message_start_quiet w c data : quiet w (binary_message_start w c data).
Proof.
  unfold binary_message_start.
  destruct (Text.split "," data !! 1%nat) as [encoded|]; [|apply sendError_quiet].
  destruct (String.eqb encoded ""); [apply sendError_quiet|apply quiet_refl].
Qed.

Lemma emit_quiet e w : quiet w (emit e w).
Proof.
  unfold emit. eapply quiet_trans; [by apply (quiet_same w (record_emit e w))|].
  destruct e; simpl; try apply quiet_refl.
  - apply json_message_handler_quiet.
  - apply text_message_handler_quiet.
  - apply binary_message_start_quiet.
Qed.

Lemma handleMessage_quiet w c data : quiet w (handleMessage w c data).
Proof.
  unfold handleMessage. repeat case_match; try apply emit_quiet. apply quiet_refl.
Qed.

Lemma send_step_quiet data c (acc : World * nat) : quiet acc.1 (send_step data c acc).1.
Proof.
  unfold send_step. pose proof (sendToClient_quiet acc.1 c data) as Hq.
  by destruct (sendToClient acc.1 c data).
Qed.

Lemma sendToSession_quiet w sid data : quiet w (sendToSession w sid data).1.
Proof.
  unfold sendToSession. destruct (sessions w !! sid) as [X|]; [|apply quiet_refl].
  revert X. pose (P := λ (r : World * nat) (_ : gset ws), quiet w r.1).
  apply (set_fold_ind_L P); unfold P; clear P; try (by apply _).
  - apply quiet_refl.
  - intros x Y r _ Hr. eapply quiet_trans; [exact Hr|apply send_step_quiet].
Qed.

Lemma broadcast_quiet w data excludeWs : quiet w (broadcast w data excludeWs).1.
Proof.
  unfold broadcast. generalize (clients w). intros m.
  pose (P := λ (r : World * nat) (_ : gmap ws ClientInfo), quiet w r.1).
  apply (map_fold_weak_ind P); unfold P; clear P.
  - apply quiet_refl.
  - intros i x m' r _ Hr. case_bool_decide; [|done].
    eapply quiet_trans; [exact Hr|apply send_step_quiet].
Qed.

(** *** What each handler does to the registry *)

Lemma quiet_dom w w' : quiet w w' → dom (sockets w') = dom (sockets w).
Proof.
  intros (_ & _ & Hk). apply set_eq. intros c. rewrite !elem_of_dom.
  destruct (Hk c) as [l ->]. by rewrite fmap_is_Some.
Qed.

Lemma handlePong_lookup w c c' :
  clients (handlePong w c) !! c' =
  if decide (c = c') then with_isAlive true <$> clients w !! c' else clients w !! c'.
Proof. unfold handlePong. simpl. rewrite lookup_alter. by case_decide; subst. Qed.

Lemma with_isAlive_id clientInfo :
  with_isAlive (isAlive clientInfo) clientInfo = clientInfo.
Proof. by destruct clientInfo. Qed.

Lemma heartbeat_tick_spec w :
  let w' := heartbeat_tick w in
  sessions w' = sessions w ∧ emitted w' = emitted w ∧
  (∀ c, clients w' !! c = with_isAlive false <$> clients w !! c) ∧
  (∀ c, sockets w' !! c =
        match clients w !! c with
        | Some clientInfo =>
            (if isAlive clientInfo then ws_ping else ws_terminate) <$> sockets w !! c
        | None => sockets w !! c
        end).
Proof.
  unfold heartbeat_tick.
  pose (P := λ (r : World) (m : gmap ws ClientInfo),
    m ⊆ clients w →
    sessions r = sessions w ∧ emitted r = emitted w ∧
    (∀ c, clients r !! c =
          match m !! c with
          | Some clientInfo => Some (with_isAlive false clientInfo)
          | None => clients w !! c
          end) ∧
    (∀ c, sockets r !! c =
          match m !! c with
          | Some clientInfo =>
              (if isAlive clientInfo then ws_ping else ws_terminate) <$> sockets w !! c
          | None => sockets w !! c
          end)).
  assert (P (map_fold heartbeat_visit w (clients w)) (clients w)) as HP.
  { apply (map_fold_weak_ind P); unfold P; clear P.
    - intros _. repeat split; done.
    - intros i x m r Hi IH Hsub.
      assert (clients w !! i = Some x) as Hwi.
      { eapply lookup_weaken; [|exact Hsub]. by rewrite lookup_insert_eq. }
      destruct IH as (Hs & He & Hc & Hk).
      { etrans; [|exact Hsub]. by apply insert_subseteq. }
      unfold heartbeat_visit.
      destruct (isAlive x) eqn:Hx; simpl; repeat split; try done.
      + intros c. rewrite lookup_alter, lookup_insert. case_decide; subst.
        * by rewrite Hc, Hi, Hwi.
        * apply Hc.
      + intros c. rewrite lookup_alter, lookup_insert. case_decide; subst.
        * by rewrite Hk, Hi, Hx.
        * apply Hk.
      + intros c. rewrite Hc, lookup_insert. case_decide; subst; [|done].
        rewrite Hi, Hwi. f_equal. rewrite <-Hx. by rewrite with_isAlive_id.
      + intros c. rewrite lookup_alter, lookup_insert. case_decide; subst.
        * by rewrite Hk, Hi, Hx.
        * apply Hk. }
  destruct HP as (Hs & He & Hc & Hk); [done|]. repeat split; try done.
  intros c. rewrite Hc. by destruct (clients w !! c).
Qed.

Lemma handleConnection_spec w c request uuid :
  let w' := handleConnection w c request uuid in
  let ack := DObject (JObj [("type", JStr "connection"); ("sessionId", JStr uuid);
                            ("message", JStr "Connected successfully")]) in
  clients w' = <[c := mkClientInfo uuid (clock w) (remoteAddress request) true []]> (clients w) ∧
  sessions w' = <[uuid := {[c]} ∪ default ∅ (sessions w !! uuid)]> (sessions w) ∧
  emitted w' = emitted w ∧
  (∀ c', sockets w' !! c' =
         if decide (c' = c ∧ is_open w c = true)
         then push (serialize ack) <$> sockets w !! c'
         else sockets w !! c').
Proof.
  unfold handleConnection. simpl.
  match goal with |- context [sendToClient ?w0 c ?d] =>
    pose proof (sendToClient_frame w0 c d) as (Hc & Hs & He & _ & _ & _ & _ & Hk);
    pose proof (sendToClient_open w0 c d) as Ho;
    pose proof (sendToClient_not_open w0 c d) as Hn
  end.
  rewrite Hc, Hs, He. clear Hc Hs He.
  destruct (sessions w !! uuid) as [X|] eqn:HX; simpl in *; repeat split.
  - apply map_eq. intros sid.
    rewrite lookup_alter, lookup_insert. case_decide; subst; [|done]. by rewrite HX.
  - intros c'. destruct (decide (c' = c)) as [->|Hne].
    + destruct (is_open w c) eqn:Hop.
      * rewrite Ho by done. simpl. rewrite lookup_alter, decide_True by done.
        by rewrite decide_True.
      * rewrite Hn by done. simpl. rewrite decide_False; [done|]. by intros [_ ?].
    + rewrite Hk by done. simpl. rewrite decide_False; [done|]. by intros [? _].
  - apply map_eq. intros sid.
    rewrite lookup_alter, !lookup_insert. case_decide; subst; [|done].
    by rewrite decide_True.
  - intros c'. destruct (decide (c' = c)) as [->|Hne].
    + destruct (is_open w c) eqn:Hop.
      * rewrite Ho by done. simpl. rewrite lookup_alter, decide_True by done.
        by rewrite decide_True.
      * rewrite Hn by done. simpl. rewrite decide_False; [done|]. by intros [_ ?].
    + rewrite Hk by done. simpl. rewrite decide_False; [done|]. by intros [? _].
Qed.

Lemma handleClose_unknown w c code reason :
  clients w !! c = None → handleClose w c code reason = w.
Proof. unfold handleClose. by intros ->. Qed.

Lemma handleClose_spec w c code reason clientInfo :
  clients w !! c = Some clientInfo →
  let w' := handleClose w c code reason in
  let sid := sessionId clientInfo in
  clients w' = delete c (clients w) ∧ sockets w' = sockets w ∧
  match sessions w !! sid with
  | Some sessionClients =>
      if decide (sessionClients ∖ {[c]} = ∅)
      then sessions w' = delete sid (sessions w) ∧
           emitted w' = emitted w ++
                        [session_ended sid; client_disconnected sid clientInfo code reason]
      else sessions w' = <[sid := sessionClients ∖ {[c]}]> (sessions w) ∧
           emitted w' = emitted w ++ [client_disconnected sid clientInfo code reason]
  | None => sessions w' = sessions w ∧
            emitted w' = emitted w ++ [client_disconnected sid clientInfo code reason]
  end.
Proof.
  intros Hc. unfold handleClose. rewrite Hc. simpl.
  destruct (sessions w !! sessionId clientInfo) as [X|] eqn:HX; [|done].
  case_decide as He.
  - rewrite He, size_empty. simpl. repeat split; try done.
    + by rewrite delete_insert_eq.
    + by rewrite <-app_assoc.
  - destruct (size (X ∖ {[c]}) =? 0)%nat eqn:Hsz.
    + apply Nat.eqb_eq in Hsz. apply size_empty_iff in Hsz.
      exfalso. apply He. by apply leibniz_equiv.
    + simpl. repeat split; done.
Qed.

(** *** The registry invariant *)

Lemma consistent_ext w w' :
  sessions w' = sessions w →
  (∀ c, sessionId <$> clients w' !! c = sessionId <$> clients w !! c) →
  consistent w → consistent w'.
Proof.
  intros Hs Hc (H1 & H2 & H3). split; [|split].
  - intros c ci' Hci. pose proof (Hc c) as Hcc. rewrite Hci in Hcc. simpl in Hcc.
    destruct (clients w !! c) as [ci|] eqn:Hw; [|done]. simpl in Hcc.
    injection Hcc as Hcc. rewrite Hs, Hcc. by apply H1.
  - intros sid X c HX Hin. rewrite Hs in HX.
    destruct (H2 sid X c HX Hin) as (ci & Hci & Hsid).
    pose proof (Hc c) as Hcc. rewrite Hci in Hcc. simpl in Hcc.
    destruct (clients w' !! c) as [ci'|]; [|done]. simpl in Hcc.
    injection Hcc as Hcc. exists ci'. split; [done|congruence].
  - intros sid X HX. rewrite Hs in HX. by eapply H3.
Qed.

Lemma quiet_consistent w w' : quiet w w' → consistent w → consistent w'.
Proof. intros (Hc & Hs & _). apply consistent_ext; [done|]. intros c. by rewrite Hc. Qed.

Lemma quiet_allocated w w' : quiet w w' → allocated w → allocated w'.
Proof.
  intros Hq Ha. unfold allocated. rewrite (quiet_dom _ _ Hq).
  destruct Hq as (-> & _). exact Ha.
Qed.

Lemma handleConnection_consistent w c request uuid :
  clients w !! c = None → consistent w →
  consistent (handleConnection w c request uuid).
Proof.
  intros Hfresh (H1 & H2 & H3).
  pose proof (handleConnection_spec w c request uuid) as (Hc & Hs & _ & _).
  simpl in *. split; [|split].
  - intros c' ci'. rewrite Hc, Hs, lookup_insert. case_decide as Hcc.
    + subst c'. intros [= <-]. simpl. rewrite lookup_insert_eq.
      eexists. split; [done|]. apply elem_of_union_l. by apply elem_of_singleton.
    + intros Hci. destruct (H1 c' ci' Hci) as (X & HX & Hin).
      rewrite lookup_insert. case_decide as Hu.
      * rewrite Hu, HX. simpl. eexists. split; [done|]. by apply elem_of_union_r.
      * by exists X.
  - intros sid X c'. rewrite Hc, Hs, lookup_insert. case_decide as Hu.
    + subst sid. intros [= <-] [Hin|Hin]%elem_of_union.
      * apply elem_of_singleton in Hin. subst c'. rewrite lookup_insert_eq. by eexists.
      * destruct (sessions w !! uuid) as [X0|] eqn:HX0; simpl in Hin;
          [|by apply not_elem_of_empty in Hin].
        destruct (H2 uuid X0 c' HX0 Hin) as (ci' & Hci & Hsid).
        rewrite lookup_insert_ne by congruence. by exists ci'.
    + intros HX Hin. destruct (H2 sid X c' HX Hin) as (ci' & Hci & Hsid).
      rewrite lookup_insert_ne by congruence. by exists ci'.
  - intros sid X. rewrite Hs, lookup_insert. case_decide as Hu.
    + intros [= <-] He. apply (not_elem_of_empty (C:=gset ws) c). rewrite <-He.
      apply elem_of_union_l. by apply elem_of_singleton.
    + apply H3.
Qed.

Lemma handleClose_consistent w c code reason :
  consistent w → consistent (handleClose w c code reason).
Proof.
  intros Hcons. destruct (clients w !! c) as [ci|] eqn:Hci;
    [|by rewrite handleClose_unknown].
  pose proof (handleClose_spec w c code reason ci Hci) as (Hc & _ & Hs).
  destruct Hcons as (H1 & H2 & H3). simpl in *.
  destruct (H1 c ci Hci) as (X & HX & HcX). rewrite HX in Hs.
  assert (∀ c' ci', c' ≠ c → clients w !! c' = Some ci' →
            sessionId ci' = sessionId ci → c' ∈ X ∖ {[c]}) as Hother.
  { intros c' ci' Hne Hci' Hsid. destruct (H1 c' ci' Hci') as (X' & HX' & Hin).
    rewrite Hsid, HX in HX'. injection HX' as <-.
    apply elem_of_difference. split; [done|]. by rewrite elem_of_singleton. }
  split; [|split].
  - intros c' ci'. rewrite Hc, lookup_delete. intros Hci'.
    case_decide as Hcc; [done|]. destruct (H1 c' ci' Hci') as (X' & HX' & Hin).
    destruct (decide (sessionId ci' = sessionId ci)) as [Heq|Hne].
    + pose proof (Hother c' ci' (not_eq_sym Hcc) Hci' Heq) as Hin'.
      case_decide as Hemp; destruct Hs as [Hs _].
      * rewrite Hemp in Hin'. by apply not_elem_of_empty in Hin'.
      * rewrite Hs, Heq, lookup_insert_eq. by eexists.
    + case_decide as Hemp; destruct Hs as [Hs _]; rewrite Hs.
      * rewrite lookup_delete_ne by done. by exists X'.
      * rewrite lookup_insert_ne by done. by exists X'.
  - intros sid X' c' HX' Hin.
    assert (∃ X0, sessions w !! sid = Some X0 ∧ c' ∈ X0 ∧
                  (sid = sessionId ci → c' ≠ c)) as (X0 & HX0 & Hin0 & Hnc).
    { case_decide as Hemp; destruct Hs as [Hs _]; rewrite Hs in HX'.
      - rewrite lookup_delete in HX'. case_decide; [done|]. by exists X'.
      - rewrite lookup_insert in HX'. case_decide as Hsid.
        + injection HX' as <-. apply elem_of_difference in Hin as [Hin Hn].
          rewrite elem_of_singleton in Hn. subst sid. by exists X.
        + by exists X'. }
    destruct (H2 sid X0 c' HX0 Hin0) as (ci' & Hci' & Hsid).
    exists ci'. split; [|done]. rewrite Hc, lookup_delete_ne; [done|].
    intros <-. rewrite Hci in Hci'. injection Hci' as <-. by apply Hnc.
  - intros sid X'. case_decide as Hemp; destruct Hs as [Hs _]; rewrite Hs.
    + rewrite lookup_delete. case_decide; [done|]. apply H3.
    + rewrite lookup_insert. case_decide; [|apply H3]. by intros [= <-].
Qed.

Lemma handle_invariant w ev :
  allocated w → consistent w →
  allocated (handle w ev) ∧ consistent (handle w ev).
Proof.
  intros Ha Hc. destruct ev as [request uuid|c data|c|c code reason| |sid data|data ex|c data|t st];
    simpl.
  - set (c := fresh (dom (sockets w))).
    set (w0 := set_sockets <[c:=new_socket]> w).
    assert (clients w !! c = None) as Hfresh.
    { apply not_elem_of_dom. intros Hin. apply (is_fresh (dom (sockets w))). by apply Ha. }
    pose proof (handleConnection_spec w0 c request uuid) as (Hcl & _ & _ & Hk).
    split.
    + unfold allocated. simpl in *. rewrite Hcl, dom_insert.
      intros c' Hin. apply elem_of_dom. rewrite Hk.
      assert (is_Some (sockets w0 !! c')) as Hsome.
      { unfold w0. simpl. rewrite lookup_insert.
        destruct (decide (c = c')) as [|Hne]; [by eexists|].
        apply elem_of_dom. apply Ha.
        apply elem_of_union in Hin as [Hin|Hin]; [|done].
        by apply elem_of_singleton in Hin. }
      unfold w0 in *. simpl in *.
      destruct (decide (c' = c ∧ _)); [by apply fmap_is_Some|done].
    + apply handleConnection_consistent; [done|].
      by apply (consistent_ext w).
  - pose proof (handleMessage_quiet w c (Binary data)) as Hq.
    split; [by eapply quiet_allocated|by eapply quiet_consistent].
  - split.
    + unfold allocated, handlePong. simpl. intros c' Hin. apply Ha.
      apply elem_of_dom. apply elem_of_dom in Hin. rewrite lookup_alter in Hin.
      destruct (decide (c = c')) as [->|]; [by apply fmap_is_Some in Hin|done].
    + apply (consistent_ext w); [done| |done]. intros c'. rewrite handlePong_lookup.
      case_decide; [|done]. by destruct (clients w !! c').
  - set (w0 := set_sockets (alter ws_closed c) w).
    assert (allocated w0) as Ha0.
    { unfold allocated, w0. simpl. intros c' Hin. apply elem_of_dom.
      rewrite lookup_alter. apply Ha, elem_of_dom in Hin.
      destruct (decide (c = c')) as [->|]; [by apply fmap_is_Some|done]. }
    split; [|apply handleClose_consistent; by apply (consistent_ext w)].
    destruct (clients w0 !! c) as [ci|] eqn:Hci; [|by rewrite handleClose_unknown].
    pose proof (handleClose_spec w0 c code reason ci Hci) as (Hcl & Hk & _).
    unfold allocated. simpl in *. rewrite Hcl, Hk, dom_delete.
    intros c' [Hin _]%elem_of_difference. by apply Ha0.
  - pose proof (heartbeat_tick_spec w) as (Hs & _ & Hcl & Hk). simpl in *. split.
    + intros c' Hin. apply elem_of_dom. apply elem_of_dom in Hin.
      rewrite Hcl in Hin. apply fmap_is_Some in Hin. rewrite Hk.
      assert (is_Some (sockets w !! c')) by (by apply elem_of_dom, Ha, elem_of_dom).
      destruct (clients w !! c'); [|done]. by apply fmap_is_Some.
    + apply (consistent_ext w); [done| |done]. intros c'. rewrite Hcl.
      by destruct (clients w !! c').
  - pose proof (sendToSession_quiet w sid data) as Hq.
    split; [by eapply quiet_allocated|by eapply quiet_consistent].
  - pose proof (broadcast_quiet w data ex) as Hq.
    split; [by eapply quiet_allocated|by eapply quiet_consistent].
  - pose proof (sendToClient_quiet w c data) as Hq.
    split; [by eapply quiet_allocated|by eapply quiet_consistent].
  - split; [done|]. by apply (consistent_ext w).
Qed.

Lemma run_invariant evs w :
  allocated w → consistent w → allocated (run w evs) ∧ consistent (run w evs).
Proof.
  revert w. induction evs as [|ev evs IH]; intros w Ha Hc; [done|].
  simpl. destruct (handle_invariant w ev Ha Hc). by apply IH.
Qed.

Lemma init_invariant : allocated init ∧ consistent init.
Proof.
  split; [done|]. split; [|split]; simpl.
  - intros c ci Hc. by rewrite lookup_empty in Hc.
  - intros sid X c HX. by rewrite lookup_empty in HX.
  - intros sid X HX. by rewrite lookup_empty in HX.
Qed.

(** C10.  In every state the service reaches from its construction, whatever
    connections, messages, replies, closes, timer firings and deliveries
    happened, the two maps agree: a registered socket is in the set of its
    recorded session, a member of a session's set is registered under that
    session, and no stored set is empty. *)
Theorem registry_consistent (evs : list Event) : consistent (run init evs).
Proof. destruct init_invariant as [Ha Hc]. by apply run_invariant. Qed.

(** C9.  When the two maps agree, a close leaves no session with an empty
    set in the registry; closing the last connection of a session removes
    the session's entry and emits one [session_ended] event for it (followed
    by the [client_disconnected] event), and closing any other connection
    keeps the entry and emits no [session_ended] event. *)
Theorem handleClose_ends_session (w : World) (c : ws) (code : Z) (reason : string) :
  consistent w →
  let w' := handleClose w c code reason in
  (∀ sid sessionClients, sessions w' !! sid = Some sessionClients → sessionClients ≠ ∅) ∧
  (∀ clientInfo, clients w !! c = Some clientInfo →
     let sid := sessionId clientInfo in
     ∃ sessionClients, sessions w !! sid = Some sessionClients ∧
       if decide (sessionClients = {[c]})
       then sessions w' !! sid = None ∧
            emitted w' = emitted w ++
              [session_ended sid; client_disconnected sid clientInfo code reason]
       else sessions w' !! sid = Some (sessionClients ∖ {[c]}) ∧
            emitted w' = emitted w ++ [client_disconnected sid clientInfo code reason]).
Proof.
  intros Hcons. simpl. split.
  - by destruct (handleClose_consistent w c code reason Hcons) as (_ & _ & H3).
  - intros ci Hci. destruct Hcons as (H1 & _ & _).
    destruct (H1 c ci Hci) as (X & HX & Hin). exists X. split; [done|].
    pose proof (handleClose_spec w c code reason ci Hci) as (_ & _ & Hs).
    simpl in Hs. rewrite HX in Hs.
    destruct (decide (X = {[c]})) as [->|Hne].
    + rewrite decide_True in Hs by (apply set_eq; intros x;
        rewrite elem_of_difference, elem_of_singleton, elem_of_empty; tauto).
      destruct Hs as [-> ->]. by rewrite lookup_delete_eq.
    + rewrite decide_False in Hs.
      * destruct Hs as [-> ->]. by rewrite lookup_insert_eq.
      * intros He. apply Hne. apply set_eq. intros x. rewrite elem_of_singleton.
        split; [|by intros ->].
        intros Hx. destruct (decide (x = c)) as [|Hxc]; [done|].
        exfalso. apply (not_elem_of_empty (C:=gset ws) x). rewrite <-He.
        apply elem_of_difference. by rewrite elem_of_singleton.
Qed.

(** C6 (amended).  On a connection event the manager registers the new
    socket under the identifier [uuidv4()] has just generated, puts it in
    that session's set, and writes to it the [connection] event carrying
    that identifier; nothing the client sent with the request enters the
    choice of the identifier. *)
Theorem connection_registers (w : World) (addr : string) (q q' : list (string * string))
    (uuid : string) :
  let c := fresh (dom (sockets w)) in
  let w' := handle w (Connection (mkRequest addr q) uuid) in
  clients w' !! c = Some (mkClientInfo uuid (clock w) addr true []) ∧
  (∃ sessionClients, sessions w' !! uuid = Some sessionClients ∧ c ∈ sessionClients) ∧
  sockets w' !! c =
    Some (mkSocket OPEN
            [JSON_stringify (JObj [("type", JStr "connection"); ("sessionId", JStr uuid);
                                   ("message", JStr "Connected successfully")])] 0 0) ∧
  handle w (Connection (mkRequest addr q') uuid) = w'.
Proof.
  simpl. set (c := fresh (dom (sockets w))).
  set (w0 := set_sockets <[c:=new_socket]> w).
  pose proof (handleConnection_spec w0 c (mkRequest addr q) uuid) as (Hc & Hs & _ & Hk).
  simpl in *. repeat split.
  - by rewrite Hc, lookup_insert_eq.
  - rewrite Hs, lookup_insert_eq. eexists. split; [done|].
    apply elem_of_union_l. by apply elem_of_singleton.
  - rewrite Hk. rewrite decide_True.
    + by rewrite lookup_insert_eq.
    + split; [done|]. unfold is_open, w0. simpl. by rewrite lookup_insert_eq.
Qed.

(** *** The heartbeat *)

Lemma quiet_interval w w' c clientInfo s :
  quiet w w' → clients w !! c = Some clientInfo → sockets w !! c = Some s →
  clients w' !! c = Some clientInfo ∧ ∃ messages, sockets w' !! c = Some (grow messages s).
Proof.
  intros (Hc & _ & Hk) Hci Hs. split; [by rewrite Hc|].
  destruct (Hk c) as [l Hl]. exists l. by rewrite Hl, Hs.
Qed.

(** Between two firings, an event other than the socket's own close leaves
    the socket registered, sets its liveness flag only by its pong, and
    does nothing to the socket but write frames. *)
Lemma interval_step w c ev clientInfo s :
  within_interval c ev = true →
  clients w !! c = Some clientInfo → sockets w !! c = Some s →
  clients (handle w ev) !! c =
    Some (with_isAlive (is_pong c ev || isAlive clientInfo) clientInfo) ∧
  ∃ messages, sockets (handle w ev) !! c = Some (grow messages s).
Proof.
  intros Hev Hci Hs.
  assert (∀ w', quiet w w' →
    clients w' !! c = Some (with_isAlive (false || isAlive clientInfo) clientInfo) ∧
    ∃ messages, sockets w' !! c = Some (grow messages s)) as Hquiet.
  { intros w' Hq. simpl. rewrite with_isAlive_id. by eapply quiet_interval. }
  destruct ev as [request uuid|c' data|c'|c' code reason| |sid data|data ex|c' data|t st];
    simpl in *; try discriminate Hev.
  - set (c0 := fresh (dom (sockets w))).
    assert (c ≠ c0) as Hne.
    { intros ->. apply (is_fresh (dom (sockets w))). apply elem_of_dom. by eexists. }
    pose proof (handleConnection_spec (set_sockets <[c0:=new_socket]> w) c0 request uuid)
      as (Hc & _ & _ & Hk).
    simpl in *. rewrite Hc, Hk, with_isAlive_id. split.
    + by rewrite lookup_insert_ne.
    + exists []. rewrite decide_False by (by intros [? _]).
      rewrite lookup_insert_ne by done. by rewrite Hs, grow_nil.
  - apply Hquiet, handleMessage_quiet.
  - split.
    + destruct (decide (c' = c)) as [->|Hne].
      * by rewrite lookup_alter_eq, Pos.eqb_refl, Hci.
      * rewrite lookup_alter_ne by done. apply Pos.eqb_neq in Hne.
        rewrite Hne. simpl. by rewrite with_isAlive_id.
    + exists []. by rewrite grow_nil.
  - apply negb_true_iff, Pos.eqb_neq in Hev. rewrite with_isAlive_id.
    set (w0 := set_sockets (alter ws_closed c') w).
    assert (sockets w0 !! c = Some s) as Hs0.
    { unfold w0. simpl. by rewrite lookup_alter_ne. }
    destruct (clients w0 !! c') as [ci'|] eqn:Hci'.
    + pose proof (handleClose_spec w0 c' code reason ci' Hci') as (Hc & Hk & _).
      simpl in *. rewrite Hc, Hk. split; [by rewrite lookup_delete_ne|].
      exists []. by rewrite Hs0, grow_nil.
    + rewrite handleClose_unknown by done. split; [done|].
      exists []. by rewrite Hs0, grow_nil.
  - apply Hquiet, sendToSession_quiet.
  - apply Hquiet, broadcast_quiet.
  - apply Hquiet, sendToClient_quiet.
  - apply Hquiet. by apply quiet_same.
Qed.

Lemma run_app w evs1 evs2 : run w (evs1 ++ evs2) = run (run w evs1) evs2.
Proof. apply foldl_app. Qed.

Lemma interval_run evs w c clientInfo s :
  forallb (within_interval c) evs = true →
  clients w !! c = Some clientInfo → sockets w !! c = Some s →
  clients (run w evs) !! c =
    Some (with_isAlive (existsb (is_pong c) evs || isAlive clientInfo) clientInfo) ∧
  ∃ messages, sockets (run w evs) !! c = Some (grow messages s).
Proof.
  revert w clientInfo s. induction evs as [|ev evs IH]; intros w ci s Hall Hci Hs.
  - simpl. rewrite with_isAlive_id. split; [done|]. exists []. by rewrite grow_nil.
  - simpl in Hall. apply andb_true_iff in Hall as [Hev Hall].
    destruct (interval_step w c ev ci s Hev Hci Hs) as (Hci1 & l1 & Hs1).
    destruct (IH _ _ _ Hall Hci1 Hs1) as (Hci2 & l2 & Hs2).
    simpl. split.
    + rewrite Hci2. simpl. f_equal. unfold with_isAlive. simpl.
      by rewrite orb_assoc, (orb_comm (existsb _ _)).
    + exists (l1 ++ l2). by rewrite Hs2, grow_grow.
Qed.

Lemma heartbeat_tick_alive w c clientInfo s :
  clients w !! c = Some clientInfo → isAlive clientInfo = true → sockets w !! c = Some s →
  clients (heartbeat_tick w) !! c = Some (with_isAlive false clientInfo) ∧
  sockets (heartbeat_tick w) !! c = Some (ws_ping s).
Proof.
  intros Hci Ha Hs. pose proof (heartbeat_tick_spec w) as (_ & _ & Hc & Hk).
  simpl in *. by rewrite Hc, Hk, Hci, Ha, Hs.
Qed.

Lemma heartbeat_tick_dead w c clientInfo s :
  clients w !! c = Some clientInfo → isAlive clientInfo = false → sockets w !! c = Some s →
  clients (heartbeat_tick w) !! c = Some clientInfo ∧
  sockets (heartbeat_tick w) !! c = Some (ws_terminate s).
Proof.
  intros Hci Ha Hs. pose proof (heartbeat_tick_spec w) as (_ & _ & Hc & Hk).
  simpl in *. rewrite Hc, Hk, Hci, Ha, Hs. simpl. split; [|done].
  by rewrite <-Ha, with_isAlive_id.
Qed.

Lemma grow_terminate_calls l s : terminate_calls (grow l s) = terminate_calls s.
Proof. done. Qed.

Lemma ws_ping_terminate_calls s : terminate_calls (ws_ping s) = terminate_calls s.
Proof. unfold ws_ping. by destruct (readyState s). Qed.

Lemma ws_terminate_terminate_calls s :
  terminate_calls (ws_terminate s) = S (terminate_calls s).
Proof. unfold ws_terminate. by destruct (readyState s). Qed.

(** A round: a firing of the timer, then an interval in which the socket
    answers.  However many such rounds pass, the socket is not terminated
    and its flag is set again at the end of each. *)
Lemma answered_rounds rounds w c clientInfo s :
  forallb (λ r, forallb (within_interval c) r && existsb (is_pong c) r) rounds = true →
  clients w !! c = Some clientInfo → isAlive clientInfo = true → sockets w !! c = Some s →
  ∃ s', sockets (run w (flat_map (λ r, HeartbeatTick :: r) rounds)) !! c = Some s' ∧
        terminate_calls s' = terminate_calls s.
Proof.
  revert w clientInfo s. induction rounds as [|r rounds IH]; intros w ci s Hall Hci Ha Hs.
  - by exists s.
  - simpl in Hall. apply andb_true_iff in Hall as [Hr Hall].
    apply andb_true_iff in Hr as [Hint Hpong].
    destruct (heartbeat_tick_alive w c ci s Hci Ha Hs) as [Hci1 Hs1].
    destruct (interval_run r (heartbeat_tick w) c _ _ Hint Hci1 Hs1) as (Hci2 & l & Hs2).
    rewrite Hpong in Hci2. simpl in Hci2.
    change (flat_map (λ r, HeartbeatTick :: r) (r :: rounds))
      with ((HeartbeatTick :: r) ++ flat_map (λ r, HeartbeatTick :: r) rounds).
    rewrite run_app. simpl.
    destruct (IH _ _ _ Hall Hci2 eq_refl Hs2) as (s' & Hs' & Ht).
    exists s'. split; [done|]. rewrite Ht. simpl. apply ws_ping_terminate_calls.
Qed.

(** C3.  A registered connection whose flag is set is probed, not
    terminated, by a firing of the heartbeat timer.  During the interval
    that follows nothing terminates it.  At the next firing it is
    terminated if no pong of it arrived in the interval, and is left alive
    and probed again if one did; a connection that answers in every
    interval is not terminated however many rounds pass. *)
Theorem heartbeat_protocol (w : World) (c : ws) (clientInfo : ClientInfo) (s : Socket)
    (evs : list Event) (rounds : list (list Event)) :
  clients w !! c = Some clientInfo → isAlive clientInfo = true →
  sockets w !! c = Some s →
  forallb (within_interval c) evs = true →
  forallb (λ r, forallb (within_interval c) r && existsb (is_pong c) r) rounds = true →
  let w1 := handle w HeartbeatTick in
  let w2 := run w1 evs in
  let w3 := handle w2 HeartbeatTick in
  (sockets w1 !! c = Some (ws_ping s) ∧ isAlive <$> clients w1 !! c = Some false) ∧
  terminate_calls <$> sockets w2 !! c = Some (terminate_calls s) ∧
  (terminate_calls <$> sockets w3 !! c =
     Some (if existsb (is_pong c) evs then terminate_calls s else S (terminate_calls s)) ∧
   isAlive <$> clients w3 !! c = Some false) ∧
  terminate_calls <$> sockets (run w (flat_map (λ r, HeartbeatTick :: r) rounds)) !! c =
    Some (terminate_calls s).
Proof.
  intros Hci Ha Hs Hint Hrounds. simpl.
  destruct (heartbeat_tick_alive w c clientInfo s Hci Ha Hs) as [Hci1 Hs1].
  destruct (interval_run evs (heartbeat_tick w) c _ _ Hint Hci1 Hs1) as (Hci2 & l & Hs2).
  simpl in Hci2. rewrite orb_false_r in Hci2.
  split; [|split; [|split]].
  - by rewrite Hci1, Hs1.
  - rewrite Hs2. unfold fmap, option_fmap, option_map. f_equal.
    by rewrite grow_terminate_calls, ws_ping_terminate_calls.
  - destruct (existsb (is_pong c) evs) eqn:Hp.
    + destruct (heartbeat_tick_alive _ c _ _ Hci2 eq_refl Hs2) as [-> ->].
      split; [|done]. unfold fmap, option_fmap, option_map. f_equal.
      by rewrite ws_ping_terminate_calls, grow_terminate_calls, ws_ping_terminate_calls.
    + destruct (heartbeat_tick_dead _ c _ _ Hci2 eq_refl Hs2) as [-> ->].
      split; [|done]. unfold fmap, option_fmap, option_map. f_equal.
      by rewrite ws_terminate_terminate_calls, grow_terminate_calls,
        ws_ping_terminate_calls.
  - destruct (answered_rounds rounds w c clientInfo s Hrounds Hci Ha Hs) as (s' & -> & Ht).
    simpl. by rewrite Ht.
Qed.

(** *** Dispatch of inbound payloads *)



End connection_manager.

(** *** The properties on the sample service *)

Lemma sample_world_consistent : consistent sample_world.
Proof. apply (@run_invariant sample_runtime); apply init_invariant. Qed.

Lemma handleClose_ends_session_witness :
  consistent sample_world ∧
  ∀ sid sessionClients,
    sessions (@handleClose sample_runtime sample_world 1 1000 "bye") !! sid
      = Some sessionClients →
    sessionClients ≠ ∅.
Proof.
  split; [exact sample_world_consistent|].
  exact (proj1 (@handleClose_ends_session sample_runtime sample_world 1 1000 "bye"
                  sample_world_consistent)).
Defined.

Lemma heartbeat_protocol_witness :
  (clients sample_world !! 1%positive = Some sample_client ∧
   isAlive sample_client = true ∧
   sockets sample_world !! 1%positive = Some sample_socket) ∧
  terminate_calls <$>
    sockets (@handle sample_runtime
               (@run sample_runtime (@handle sample_runtime sample_world HeartbeatTick)
                  [Message 1 "hello"])
               HeartbeatTick) !! 1%positive = Some 1%nat.
Proof.
  split; [repeat split; reflexivity|].
  exact (proj1 (proj1 (proj2 (proj2
    (@heartbeat_protocol sample_runtime sample_world 1 sample_client sample_socket
       [Message 1 "hello"] [[Pong 1]]
       eq_refl eq_refl eq_refl eq_refl eq_refl))))).
Defined.


(** The client asked for [sess-1]; the connection is registered under the
    generated [uuid-1], and no session [sess-1] exists. *)
Lemma supplied_session_not_reused :
  (spec_supplied_session sample_request = Some "sess-1" ∧
   sessionId <$> clients sample_world !! 1%positive = Some "uuid-1" ∧
   sessions sample_world !! "sess-1" = None) ∧
  ¬ (∀ (w : World) (request : Request) (uuid supplied : string),
       spec_supplied_session request = Some supplied →
       sessionId <$> clients (@handle sample_runtime w (Connection request uuid))
                       !! fresh (dom (sockets w)) = Some supplied).
Proof.
  split; [repeat split; reflexivity|].
  intros Hall.
  specialize (Hall init sample_request "uuid-1" "sess-1" eq_refl).
  vm_compute in Hall. discriminate Hall.
Qed.


(** ** Start-up *)
Section startup.
Import Startup.

(** C8 (amended).  When the database and the broker answer, start-up
    requests the subscription to the four channels, starts the heartbeat
    and goes on to listen whatever the subscription's outcome: a refused
    subscription leaves the process running with no channel subscribed and
    one line on the console.  Start-up exits with code 1, before any
    subscription is requested, when the database or the broker's ping
    fails. *)
Theorem startServer_subscription (env : Env) :
  let p := startServer env in
  match initializeDatabase env, redis_ping env with
  | Resolved, Resolved =>
      subscribe_requested p = channels ∧ heartbeat_started p = true ∧
      listening p = true ∧ exit_code p = None ∧
      match redis_subscribe env with
      | Resolved => subscribed p = channels
      | Rejected err => subscribed p = [] ∧ LSubscriptionError err ∈ console p
      end
  | _, _ => exit_code p = Some 1 ∧ listening p = false ∧ subscribe_requested p = []
  end.
Proof.
  unfold startServer, initializeServices, constructor, setupRedisSubscriptions.
  destruct (initializeDatabase env); [|done].
  destruct (redis_ping env); [|by destruct (storage_initialize env)].
  destruct (redis_subscribe env) as [|err], (storage_initialize env); simpl;
    repeat split; try done.
  all: cbv [app]; eauto using list_elem_of_here, list_elem_of_further.
Qed.

(** The subscription is refused and the process listens all the same. *)
Lemma refused_subscription_not_fatal :
  (redis_subscribe refused_subscription = Rejected "ECONNRESET" ∧
   listening (startServer refused_subscription) = true ∧
   exit_code (startServer refused_subscription) = None ∧
   subscribed (startServer refused_subscription) = []) ∧
  ¬ (∀ env err, redis_subscribe env = Rejected err →
       exit_code (startServer env) ≠ None ∧ listening (startServer env) = false).
Proof.
  split; [repeat split; reflexivity|].
  intros Hall. destruct (Hall refused_subscription "ECONNRESET" eq_refl) as [_ Hl].
  discriminate Hl.
Qed.

End startup.

(** ** The queues *)
Section queues.
Import Queue.

Lemma backoff_fixed b n : type b = fixed → backoff_delay b n = delay b.
Proof. unfold backoff_delay. by intros ->. Qed.

Lemma backoff_exponential_increasing b n :
  type b = exponential → 0 < delay b → (1 ≤ n)%nat →
  backoff_delay b n < backoff_delay b (S n).
Proof.
  unfold backoff_delay. intros -> Hd Hn.
  replace (Z.of_nat (S n - 1)) with (Z.succ (Z.of_nat (n - 1))) by lia.
  rewrite Z.pow_succ_r by lia.
  assert (0 < 2 ^ Z.of_nat (n - 1)) by (apply Z.pow_pos_nonneg; lia). nia.
Qed.

(** A handler that always raises is tried as many times as attempts
    remain, with the policy's wait after each try but the last, and the
    job ends failed. *)
Lemma process_always_raises {S} (o : JobsOptions) (effect : nat → S → S) fuel made st :
  (made + fuel = attempts o)%nat → (1 ≤ fuel)%nat →
  let states := (process o (always_raises effect) fuel made st).1 in
  attempts_made states = seq (Datatypes.S made) fuel ∧
  waits states = map (backoff_delay (backoff o)) (seq (Datatypes.S made) (fuel - 1)) ∧
  last states = Some Failed.
Proof.
  revert made st. induction fuel as [|fuel IH]; intros made st Hsum Hfuel; [lia|].
  simpl. unfold after_attempt.
  destruct (decide (fuel = 0%nat)) as [->|Hpos].
  - replace (Datatypes.S made <? attempts o)%nat with false
      by (symmetry; apply Nat.ltb_ge; lia).
    done.
  - replace (Datatypes.S made <? attempts o)%nat with true
      by (symmetry; apply Nat.ltb_lt; lia).
    specialize (IH (Datatypes.S made) (effect (Datatypes.S made) st)).
    destruct IH as (Ha & Hw & Hl); [lia|lia|].
    destruct (process o (always_raises effect) fuel (Datatypes.S made)
                (effect (Datatypes.S made) st)) as [states st'] eqn:Hp.
    simpl in *. rewrite Ha, Hw. repeat split.
    + replace (fuel - 0)%nat with (Datatypes.S (fuel - 1)) by lia. done.
    + destruct states; [done|]. done.
Qed.

(** C5.  A job whose handler raises at every attempt is attempted exactly
    as many times as its policy allows and then is failed: twice for an
    inference job, with the fixed wait of 5000 ms between the attempts, and
    three times for an ingestion job, with waits of 2000 ms and 4000 ms.
    Whatever the number of attempts allowed, the attempts are numbered 1 to
    that number, the waits follow the backoff, and the backoff is constant
    when fixed and strictly increasing when exponential. *)
Theorem retry_policy {S D} (effect : nat → S → S) (st : S) (q : list (Job D)) (d : D)
    (o : JobsOptions) :
  (1 ≤ attempts o)%nat →
  let inference := opts (addInferenceJob q d).2 in
  let ingestion := opts (addFrameJob q d).2 in
  (lifecycle inference (always_raises effect) st).1 =
    [Waiting; Active 1; Retrying 1 5000; Active 2; Failed] ∧
  (lifecycle ingestion (always_raises effect) st).1 =
    [Waiting; Active 1; Retrying 1 2000; Active 2; Retrying 2 4000; Active 3; Failed] ∧
  (let states := (lifecycle o (always_raises effect) st).1 in
   attempts_made states = seq 1 (attempts o) ∧
   waits states = map (backoff_delay (backoff o)) (seq 1 (attempts o - 1)) ∧
   last states = Some Failed) ∧
  (∀ n, type (backoff o) = fixed → backoff_delay (backoff o) n = delay (backoff o)) ∧
  (∀ n, type (backoff o) = exponential → 0 < delay (backoff o) → (1 ≤ n)%nat →
        backoff_delay (backoff o) n < backoff_delay (backoff o) (Datatypes.S n)).
Proof.
  intros Hat. simpl. repeat split; try done.
  - unfold lifecycle.
    destruct (process_always_raises o effect (attempts o) 0 st) as (Ha & _ & _); [lia..|].
    by destruct (process o (always_raises effect) (attempts o) 0 st).
  - unfold lifecycle.
    destruct (process_always_raises o effect (attempts o) 0 st) as (_ & Hw & _); [lia..|].
    by destruct (process o (always_raises effect) (attempts o) 0 st).
  - unfold lifecycle.
    destruct (process_always_raises o effect (attempts o) 0 st) as (_ & _ & Hl); [lia..|].
    destruct (process o (always_raises effect) (attempts o) 0 st) as [states st'].
    simpl in *. by destruct states.
  - intros n. apply backoff_fixed.
  - intros n. apply backoff_exponential_increasing.
Qed.

Lemma retry_policy_witness :
  (1 ≤ 3)%nat ∧
  attempts_made
    (lifecycle (mkJobsOptions 3 (mkBackoff exponential 2000) 100 50)
       (always_raises (λ _ (n : nat), Datatypes.S n)) 0%nat).1 = [1; 2; 3]%nat.
Proof.
  split; [lia|].
  exact (proj1 (proj1 (proj2 (proj2
    (@retry_policy nat unit (λ _ n, Datatypes.S n) 0%nat [] tt
       (mkJobsOptions 3 (mkBackoff exponential 2000) 100 50) (le_S _ _ (le_S _ _ (le_n 1)))))))).
Defined.

End queues.

(** ** The inference worker *)
Section worker.
Import Worker.

Lemma bind_inv {A B} (m : M A) (k : A → M B) st r st2 :
  (m ≫= k) st = (r, st2) →
  (∃ e, m st = (Throw e, st2) ∧ r = Throw e) ∨
  (∃ a st1, m st = (Ok a, st1) ∧ k a st1 = (r, st2)).
Proof.
  unfold mbind, M_bind. destruct (m st) as [[a|e] st1]; intros Hk.
  - right. by exists a, st1.
  - left. exists e. by simplify_eq.
Qed.

Lemma call_inv rejects effect st r st1 :
  call rejects effect st = (r, st1) →
  (∃ e, rejects = Some e ∧ r = Throw e ∧ st1 = st) ∨
  (rejects = None ∧ r = Ok tt ∧ st1 = effect st).
Proof.
  unfold call. destruct rejects as [e|]; intros; simplify_eq; [left|right]; eauto.
Qed.

Lemma runInference_spec att key model st :
  ∃ st1, runInference att key model st = (Ok (reply_of att key model), st1) ∧
         inference_results st1 = inference_results st ∧ frames st1 = frames st.
Proof.
  unfold runInference, reply_of. destruct (fetch att key model); eexists; split; done.
Qed.

Lemma processFrame_spec att job st r st1 :
  processFrame att (frameId job) (s3Key job) st = (r, st1) →
  frames st1 = frames st ∧
  match r with
  | Ok scores =>
      scores = scores_of att job ∧ query_rejects att = None ∧
      inference_results st1 =
        inference_results st ++
          [mkRow (frameId job) (emotionLabel scores) (emotionConf scores)
                 (rednessLabel scores) (rednessConf scores) None]
  | Throw e => query_rejects att = Some e ∧ inference_results st1 = inference_results st
  end.
Proof.
  unfold processFrame, try_catch, scores_of. 
  destruct (runInference_spec att (s3Key job) "emotion-esmd2/2" st) as (sa & Ha & Hra & Hfa).
  destruct (runInference_spec att (s3Key job) "redness-of-eyes-aju4x/1" sa) as (sb & Hb & Hrb & Hfb).
  unfold mbind at 1, M_bind at 1. rewrite Ha.
  unfold mbind at 1, M_bind at 1. rewrite Hb.
  destruct (first_prediction (reply_of att (s3Key job) "emotion-esmd2/2")) as [el ec].
  destruct (first_prediction (reply_of att (s3Key job) "redness-of-eyes-aju4x/1")) as [rl rc].
  unfold mbind, M_bind, call, ret, mret, M_ret, log, throw.
  destruct (query_rejects att) as [e|]; simpl; intros; simplify_eq; simpl.
  - split; [congruence|]. split; [done|congruence].
  - split; [congruence|]. repeat split; congruence.
Qed.

Lemma log_spec l st : ∃ st1, log l st = (Ok tt, st1) ∧
  inference_results st1 = inference_results st ∧ frames st1 = frames st.
Proof. by eexists. Qed.

Lemma updateProgress_spec att p st r st1 :
  updateProgress att p st = (r, st1) →
  inference_results st1 = inference_results st ∧ frames st1 = frames st ∧
  match r with
  | Ok _ => updateProgress_rejects att p = None
  | Throw e => updateProgress_rejects att p = Some e
  end.
Proof.
  unfold updateProgress. intros [(e & -> & -> & ->)|(-> & -> & ->)]%call_inv; done.
Qed.

Lemma create_spec rejects row st r st1 :
  InferenceResult_create rejects row st = (r, st1) →
  frames st1 = frames st ∧
  match r with
  | Ok v => v = row ∧ rejects = None ∧
            valid_confidence (emotion_confidence row) &&
            valid_confidence (redness_confidence row) = true ∧
            inference_results st1 = inference_results st ++ [row]
  | Throw e => inference_results st1 = inference_results st ∧
               (valid_confidence (emotion_confidence row) &&
                valid_confidence (redness_confidence row) = true ∧ rejects = Some e ∨
                valid_confidence (emotion_confidence row) &&
                valid_confidence (redness_confidence row) = false ∧
                e = "Validation error")
  end.
Proof.
  unfold InferenceResult_create.
  destruct (valid_confidence _ && valid_confidence _) eqn:Hv.
  - intros [(e & [(e' & -> & ? & ->)|(-> & ? & ->)]%call_inv & ->) |
            (a & s & [(e' & -> & ? & ->)|(-> & ? & ->)]%call_inv & Hk)]%bind_inv;
      simplify_eq; try done.
    + split; [done|]. split; [done|]. by left.
    + unfold ret, mret, M_ret in Hk. by simplify_eq.
  - unfold throw. intros. simplify_eq. split; [done|]. split; [done|]. by right.
Qed.

Lemma markFrameProcessed_spec att frameId st r st1 :
  markFrameProcessed att frameId st = (r, st1) →
  inference_results st1 = inference_results st ∧
  match r with
  | Ok _ => update_rejects att = None ∧
            frames st1 = alter mark_processed frameId (frames st)
  | Throw e => update_rejects att = Some e ∧ frames st1 = frames st
  end.
Proof.
  unfold markFrameProcessed. intros [(e & -> & -> & ->)|(-> & -> & ->)]%call_inv; done.
Qed.

Lemma publish_spec att channel event st r st1 :
  publish att channel event st = (r, st1) →
  inference_results st1 = inference_results st ∧ frames st1 = frames st ∧
  match r with
  | Ok _ => publish_rejects att = None
  | Throw e => publish_rejects att = Some e
  end.
Proof.
  unfold publish. intros [(e & -> & -> & ->)|(-> & -> & ->)]%call_inv; done.
Qed.

Ltac step H Hm s :=
  let e := fresh "e" in let a := fresh "a" in
  apply bind_inv in H as [(e & Hm & ->) | (a & s & Hm & H)].

Lemma try_spec att job st r st1 :
  processInferenceJob_try att job st = (r, st1) →
  match r with
  | Ok v =>
      results v = scores_of att job ∧ inferenceRecord v = worker_row att job ∧
      inference_results st1 = inference_results st ++ [raw_row att job; worker_row att job] ∧
      frames st1 = alter mark_processed (frameId job) (frames st)
  | Throw e =>
      (inference_results st1 = inference_results st ∨
       inference_results st1 = inference_results st ++ [raw_row att job] ∨
       inference_results st1 = inference_results st ++ [raw_row att job; worker_row att job]) ∧
      (frames st1 = frames st ∨
       frames st1 = alter mark_processed (frameId job) (frames st) ∧
       (publish_rejects att = Some e ∨ updateProgress_rejects att 100 = Some e)) ∧
      raised att e
  end.
Proof.
  unfold processInferenceJob_try, raised. intros H.
  destruct (log_spec (LProcessing (frameId job)) st) as (sl & Hlog & Hr0 & Hf0).
  step H Hm1 s1; rewrite Hlog in Hm1; [done|]. injection Hm1 as <- <-. clear Hlog.
  step H Hm2 s2; apply updateProgress_spec in Hm2 as (Hr2 & Hf2 & He2).
  { split; [left; congruence|]. split; [left; congruence|]. left. eauto. }
  step H Hm3 s3; apply processFrame_spec in Hm3 as (Hf3 & Hm3).
  { destruct Hm3 as [Hq Hr3].
    split; [left; congruence|]. split; [left; congruence|]. by right; left. }
  destruct Hm3 as (-> & _ & Hr3).
  assert (inference_results s3 = inference_results st ++ [raw_row att job]) as Hraw
    by (by rewrite Hr3, Hr2, Hr0).
  assert (frames s3 = frames st) as Hfr by congruence.
  clear Hr0 Hf0 Hr2 Hf2 He2 Hr3 Hf3.
  step H Hm4 s4; apply updateProgress_spec in Hm4 as (Hr4 & Hf4 & He4).
  { split; [right; left; congruence|]. split; [left; congruence|]. left. eauto. }
  step H Hm5 s5; apply create_spec in Hm5 as (Hf5 & Hm5).
  { destruct Hm5 as [Hr5 He5].
    split; [right; left; congruence|]. split; [left; congruence|].
    destruct He5 as [[_ He5]|[_ He5]]; [by right; right; left|by right; right; right; left]. }
  destruct Hm5 as (-> & _ & _ & Hr5).
  assert (inference_results s5 =
          inference_results st ++ [raw_row att job; worker_row att job]) as Hboth.
  { rewrite Hr5, Hr4, Hraw, <-app_assoc. done. }
  assert (frames s5 = frames st) as Hfr5 by congruence.
  clear Hraw Hfr Hr4 Hf4 He4 Hr5 Hf5.
  step H Hm6 s6; apply updateProgress_spec in Hm6 as (Hr6 & Hf6 & He6).
  { split; [right; right; congruence|]. split; [left; congruence|]. left. eauto. }
  step H Hm7 s7; apply markFrameProcessed_spec in Hm7 as (Hr7 & Hm7).
  { destruct Hm7 as [He7 Hf7].
    split; [right; right; congruence|]. split; [left; congruence|]. by do 4 right; left. }
  destruct Hm7 as (_ & Hf7).
  assert (inference_results s7 =
          inference_results st ++ [raw_row att job; worker_row att job]) as Hrows
    by congruence.
  assert (frames s7 = alter mark_processed (frameId job) (frames st)) as Hframes
    by congruence.
  clear Hboth Hfr5 Hr6 Hf6 He6 Hr7 Hf7.
  step H Hm8 s8.
  { assert (inference_results st1 = inference_results s7 ∧ frames st1 = frames s7 ∧
            publish_rejects att = Some e) as (Hr & Hf & He).
    { destruct (sessionId job) as [sid|]; [destruct (String.eqb sid "")|];
        try (by apply publish_spec in Hm8); unfold ret, mret, M_ret in Hm8; simplify_eq. }
    split; [right; right; congruence|]. split; [right; split; [congruence|by left]|].
    by do 5 right. }
  assert (inference_results s8 = inference_results s7 ∧ frames s8 = frames s7) as (Hr8 & Hf8).
  { destruct (sessionId job) as [sid|]; [destruct (String.eqb sid "")|];
      try (by apply publish_spec in Hm8 as (? & ? & _)); unfold ret, mret, M_ret in Hm8;
      by simplify_eq. }
  step H Hm9 s9; apply updateProgress_spec in Hm9 as (Hr9 & Hf9 & He9).
  { split; [right; right; congruence|]. split; [right; split; [congruence|by right]|].
    left. eauto. }
  destruct (log_spec (LCompleted (frameId job)) s9) as (sc & Hlog & Hrc & Hfc).
  step H Hm10 s10; rewrite Hlog in Hm10; [done|]. injection Hm10 as <- <-.
  unfold ret, mret, M_ret in H. injection H as <- <-. simpl.
  repeat split; congruence.
Qed.

Lemma catch_spec att job e st :
  ∃ st1, processInferenceJob_catch att job e st = (Throw e, st1) ∧
    inference_results st1 = inference_results st ++ recorded_sentinel att job ∧
    frames st1 = frames st ∧ published st1 = published st ∧
    console st1 =
      console st ++ LWorkerError (frameId job) e ::
        match create_sentinel_rejects att with
        | Some dbError => [LFailedToLogError dbError]
        | None => []
        end.
Proof.
  unfold processInferenceJob_catch, recorded_sentinel, try_catch, InferenceResult_create,
    sentinel_row, mbind, M_bind, call, log, throw, ret, mret, M_ret.
  simpl. destruct (create_sentinel_rejects att) as [dbError|]; simpl; eexists;
    (split; [reflexivity|]); simpl; repeat split; try done.
  - by rewrite app_nil_r.
  - by rewrite <-app_assoc.
Qed.

Lemma processInferenceJob_spec att job st :
  ∃ rt stt, processInferenceJob_try att job st = (rt, stt) ∧
  match rt with
  | Ok v => processInferenceJob att job st = (Ok v, stt)
  | Throw e =>
      ∃ st1, processInferenceJob att job st = (Throw e, st1) ∧
        inference_results st1 = inference_results stt ++ recorded_sentinel att job ∧
        frames st1 = frames stt ∧ published st1 = published stt ∧
        console st1 =
          console stt ++ LWorkerError (frameId job) e ::
            match create_sentinel_rejects att with
            | Some dbError => [LFailedToLogError dbError]
            | None => []
            end
  end.
Proof.
  unfold processInferenceJob, try_catch.
  destruct (processInferenceJob_try att job st) as [[v|e] stt] eqn:Htry.
  - by exists (Ok v), stt.
  - exists (Throw e), stt. split; [done|].
    destruct (catch_spec att job e stt) as (st1 & Hc & Hrest). exists st1. by rewrite Hc.
Qed.

Lemma scored_raw_row att job : scored_row (frameId job) (scores_of att job) (raw_row att job).
Proof. by repeat split. Qed.

Lemma scored_worker_row att job :
  scored_row (frameId job) (scores_of att job) (worker_row att job).
Proof. by repeat split. Qed.

Lemma attempt_succeeds att job st v st1 :
  processInferenceJob att job st = (Ok v, st1) →
  results v = scores_of att job ∧
  inference_results st1 = inference_results st ++ [raw_row att job; worker_row att job] ∧
  frames st1 = alter mark_processed (frameId job) (frames st).
Proof.
  intros Hrun. destruct (processInferenceJob_spec att job st) as (rt & stt & Htry & Hspec).
  apply try_spec in Htry. destruct rt as [v'|e].
  - rewrite Hspec in Hrun. injection Hrun as <- <-. by destruct Htry as (? & _ & ? & ?).
  - destruct Hspec as (st2 & Hspec & _). rewrite Hspec in Hrun. discriminate Hrun.
Qed.

Lemma attempt_fails att job st e st1 :
  processInferenceJob att job st = (Throw e, st1) →
  (∃ scored, inference_results st1 =
               inference_results st ++ scored ++ recorded_sentinel att job ∧
             Forall (scored_row (frameId job) (scores_of att job)) scored) ∧
  (frames st1 = frames st ∨
   frames st1 = alter mark_processed (frameId job) (frames st) ∧
   (publish_rejects att = Some e ∨ updateProgress_rejects att 100 = Some e)) ∧
  raised att e.
Proof.
  intros Hrun. destruct (processInferenceJob_spec att job st) as (rt & stt & Htry & Hspec).
  apply try_spec in Htry. destruct rt as [v'|e'].
  - rewrite Hspec in Hrun. discriminate Hrun.
  - destruct Hspec as (st2 & Hspec & Hr & Hf & _). rewrite Hspec in Hrun.
    injection Hrun as <- <-. destruct Htry as (Hrows & Hframes & Hraised).
    split; [|split; [by rewrite Hf|done]].
    destruct Hrows as [Hrows|[Hrows|Hrows]]; rewrite Hr, Hrows.
    + exists []. by split.
    + exists [raw_row att job]. split; [by rewrite <-app_assoc|].
      apply Forall_cons_2; [apply scored_raw_row|apply Forall_nil_2].
    + exists [raw_row att job; worker_row att job]. split; [by rewrite <-app_assoc|].
      apply Forall_cons_2; [apply scored_raw_row|].
      apply Forall_cons_2; [apply scored_worker_row|apply Forall_nil_2].
Qed.


Lemma try_result att job st :
  (processInferenceJob_try att job st).1 =
  match first_rejection att job with
  | Some e => Throw e
  | None => Ok (mkJobReturn true (frameId job) (worker_row att job) (elapsed att)
                            (scores_of att job))
  end.
Proof.
  destruct (processInferenceJob_try att job st) as [r st1] eqn:H. simpl.
  unfold processInferenceJob_try in H. unfold first_rejection, in_order.
  destruct (log_spec (LProcessing (frameId job)) st) as (sl & Hlog & _).
  step H Hm1 s1; rewrite Hlog in Hm1; [done|]. injection Hm1 as <- <-. clear Hlog.
  step H Hm2 s2; apply updateProgress_spec in Hm2 as (_ & _ & ->); [done|]. simpl.
  step H Hm3 s3; apply processFrame_spec in Hm3 as (_ & Hm3).
  { by destruct Hm3 as [-> _]. }
  destruct Hm3 as (-> & -> & _). simpl.
  step H Hm4 s4; apply updateProgress_spec in Hm4 as (_ & _ & ->); [done|]. simpl.
  step H Hm5 s5; apply create_spec in Hm5 as (_ & Hm5).
  { destruct Hm5 as [_ [[Hv ->]|[Hv ->]]]; simpl in Hv; by rewrite Hv. }
  destruct Hm5 as (-> & -> & Hv & _). simpl in Hv. rewrite Hv. simpl.
  step H Hm6 s6; apply updateProgress_spec in Hm6 as (_ & _ & ->); [done|]. simpl.
  step H Hm7 s7; apply markFrameProcessed_spec in Hm7 as (_ & Hm7).
  { by destruct Hm7 as [-> _]. }
  destruct Hm7 as (-> & _). simpl.
  unfold has_session.
  step H Hm8 s8.
  { destruct (sessionId job) as [sid|]; [destruct (String.eqb sid "")|];
      unfold ret, mret, M_ret in Hm8; simplify_eq.
    by apply publish_spec in Hm8 as (_ & _ & ->). }
  assert ((if match sessionId job with
              | Some sid => negb (String.eqb sid "")
              | None => false
              end then publish_rejects att else None) = None) as ->.
  { destruct (sessionId job) as [sid|]; [destruct (String.eqb sid "")|]; simpl; try done.
    by apply publish_spec in Hm8 as (_ & _ & ->). }
  simpl.
  step H Hm9 s9; apply updateProgress_spec in Hm9 as (_ & _ & ->); [done|]. simpl.
  destruct (log_spec (LCompleted (frameId job)) s9) as (sc & Hlog & _).
  step H Hm10 s10; rewrite Hlog in Hm10; [done|]. injection Hm10 as <- <-.
  unfold ret, mret, M_ret in H. by injection H as <- <-.
Qed.


(** C4 (amended).  The scoring call never raises: [runInference] turns its
    exception into an error reply.  The job raises exactly when one of the
    other calls of the try block rejects (a progress report, the insert of
    [processFrame], the validation or the insert of the worker's record, the
    frame update, the publish), and what it raises is the error of the first
    of them in program order.  The catch block then records one sentinel row
    with the error marker as labels and no confidences; if recording it
    fails, one more line is written to the console and nothing else
    changes. *)
Theorem worker_reraises (att : Attempt) (job : JobData) (st : Store) :
  (∀ key model s0,
     ∃ s1, runInference att key model s0 = (Ok (reply_of att key model), s1)) ∧
  (processInferenceJob att job st).1 =
    match first_rejection att job with
    | Some e => Throw e
    | None => Ok (mkJobReturn true (frameId job) (worker_row att job) (elapsed att)
                              (scores_of att job))
    end ∧
  ∃ rt stt, processInferenceJob_try att job st = (rt, stt) ∧
    match rt with
    | Ok v => processInferenceJob att job st = (Ok v, stt)
    | Throw e =>
        ∃ st1, processInferenceJob att job st = (Throw e, st1) ∧
          frames st1 = frames stt ∧ published st1 = published stt ∧
          match create_sentinel_rejects att with
          | None =>
              inference_results st1 =
                inference_results stt ++ [sentinel_row (frameId job) (elapsed att)] ∧
              is_sentinel (sentinel_row (frameId job) (elapsed att)) = true ∧
              console st1 = console stt ++ [LWorkerError (frameId job) e]
          | Some dbError =>
              inference_results st1 = inference_results stt ∧
              console st1 =
                console stt ++ [LWorkerError (frameId job) e; LFailedToLogError dbError]
          end
    end.
Proof.
  split; [|split].
  - intros key model s0. destruct (runInference_spec att key model s0) as (s1 & H1 & _).
    by exists s1.
  - pose proof (try_result att job st) as Htry.
    destruct (processInferenceJob_spec att job st) as (rt & stt & Ht & Hspec).
    rewrite Ht in Htry. simpl in Htry. rewrite <-Htry.
    destruct rt as [v|e]; [by rewrite Hspec|].
    destruct Hspec as (st1 & -> & _). done.
  - destruct (processInferenceJob_spec att job st) as (rt & stt & Ht & Hspec).
    exists rt, stt. split; [done|]. destruct rt as [v|e]; [done|].
    destruct Hspec as (st1 & Hrun & Hr & Hf & Hp & Hc). exists st1.
    unfold recorded_sentinel in Hr.
    destruct (create_sentinel_rejects att) as [dbError|]; repeat split; try done.
    by rewrite Hr, app_nil_r.
Qed.

(** The scoring call throws for both models; the job completes, the rows
    carry the label [Unknown], and no sentinel is recorded. *)
Lemma scorer_exception_absorbed :
  (fetch scorer_down (s3Key sample_job) "emotion-esmd2/2" = Throw "ETIMEDOUT" ∧
   fetch scorer_down (s3Key sample_job) "redness-of-eyes-aju4x/1" = Throw "ETIMEDOUT" ∧
   is_ok (processInferenceJob scorer_down sample_job sample_store).1 = true ∧
   sentinels 1 (new_rows sample_store
                  (processInferenceJob scorer_down sample_job sample_store).2) = 0%nat) ∧
  ¬ (∀ att job st e,
       fetch att (s3Key job) "emotion-esmd2/2" = Throw e →
       is_ok (processInferenceJob att job st).1 = false ∧
       (1 ≤ sentinels (frameId job) (new_rows st (processInferenceJob att job st).2))%nat).
Proof.
  split; [repeat split; reflexivity|].
  intros Hall.
  destruct (Hall scorer_down sample_job sample_store "ETIMEDOUT" eq_refl) as [Hok _].
  discriminate Hok.
Qed.

(** *** Rows per job *)

Lemma new_rows_app before after news :
  inference_results after = inference_results before ++ news →
  new_rows before after = news.
Proof. unfold new_rows. intros ->. by rewrite drop_app_length. Qed.

Lemma sentinels_app fid l1 l2 :
  sentinels fid (l1 ++ l2) = (sentinels fid l1 + sentinels fid l2)%nat.
Proof. unfold sentinels. by rewrite filter_app, length_app. Qed.

Lemma sentinels_scored fid scores rows :
  emotionLabel scores ≠ "ERROR" → Forall (scored_row fid scores) rows →
  sentinels fid rows = 0%nat.
Proof.
  intros Hl Hrows. unfold sentinels.
  induction Hrows as [|row rows Hrow _ IH]; [done|].
  rewrite filter_cons_False; [done|].
  intros [_ Hs]. destruct Hrow as (_ & He & _). unfold is_sentinel in Hs.
  rewrite He in Hs. apply String.eqb_neq in Hl. by rewrite Hl in Hs.
Qed.

Lemma sentinels_recorded att job :
  sentinels (frameId job) (recorded_sentinel att job) =
  List.length (recorded_sentinel att job).
Proof.
  unfold recorded_sentinel, sentinels.
  destruct (create_sentinel_rejects att); [done|].
  by rewrite filter_cons_True.
Qed.

(** C2 (amended).  An attempt that succeeds adds rows for its frame that all
    carry the scores of the attempt, the worker's own record among them,
    and none of them a sentinel, and the frame's processed flag becomes
    true.  An inference job whose every attempt fails is attempted twice,
    then failed; each failed attempt whose failure is recorded adds one
    sentinel row, so the job leaves as many sentinel rows as failures were
    recorded (two when both were); the processed flag is as it was when no
    attempt failed in the publish or in the last progress report.  (Scores
    are taken not to be the error marker themselves.) *)
Theorem inference_job_rows (atts : nat → Attempt) (job : JobData) (st : Store)
    (q : list (Queue.Job JobData)) :
  (∀ n, emotionLabel (scores_of (atts n) job) ≠ "ERROR") →
  (∀ n v st1, processInferenceJob (atts n) job st = (Ok v, st1) →
     let news := new_rows st st1 in
     worker_row (atts n) job ∈ news ∧
     Forall (scored_row (frameId job) (scores_of (atts n) job)) news ∧
     sentinels (frameId job) news = 0%nat ∧
     processed <$> frames st1 !! frameId job = (λ _, true) <$> frames st !! frameId job) ∧
  ((∀ n st0, is_ok (processInferenceJob (atts n) job st0).1 = false) →
     let r := Queue.lifecycle (Queue.opts (Queue.addInferenceJob q job).2)
                (handler atts job) st in
     r.1 = [Queue.Waiting; Queue.Active 1; Queue.Retrying 1 5000; Queue.Active 2;
            Queue.Failed] ∧
     sentinels (frameId job) (new_rows st r.2) =
       (List.length (recorded_sentinel (atts 1%nat) job) +
        List.length (recorded_sentinel (atts 2%nat) job))%nat ∧
     ((∀ n, publish_rejects (atts n) = None ∧ updateProgress_rejects (atts n) 100 = None) →
      frames r.2 = frames st)).
Proof.
  intros Hregular. split.
  - intros n v st1 Hrun. apply attempt_succeeds in Hrun as (_ & Hrows & Hframes).
    simpl. rewrite (new_rows_app _ _ _ Hrows). repeat split.
    + apply list_elem_of_further, list_elem_of_here.
    + apply Forall_cons_2; [apply scored_raw_row|].
      apply Forall_cons_2; [apply scored_worker_row|apply Forall_nil_2].
    + apply (sentinels_scored _ (scores_of (atts n) job)); [done|].
      apply Forall_cons_2; [apply scored_raw_row|].
      apply Forall_cons_2; [apply scored_worker_row|apply Forall_nil_2].
    + rewrite Hframes, lookup_alter_eq. by destruct (frames st !! frameId job).
  - intros Hfail.
    destruct (processInferenceJob (atts 1%nat) job st) as [r1 s1] eqn:H1.
    pose proof (Hfail 1%nat st) as Hf1. rewrite H1 in Hf1.
    destruct r1 as [v1|e1]; [discriminate Hf1|].
    destruct (processInferenceJob (atts 2%nat) job s1) as [r2 s2] eqn:H2.
    pose proof (Hfail 2%nat s1) as Hf2. rewrite H2 in Hf2.
    destruct r2 as [v2|e2]; [discriminate Hf2|].
    assert (Queue.lifecycle (Queue.opts (Queue.addInferenceJob q job).2)
              (handler atts job) st =
            ([Queue.Waiting; Queue.Active 1; Queue.Retrying 1 5000; Queue.Active 2;
              Queue.Failed], s2)) as Hlife.
    { unfold Queue.lifecycle. simpl. unfold handler. rewrite H1. simpl. by rewrite H2. }
    rewrite Hlife. simpl. clear Hlife Hf1 Hf2.
    apply attempt_fails in H1 as ((sc1 & Hr1 & Hsc1) & Hfr1 & _).
    apply attempt_fails in H2 as ((sc2 & Hr2 & Hsc2) & Hfr2 & _).
    repeat split.
    + rewrite Hr1 in Hr2. rewrite <-app_assoc in Hr2.
      rewrite (new_rows_app _ _ _ Hr2). rewrite !sentinels_app, !sentinels_recorded.
      rewrite (sentinels_scored _ _ _ (Hregular 1%nat) Hsc1).
      rewrite (sentinels_scored _ _ _ (Hregular 2%nat) Hsc2). lia.
    + intros Hlate.
      destruct Hfr1 as [Hfr1|[_ [Hp|Hp]]];
        [|destruct (Hlate 1%nat); congruence|destruct (Hlate 1%nat); congruence].
      destruct Hfr2 as [Hfr2|[_ [Hp|Hp]]];
        [|destruct (Hlate 2%nat); congruence|destruct (Hlate 2%nat); congruence].
      congruence.
Qed.

Lemma inference_job_rows_witness :
  ((∀ n : nat, emotionLabel (scores_of insert_refused sample_job) ≠ "ERROR") ∧
   (∀ (n : nat) st0, is_ok (processInferenceJob insert_refused sample_job st0).1 = false)) ∧
  sentinels 1
    (new_rows sample_store
       (Queue.lifecycle (Queue.opts (Queue.addInferenceJob [] sample_job).2)
          (handler (λ _, insert_refused) sample_job) sample_store).2) = 2%nat.
Proof.
  assert (∀ n : nat, emotionLabel (scores_of insert_refused sample_job) ≠ "ERROR") as Hreg
    by (intros _; discriminate).
  assert (∀ (n : nat) st0,
            is_ok (processInferenceJob insert_refused sample_job st0).1 = false) as Hfail.
  { intros _ st0.
    destruct (worker_reraises insert_refused sample_job st0) as (_ & -> & _). done. }
  split; [by split|].
  exact (proj1 (proj2 (proj2
    (inference_job_rows (λ _, insert_refused) sample_job sample_store [] Hreg) Hfail))).
Defined.

(** A job that succeeds leaves two rows for its frame, neither a sentinel;
    a job that fails in both attempts leaves two sentinel rows. *)
Lemma one_row_per_job_counterexample :
  let o := Queue.opts (Queue.addInferenceJob [] sample_job).2 in
  let done := Queue.lifecycle o (handler (λ _, smooth) sample_job) sample_store in
  let failed := Queue.lifecycle o (handler (λ _, insert_refused) sample_job) sample_store in
  (done.1 = [Queue.Waiting; Queue.Active 1; Queue.Completed] ∧
   non_sentinels 1 (new_rows sample_store done.2) = 2%nat) ∧
  (failed.1 = [Queue.Waiting; Queue.Active 1; Queue.Retrying 1 5000; Queue.Active 2;
               Queue.Failed] ∧
   sentinels 1 (new_rows sample_store failed.2) = 2%nat).
Proof. repeat split; reflexivity. Qed.

End worker.

(** * Further properties *)

(** ** The connection manager: broadcasts, statistics, shutdown *)
Section connection_manager_more.
Context {runtime : Runtime}.

Lemma broadcast_loop w data ex (m : gmap ws ClientInfo) :
  let r := map_fold (λ c (_ : ClientInfo) acc,
                       if bool_decide (Some c ≠ ex) then send_step data c acc else acc)
                    (w, 0%nat) m in
  r.2 = size (filter (λ c, is_open w c = true ∧ Some c ≠ ex) (dom m)) ∧
  (∀ c, sockets r.1 !! c =
        if decide (c ∈ dom m ∧ is_open w c = true ∧ Some c ≠ ex)
        then push (serialize data) <$> sockets w !! c
        else sockets w !! c) ∧
  clients r.1 = clients w ∧ sessions r.1 = sessions w ∧
  emitted r.1 = emitted w ∧ console r.1 = console w.
Proof.
  simpl.
  pose (P := λ (r : World * nat) (m : gmap ws ClientInfo),
    r.2 = size (filter (λ c, is_open w c = true ∧ Some c ≠ ex) (dom m)) ∧
    (∀ c, sockets r.1 !! c =
          if decide (c ∈ dom m ∧ is_open w c = true ∧ Some c ≠ ex)
          then push (serialize data) <$> sockets w !! c
          else sockets w !! c) ∧
    clients r.1 = clients w ∧ sessions r.1 = sessions w ∧
    emitted r.1 = emitted w ∧ console r.1 = console w).
  apply (map_fold_weak_ind P); unfold P; clear P.
  - simpl. rewrite dom_empty_L, filter_empty_L by apply _. rewrite size_empty.
    repeat split; done.
  - intros i x m' [w1 n] Hi (Hn & Hs & Hc & Hse & He & Hl). simpl in *.
    assert (i ∉ dom m') as Hdom by (by apply not_elem_of_dom).
    assert (is_open w1 i = is_open w i) as Hopen.
    { unfold is_open. rewrite Hs. rewrite decide_False; [done|]. by intros [? _]. }
    rewrite dom_insert_L, filter_union_L by apply _.
    destruct (decide (is_open w i = true ∧ Some i ≠ ex)) as [[Ho Hex]|Hno].
    + rewrite bool_decide_true by done. unfold send_step. simpl.
      rewrite sendToClient_open by congruence. simpl.
      rewrite filter_singleton_True_L by (done || apply _).
      rewrite size_union
        by (apply disjoint_singleton_l; rewrite elem_of_filter; tauto).
      rewrite size_singleton, Hn. repeat split; try done.
      intros c. rewrite lookup_alter. destruct (decide (i = c)) as [<-|Hne].
      * rewrite Hs. rewrite decide_False by (by intros [? _]).
        rewrite decide_True; [done|]. split; [|done].
        apply elem_of_union_l. by apply elem_of_singleton.
      * rewrite Hs. apply decide_ext. rewrite elem_of_union, elem_of_singleton.
        split; intros (Hin & ? & ?); (split; [|done]); [by right|].
        by destruct Hin as [->|Hin].
    + rewrite filter_singleton_False_L by (done || apply _). rewrite union_empty_l_L.
      assert ((if bool_decide (Some i ≠ ex) then send_step data i (w1, n) else (w1, n))
              = (w1, n)) as ->.
      { case_bool_decide as Hex; [|done]. unfold send_step. simpl.
        rewrite sendToClient_not_open; [done|]. rewrite Hopen.
        destruct (is_open w i); [|done]. exfalso. by apply Hno. }
      simpl. repeat split; try done.
      intros c. rewrite Hs. apply decide_ext. rewrite elem_of_union, elem_of_singleton.
      split; intros (Hin & ? & ?); (split; [|done]); [by right|].
      destruct Hin as [->|Hin]; [|done]. exfalso. by apply Hno.
Qed.

(** X1.  A broadcast writes the serialised event once to every registered
    socket that is open and is not the excluded one, returns their number,
    and touches no other socket and nothing of the registry; with a sender
    excluded, the sender's socket is as it was. *)
Theorem broadcast_delivers (w : World) (data : Data) (excludeWs : option ws) (sender : ws) :
  let targets := broadcast_targets w excludeWs in
  let r := broadcast w data excludeWs in
  r.2 = size targets ∧
  (∀ c, c ∈ targets → sockets r.1 !! c = push (serialize data) <$> sockets w !! c) ∧
  (∀ c, c ∉ targets → sockets r.1 !! c = sockets w !! c) ∧
  clients r.1 = clients w ∧ sessions r.1 = sessions w ∧
  emitted r.1 = emitted w ∧ console r.1 = console w ∧
  sockets (broadcastExcept w data sender).1 !! sender = sockets w !! sender.
Proof.
  unfold broadcast_targets, broadcastExcept, broadcast. simpl.
  pose proof (broadcast_loop w data excludeWs (clients w)) as (Hn & Hs & Hc & Hse & He & Hl).
  pose proof (broadcast_loop w data (Some sender) (clients w)) as (_ & Hs' & _).
  simpl in *. repeat split; try done.
  - intros c (Hop & Hin)%elem_of_filter. rewrite Hs. rewrite decide_True; [done|]. tauto.
  - intros c Hc'. rewrite Hs. rewrite decide_False; [done|].
    intros (Hin & Hop). apply Hc'. by apply elem_of_filter.
  - rewrite Hs'. rewrite decide_False; [done|]. by intros (_ & _ & ?).
Qed.


Lemma sessions_le_clients w : consistent w → (size (sessions w) ≤ size (clients w))%nat.
Proof.
  intros (_ & H2 & H3).
  rewrite <-(size_dom (D:=gset string) (sessions w)), <-(size_dom (D:=gset ws) (clients w)).
  unfold size, set_size. simpl.
  set (pick := λ sid : string,
         default 1%positive (head (elements (default ∅ (sessions w !! sid))))).
  assert (∀ sid, sid ∈ dom (sessions w) →
            ∃ clientInfo, clients w !! pick sid = Some clientInfo ∧
                          sessionId clientInfo = sid) as Hpick.
  { intros sid [X HX]%elem_of_dom. unfold pick. rewrite HX. simpl.
    destruct (elements X) as [|c l] eqn:Hel.
    - apply elements_empty_inv in Hel. apply leibniz_equiv in Hel. by destruct (H3 sid X HX).
    - simpl. apply (H2 sid X c HX). apply elem_of_elements. rewrite Hel. by left. }
  rewrite <-(length_fmap pick (elements (dom (sessions w)))).
  apply submseteq_length, NoDup_submseteq.
  - apply NoDup_fmap_2_strong; [|apply NoDup_elements].
    intros sid1 sid2 Hin1%elem_of_elements Hin2%elem_of_elements Heq.
    destruct (Hpick sid1 Hin1) as (ci1 & Hc1 & <-).
    destruct (Hpick sid2 Hin2) as (ci2 & Hc2 & <-).
    rewrite Heq in Hc1. congruence.
  - intros c (sid & -> & Hin%elem_of_elements)%list_elem_of_fmap.
    destruct (Hpick sid Hin) as (ci & Hc & _).
    apply elem_of_elements, elem_of_dom. by eexists.
Qed.

(** X2.  Whatever happened to the service, its statistics never count
    more sessions than connections, count no session when no connection is
    held, and list one entry per connection. *)
Theorem getStats_counts (evs : list Event) :
  let stats := getStats (run init evs) in
  (totalSessions stats ≤ totalConnections stats)%nat ∧
  (totalConnections stats = 0%nat → totalSessions stats = 0%nat) ∧
  List.length (connections stats) = totalConnections stats.
Proof.
  simpl. destruct init_invariant as [Ha Hc].
  destruct (run_invariant evs init Ha Hc) as [_ Hcons].
  pose proof (sessions_le_clients _ Hcons) as Hle.
  repeat split; [done|lia|]. by rewrite length_fmap, length_map_to_list.
Qed.

(** X3.  Whatever happened to the service, [getSessionClients] lists,
    without repetition, exactly the registered sockets whose recorded
    session is the one asked for; it lists nothing for a session the
    registry does not hold. *)
Theorem getSessionClients_registered (evs : list Event) (sid : string) (c : ws) :
  let w := run init evs in
  NoDup (getSessionClients w sid) ∧
  (c ∈ getSessionClients w sid ↔
   ∃ clientInfo, clients w !! c = Some clientInfo ∧ sessionId clientInfo = sid) ∧
  (sessions w !! sid = None → getSessionClients w sid = []).
Proof.
  simpl. destruct init_invariant as [Ha Hc].
  destruct (run_invariant evs init Ha Hc) as [_ (H1 & H2 & _)].
  unfold getSessionClients. split; [apply NoDup_elements|]. split.
  - rewrite elem_of_elements. split.
    + destruct (sessions (run init evs) !! sid) as [X|] eqn:HX; simpl.
      * intros Hin. by apply (H2 sid X).
      * intros Hin. by apply not_elem_of_empty in Hin.
    + intros (ci & Hci & <-). destruct (H1 c ci Hci) as (X & -> & Hin). done.
  - intros ->. simpl. apply elements_empty.
Qed.


(** *** Objects: a write and a read *)

Lemma assoc_app k l1 l2 :
  assoc k (l1 ++ l2) = match assoc k l1 with Some v => Some v | None => assoc k l2 end.
Proof.
  induction l1 as [|[k0 v0] rest IH]; simpl; [done|]. by destruct (String.eqb k0 k).
Qed.

Lemma obj_replace_Some key v fields fields' k :
  obj_replace key v fields = Some fields' →
  assoc k fields' = if String.eqb key k then Some v else assoc k fields.
Proof.
  revert fields'. induction fields as [|[k0 old] rest IH]; intros fields'; simpl; [done|].
  destruct (String.eqb k0 key) eqn:E0.
  - intros [= <-]. simpl. apply String.eqb_eq in E0. subst k0.
    by destruct (String.eqb key k).
  - destruct (obj_replace key v rest) as [rest'|]; [|done]. intros [= <-]. simpl.
    destruct (String.eqb k0 k) eqn:E1; [|by apply IH].
    apply String.eqb_eq in E1. subst k0. rewrite String.eqb_sym in E0. by rewrite E0.
Qed.

Lemma obj_replace_None key v fields :
  obj_replace key v fields = None → assoc key fields = None.
Proof.
  induction fields as [|[k0 old] rest IH]; simpl; [done|].
  destruct (String.eqb k0 key); [done|].
  destruct (obj_replace key v rest); [done|]. intros _. by apply IH.
Qed.

Lemma assoc_obj_insert_index i key v fields k :
  assoc key fields = None →
  assoc k (obj_insert_index i key v fields) =
  if String.eqb key k then Some v else assoc k fields.
Proof.
  induction fields as [|[k0 old] rest IH]; simpl; [done|].
  destruct (String.eqb k0 key) eqn:E0; [done|]. intros Hnone.
  assert (String.eqb k0 k = true → String.eqb key k = false) as Hother.
  { intros ->%String.eqb_eq. by rewrite String.eqb_sym. }
  destruct (array_index k0) as [j|]; [destruct (j <? i)%N|]; simpl;
    destruct (String.eqb k0 k) eqn:E1; try done;
    rewrite ?Hother by done; try done.
  by apply IH.
Qed.

Lemma assoc_obj_set key v fields k :
  assoc k (obj_set key v fields) =
  if String.eqb key k then Some v else assoc k fields.
Proof.
  unfold obj_set. destruct (obj_replace key v fields) as [fields'|] eqn:Hr.
  - by apply obj_replace_Some.
  - apply obj_replace_None in Hr. destruct (array_index key) as [i|].
    + by apply assoc_obj_insert_index.
    + rewrite assoc_app. simpl. destruct (String.eqb key k) eqn:E.
      * apply String.eqb_eq in E. subst k. by rewrite Hr.
      * by destruct (assoc k fields).
Qed.

(** A read after [{ ...target, ...source }]: the last write of [source]
    to the key if there is one, the target's value otherwise. *)
Lemma assoc_assign k target source :
  assoc k (assign target source) =
  match assoc k (rev source) with Some v => Some v | None => assoc k target end.
Proof.
  unfold assign. revert target.
  induction source as [|[k0 v0] rest IH]; intros target; simpl; [done|].
  rewrite IH, assoc_app, assoc_obj_set. simpl.
  destruct (assoc k (rev rest)); [done|]. by destruct (String.eqb k0 k).
Qed.

Lemma obj_replace_fresh key v fields :
  key ∉ fields.*1 → obj_replace key v fields = None.
Proof.
  induction fields as [|[k0 old] rest IH]; simpl; [done|].
  intros [Hne Hrest]%not_elem_of_cons.
  destruct (String.eqb k0 key) eqn:E; [by apply String.eqb_eq in E|]. by rewrite IH.
Qed.

(** Keys that are new and are not array indices are added at the end, in
    their order. *)
Lemma assign_fresh target source :
  NoDup source.*1 →
  (∀ k, k ∈ source.*1 → array_index k = None ∧ k ∉ target.*1) →
  assign target source = target ++ source.
Proof.
  unfold assign. revert target.
  induction source as [|[k v] rest IH]; intros target Hnd Hnew; simpl.
  - by rewrite app_nil_r.
  - apply NoDup_cons in Hnd as [Hk Hnd].
    destruct (Hnew k) as [Hidx Hfresh]; [by left|].
    unfold obj_set at 2. rewrite obj_replace_fresh, Hidx by done.
    rewrite IH; [by rewrite <-app_assoc|done|].
    intros k' Hin. destruct (Hnew k') as [Hidx' Hfresh']; [by right|].
    split; [done|]. rewrite fmap_app. simpl.
    intros [Hin'|Hin']%elem_of_app; [done|].
    apply list_elem_of_singleton in Hin'. by subst k'.
Qed.

(** X4.  [updateClientMetadata] merges the given fields over the stored
    metadata of the socket: a key reads the value given last, or the
    stored value when none is given; the socket's session, liveness flag,
    address and connect time, every other client, the sessions and the
    sockets are as they were, so the registry stays consistent; for a
    socket that is not registered nothing changes. *)
Theorem updateClientMetadata_merges (w : World) (c : ws) (extra : list (string * json)) :
  let w' := updateClientMetadata w c extra in
  match clients w !! c with
  | Some clientInfo =>
      ∃ clientInfo', clients w' !! c = Some clientInfo' ∧
        sessionId clientInfo' = sessionId clientInfo ∧
        isAlive clientInfo' = isAlive clientInfo ∧
        ip clientInfo' = ip clientInfo ∧ connectedAt clientInfo' = connectedAt clientInfo ∧
        ∀ k, assoc k (metadata clientInfo') =
             match assoc k (rev extra) with
             | Some v => Some v
             | None => assoc k (metadata clientInfo)
             end
  | None => w' = w
  end ∧
  (∀ c', c' ≠ c → clients w' !! c' = clients w !! c') ∧
  sessions w' = sessions w ∧ sockets w' = sockets w ∧
  (consistent w → consistent w').
Proof.
  simpl. unfold updateClientMetadata. split; [|split; [|split; [done|split; [done|]]]].
  - destruct (clients w !! c) as [ci|] eqn:Hci.
    + eexists. simpl. rewrite lookup_alter_eq, Hci. simpl. split; [done|].
      do 4 (split; [done|]). intros k. apply assoc_assign.
    + unfold set_clients. destruct w. simpl in *. f_equal.
      apply map_eq. intros c'. rewrite lookup_alter.
      destruct (decide (c = c')) as [<-|]; [by rewrite Hci|done].
  - intros c' Hne. simpl. by rewrite lookup_alter_ne.
  - apply consistent_ext; [done|]. intros c'. simpl. rewrite lookup_alter.
    destruct (decide (c = c')) as [<-|]; [|done]. by destruct (clients w !! c).
Qed.


(** *** Shutdown *)

Lemma ws_close_not_open s : (readyState_code (readyState (ws_close s)) =? 1)%nat = false.
Proof. unfold ws_close. destruct (readyState s) eqn:E; simpl; by rewrite ?E. Qed.

Lemma close_loop w1 (m : gmap ws ClientInfo) :
  let r := map_fold (λ c (_ : ClientInfo) (acc : World * list (ws * Z * string)),
                       (set_sockets (alter ws_close c) acc.1,
                        acc.2 ++ [(c, 1001, "Server shutdown")]))
                    (w1, []) m in
  clients r.1 = clients w1 ∧ sessions r.1 = sessions w1 ∧
  (∀ c, sockets r.1 !! c =
        if decide (c ∈ dom m) then ws_close <$> sockets w1 !! c else sockets w1 !! c) ∧
  (∀ c code reason, (c, code, reason) ∈ r.2 ↔
                    c ∈ dom m ∧ code = 1001 ∧ reason = "Server shutdown") ∧
  List.length r.2 = size m.
Proof.
  simpl.
  pose (P := λ (r : World * list (ws * Z * string)) (m : gmap ws ClientInfo),
    clients r.1 = clients w1 ∧ sessions r.1 = sessions w1 ∧
    (∀ c, sockets r.1 !! c =
          if decide (c ∈ dom m) then ws_close <$> sockets w1 !! c else sockets w1 !! c) ∧
    (∀ c code reason, (c, code, reason) ∈ r.2 ↔
                      c ∈ dom m ∧ code = 1001 ∧ reason = "Server shutdown") ∧
    List.length r.2 = size m).
  apply (map_fold_weak_ind P); unfold P; clear P.
  - simpl. rewrite dom_empty_L, map_size_empty.
    split; [done|]. split; [done|]. split; [done|]. split; [|done].
    intros c code reason. split.
    + intros Hin. by apply elem_of_nil in Hin.
    + intros (Hin & _). by apply not_elem_of_empty in Hin.
  - intros i x m' [w2 calls] Hi (Hc & Hse & Hs & Hcalls & Hlen). simpl in *.
    assert (i ∉ dom m') as Hdom by (by apply not_elem_of_dom).
    rewrite dom_insert_L. split; [done|]. split; [done|]. split; [|split].
    + intros c. rewrite lookup_alter. destruct (decide (i = c)) as [<-|Hne]; rewrite Hs.
      * rewrite decide_False by done. rewrite decide_True; [done|].
        apply elem_of_union_l. by apply elem_of_singleton.
      * apply decide_ext. rewrite elem_of_union, elem_of_singleton.
        split; [by right|]. by intros [->|?].
    + intros c code reason. rewrite elem_of_app, list_elem_of_singleton, Hcalls.
      rewrite elem_of_union, elem_of_singleton. split.
      * intros [(? & ? & ?)|[= -> -> ->]]; [by auto|]. split; [by left|done].
      * intros ([->|?] & -> & ->); [by right|]. by left.
    + rewrite length_app, Hlen. simpl. rewrite map_size_insert_None by done. lia.
Qed.

(** X5.  Shutdown leaves no registered socket open: every registered
    socket that was open is sent the shutdown notice once and then starts
    closing, every registered socket is asked to close with code 1001 and
    the reason [Server shutdown], once, and the sockets that are not
    registered and the registry itself are as they were. *)
Theorem shutdown_closes (w : World) :
  let r := shutdown w in
  clients r.1 = clients w ∧ sessions r.1 = sessions w ∧
  (∀ c, sockets r.1 !! c =
        if decide (c ∈ dom (clients w))
        then ws_close <$> (if is_open w c
                           then push (serialize shutdown_notice) <$> sockets w !! c
                           else sockets w !! c)
        else sockets w !! c) ∧
  (∀ c, c ∈ dom (clients w) → is_open r.1 c = false) ∧
  (∀ c code reason, (c, code, reason) ∈ r.2 ↔
                    c ∈ dom (clients w) ∧ code = 1001 ∧ reason = "Server shutdown") ∧
  List.length r.2 = size (clients w).
Proof.
  unfold shutdown. simpl.
  pose proof (broadcast_loop w shutdown_notice None (clients w))
    as (_ & Hs1 & Hc1 & Hse1 & _).
  unfold broadcast. simpl in *.
  set (w1 := (map_fold _ (w, 0%nat) (clients w)).1) in *.
  pose proof (close_loop w1 (clients w1)) as (Hc & Hse & Hs & Hcalls & Hlen).
  simpl in *. rewrite Hc1 in *.
  assert (∀ c, sockets
                 (map_fold (λ c (_ : ClientInfo) (acc : World * list (ws * Z * string)),
                              (set_sockets (alter ws_close c) acc.1,
                               acc.2 ++ [(c, 1001, "Server shutdown")]))
                           (w1, []) (clients w)).1 !! c =
               if decide (c ∈ dom (clients w))
               then ws_close <$> (if is_open w c
                                  then push (serialize shutdown_notice) <$> sockets w !! c
                                  else sockets w !! c)
               else sockets w !! c) as Hsock.
  { intros c. rewrite Hs, Hs1. destruct (decide (c ∈ dom (clients w))) as [Hin|Hout].
    - destruct (is_open w c) eqn:Ho.
      + rewrite decide_True; [done|]. by repeat split.
      + rewrite decide_False; [done|]. intros (_ & ? & _). congruence.
    - rewrite decide_False; [done|]. by intros (? & _). }
  split; [congruence|]. split; [congruence|]. split; [done|]. split; [|done].
  intros c Hin. unfold is_open at 1. rewrite Hsock, decide_True by done.
  destruct (is_open w c); destruct (sockets w !! c); simpl; try done;
    apply ws_close_not_open.
Qed.


(** *** Messages from the bus *)

Lemma sendToSession_sockets w sid data :
  let r := sendToSession w sid data in
  (∀ c, c ∈ live_connections w sid →
        sockets r.1 !! c = push (serialize data) <$> sockets w !! c) ∧
  (∀ c, c ∉ live_connections w sid → sockets r.1 !! c = sockets w !! c) ∧
  clients r.1 = clients w ∧ sessions r.1 = sessions w.
Proof.
  unfold live_connections, sendToSession.
  destruct (sessions w !! sid) as [X|] eqn:HX; simpl; [|done].
  pose proof (send_loop w data X) as (_ & Hs & Hc & Hse & _). simpl in *.
  repeat split; try done.
  - intros c [Hop Hin]%elem_of_filter. rewrite Hs. by rewrite decide_True.
  - intros c Hc'. rewrite Hs. rewrite decide_False; [done|].
    intros [Hin Hop]. apply Hc'. by apply elem_of_filter.
Qed.

(** X6.  A message on the channel [inference-results] that names a
    session is written to the live sockets of that session and to no other
    socket, and the registry is as it was.  What is written is the text of
    the message's fields written over an object that has the type
    [inference_complete]: every field of the message is carried, and the
    type is [inference_complete] unless the message has a [type] field of
    its own, which then stands.  For a message with no [type] field and no
    key that is an array index, as the results of the worker are, it is
    the message with the type put in front. *)
Theorem onRedisMessage_inference (w : World) (message : string)
    (fields : list (string * json)) (sid : string) :
  JSON_parse message = Some (JObj fields) →
  assoc "sessionId" fields = Some (JStr sid) → sid ≠ "" →
  let payload := JObj (assign [("type", JStr "inference_complete")] fields) in
  let r := onRedisMessage w "inference-results" message in
  r.2 = [] ∧
  (∀ c, c ∈ live_connections w sid →
        sockets r.1 !! c = push (JSON_stringify payload) <$> sockets w !! c) ∧
  (∀ c, c ∉ live_connections w sid → sockets r.1 !! c = sockets w !! c) ∧
  clients r.1 = clients w ∧ sessions r.1 = sessions w ∧
  (∀ k, prop k payload =
        match assoc k (rev fields) with
        | Some v => Some v
        | None => if String.eqb "type" k then Some (JStr "inference_complete") else None
        end) ∧
  (NoDup fields.*1 →
   (∀ k, k ∈ fields.*1 → array_index k = None ∧ k ≠ "type") →
   payload = JObj (("type", JStr "inference_complete") :: fields)).
Proof.
  intros Hparse Hsid Hne. simpl. unfold onRedisMessage. rewrite Hparse. simpl.
  rewrite Hsid. simpl. apply String.eqb_neq in Hne. rewrite Hne. simpl.
  pose proof (sendToSession_sockets w sid
    (DObject (JObj (assign [("type", JStr "inference_complete")] fields))))
    as (Hlive & Hother & Hc & Hse).
  simpl in *.
  split; [done|]. split; [done|]. split; [done|]. split; [done|]. split; [done|].
  split.
  - intros k. by rewrite assoc_assign.
  - intros Hnd Hkeys. rewrite assign_fresh; [done|done|].
    intros k Hin. destruct (Hkeys k Hin) as [Hidx Htype]. split; [done|].
    simpl. intros Hin'. apply list_elem_of_singleton in Hin'. done.
Qed.

(** X7.  What the bus handler drops: a message that is not JSON, and a
    [null] message on a channel that reads its session, are logged as
    errors; a message on a channel the service does not know is logged as
    such; an inference result that names no session, or whose session is
    not a string, is dropped without a line.  In each case nothing is
    written to any socket and the state is as it was. *)
Theorem onRedisMessage_drops (w : World) (channel message : string) :
  match JSON_parse message with
  | None => onRedisMessage w channel message = (w, [LRedisMessageError])
  | Some data =>
      (channel ∉ ["blink-updates"; "sensor-updates"; "inference-results"; "broadcast"] →
       onRedisMessage w channel message = (w, [LUnknownChannel channel])) ∧
      (data = JNull → channel = "inference-results" ∨ channel = "blink-updates" →
       onRedisMessage w channel message = (w, [LRedisMessageError])) ∧
      (data ≠ JNull → channel = "inference-results" →
       (truthy (prop "sessionId" data) = false ∨
        ∀ sid, prop "sessionId" data ≠ Some (JStr sid)) →
       onRedisMessage w channel message = (w, []))
  end.
Proof.
  unfold onRedisMessage. destruct (JSON_parse message) as [data|]; [|done].
  split; [|split].
  - rewrite !elem_of_cons, elem_of_nil. intros Hnot.
    destruct (String.eqb channel "blink-updates") eqn:E1.
    { apply String.eqb_eq in E1. exfalso. apply Hnot. by left. }
    destruct (String.eqb channel "sensor-updates") eqn:E2.
    { apply String.eqb_eq in E2. exfalso. apply Hnot. by right; left. }
    destruct (String.eqb channel "inference-results") eqn:E3.
    { apply String.eqb_eq in E3. exfalso. apply Hnot. by right; right; left. }
    destruct (String.eqb channel "broadcast") eqn:E4.
    { apply String.eqb_eq in E4. exfalso. apply Hnot. by right; right; right; left. }
    done.
  - by intros -> [->| ->].
  - intros Hnull -> Hkey. simpl. unfold handleInferenceResults.
    destruct (truthy (prop "sessionId" data)) eqn:Ht.
    + destruct Hkey as [?|Hkey]; [done|]. unfold sendToSessionKey.
      destruct (prop "sessionId" data) as [[| | |sid| |]|] eqn:Hp; simpl;
        try (by destruct data); by destruct (Hkey sid).
    + by destruct data.
Qed.

(** X8.  Whatever the channel and the message, the bus handler leaves the
    registry as it was and does nothing to a socket but write frames to it;
    a consistent registry stays consistent. *)
Theorem onRedisMessage_quiet (w : World) (channel message : string) :
  quiet w (onRedisMessage w channel message).1 ∧
  (consistent w → consistent (onRedisMessage w channel message).1).
Proof.
  assert (quiet w (onRedisMessage w channel message).1) as Hq.
  { unfold onRedisMessage, handleBlinkUpdate, handleSensorUpdate, handleInferenceResults,
      sendToSessionKey.
    repeat case_match; simplify_eq; simpl;
      try apply quiet_refl; try apply broadcast_quiet; try apply sendToSession_quiet. }
  split; [done|]. by apply quiet_consistent.
Qed.

End connection_manager_more.

(** ** The event emitter *)
Section emitter.
Context {P St : Type}.
Implicit Types (table : gmap string (list (Emitter.Handler (P:=P) (St:=St)))).

Lemma on_lookup table event handler event' :
  Emitter.on event handler table !! event' =
  if decide (event = event')
  then Some (default [] (table !! event) ++ [handler])
  else table !! event'.
Proof.
  unfold Emitter.on. destruct (table !! event) as [handlers|] eqn:Ht.
  - rewrite lookup_alter. destruct (decide (event = event')) as [<-|]; [|done].
    by rewrite Ht.
  - rewrite lookup_alter. destruct (decide (event = event')) as [<-|].
    + by rewrite lookup_insert_eq.
    + by rewrite lookup_insert_ne.
Qed.

(** X9.  Registering a handler and emitting: the handlers registered
    earlier for the event run first, in their order, and the new one runs
    last on the state they leave, whether or not one of them threw; an
    error is counted for each handler that throws; emitting another event
    runs what it ran before; an event without handlers changes nothing. *)
Theorem emit_on table (event event' : string) (handler : Emitter.Handler) (data : P)
    (st : St) :
  Emitter.emit (Emitter.on event handler table) event data st =
    Emitter.call_handler data (Emitter.emit table event data st) handler ∧
  (event' ≠ event →
   Emitter.emit (Emitter.on event handler table) event' data st =
     Emitter.emit table event' data st) ∧
  (table !! event = None → Emitter.emit table event data st = (st, 0%nat)).
Proof.
  unfold Emitter.emit. split; [|split].
  - rewrite on_lookup, decide_True by done.
    destruct (table !! event) as [handlers|]; simpl; [|done]. by rewrite foldl_app.
  - intros Hne. by rewrite on_lookup, decide_False.
  - by intros ->.
Qed.

End emitter.

(** ** The broker connection *)

(** X11.  The wait before a reconnection to the broker grows by 50 ms with
    every attempt and stops growing at 2000 ms, which it reaches at the
    fortieth attempt; it never decreases from one attempt to the next. *)
Theorem retryStrategy_capped (times times' : Z) :
  (Redis.retryStrategy times ≤ 2000)%Z ∧
  (times ≤ times' → Redis.retryStrategy times ≤ Redis.retryStrategy times')%Z ∧
  (Redis.retryStrategy times = 2000 ↔ 40 ≤ times)%Z ∧
  (times ≤ 40 → Redis.retryStrategy times = times * 50)%Z.
Proof. unfold Redis.retryStrategy. lia. Qed.

(** ** The worker: what an attempt publishes and reports *)
Section worker_more.
Import Worker.

Lemma log_trace l st :
  ∃ st1, log l st = (Ok tt, st1) ∧ inference_results st1 = inference_results st ∧
         frames st1 = frames st ∧ published st1 = published st ∧ progress st1 = progress st.
Proof. by eexists. Qed.

Lemma updateProgress_trace att p st r st1 :
  updateProgress att p st = (r, st1) →
  published st1 = published st ∧
  match r with
  | Ok _ => progress st1 = progress st ++ [p]
  | Throw e => progress st1 = progress st
  end.
Proof.
  unfold updateProgress. intros [(e & _ & -> & ->)|(_ & -> & ->)]%call_inv; done.
Qed.

Lemma runInference_trace att key model st :
  ∃ st1, runInference att key model st = (Ok (reply_of att key model), st1) ∧
         published st1 = published st ∧ progress st1 = progress st.
Proof.
  unfold runInference, reply_of. destruct (fetch att key model); eexists; split; done.
Qed.

Lemma processFrame_trace att fid key st r st1 :
  processFrame att fid key st = (r, st1) →
  published st1 = published st ∧ progress st1 = progress st.
Proof.
  unfold processFrame, try_catch.
  destruct (runInference_trace att key "emotion-esmd2/2" st) as (sa & Ha & Hpa & Hga).
  destruct (runInference_trace att key "redness-of-eyes-aju4x/1" sa) as (sb & Hb & Hpb & Hgb).
  unfold mbind at 1, M_bind at 1. rewrite Ha.
  unfold mbind at 1, M_bind at 1. rewrite Hb.
  destruct (first_prediction (reply_of att key "emotion-esmd2/2")) as [el ec].
  destruct (first_prediction (reply_of att key "redness-of-eyes-aju4x/1")) as [rl rc].
  unfold mbind, M_bind, call, ret, mret, M_ret, log, throw.
  destruct (query_rejects att) as [e|]; simpl; intros; simplify_eq; simpl;
    split; congruence.
Qed.

Lemma create_trace rejects row st r st1 :
  InferenceResult_create rejects row st = (r, st1) →
  published st1 = published st ∧ progress st1 = progress st.
Proof.
  unfold InferenceResult_create, call, throw, mbind, M_bind, ret, mret, M_ret.
  destruct (valid_confidence _ && valid_confidence _); destruct rejects;
    intros; by simplify_eq.
Qed.

Lemma markFrameProcessed_trace att fid st r st1 :
  markFrameProcessed att fid st = (r, st1) →
  published st1 = published st ∧ progress st1 = progress st.
Proof.
  unfold markFrameProcessed. intros [(e & _ & -> & ->)|(_ & -> & ->)]%call_inv; done.
Qed.

Lemma publish_step_trace att job st r st1 :
  match sessionId job with
  | Some sid =>
      if String.eqb sid "" then ret tt
      else publish att "inference-results"
             (mkResultEvent sid (frameId job) (scores_of att job) (elapsed att))
  | None => ret tt
  end st = (r, st1) →
  progress st1 = progress st ∧
  match r with
  | Ok _ => published st1 = published st ++ publication att job
  | Throw e => published st1 = published st
  end.
Proof.
  unfold publication, publish, call, ret, mret, M_ret.
  destruct (sessionId job) as [sid|]; [destruct (String.eqb sid "")|];
    try destruct (publish_rejects att); intros; simplify_eq; simpl;
    by rewrite ?app_nil_r.
Qed.

Ltac walk H Hm s :=
  let e := fresh "e" in let a := fresh "a" in
  apply bind_inv in H as [(e & Hm & ->) | (a & s & Hm & H)].

(** The trace of the [try] block. *)
Lemma try_trace att job st r st1 :
  processInferenceJob_try att job st = (r, st1) →
  match r with
  | Ok _ =>
      published st1 = published st ++ publication att job ∧
      progress st1 = progress st ++ [10; 70; 90; 100]%nat
  | Throw e =>
      (published st1 = published st ∨
       published st1 = published st ++ publication att job ∧
       updateProgress_rejects att 100 = Some e) ∧
      ∃ n, (n ≤ 3)%nat ∧ progress st1 = progress st ++ take n [10; 70; 90; 100]%nat
  end.
Proof.
  unfold processInferenceJob_try. intros H.
  destruct (log_trace (LProcessing (frameId job)) st) as (sl & Hlog & _ & _ & Hp0 & Hg0).
  walk H Hm1 s1; rewrite Hlog in Hm1; [done|]. injection Hm1 as <- <-. clear Hlog.
  walk H Hm2 s2; apply updateProgress_trace in Hm2 as (Hp2 & Hg2).
  { split; [left; congruence|]. exists 0%nat. split; [lia|]. simpl. rewrite app_nil_r.
    congruence. }
  assert (published s2 = published st) as Hp by congruence.
  assert (progress s2 = progress st ++ [10%nat]) as Hg by congruence.
  clear Hp0 Hg0 Hp2 Hg2.
  walk H Hm3 s3; pose proof (processFrame_spec _ _ _ _ _ Hm3) as (_ & Hscores);
    apply processFrame_trace in Hm3 as (Hp3 & Hg3).
  { split; [left; congruence|]. exists 1%nat. split; [lia|]. simpl. congruence. }
  destruct Hscores as (-> & _).
  walk H Hm4 s4; apply updateProgress_trace in Hm4 as (Hp4 & Hg4).
  { split; [left; congruence|]. exists 1%nat. split; [lia|]. simpl. congruence. }
  assert (published s4 = published st) as Hp' by congruence.
  assert (progress s4 = progress st ++ [10; 70]%nat) as Hg'.
  { rewrite Hg4, Hg3, Hg, <-app_assoc. done. }
  clear Hp Hg Hp3 Hg3 Hp4 Hg4.
  walk H Hm5 s5; apply create_trace in Hm5 as (Hp5 & Hg5).
  { split; [left; congruence|]. exists 2%nat. split; [lia|]. simpl. congruence. }
  walk H Hm6 s6; apply updateProgress_trace in Hm6 as (Hp6 & Hg6).
  { split; [left; congruence|]. exists 2%nat. split; [lia|]. simpl. congruence. }
  assert (published s6 = published st) as Hp by congruence.
  assert (progress s6 = progress st ++ [10; 70; 90]%nat) as Hg.
  { rewrite Hg6, Hg5, Hg', <-app_assoc. done. }
  clear Hp' Hg' Hp5 Hg5 Hp6 Hg6.
  walk H Hm7 s7; apply markFrameProcessed_trace in Hm7 as (Hp7 & Hg7).
  { split; [left; congruence|]. exists 3%nat. split; [lia|]. simpl. congruence. }
  walk H Hm8 s8; apply publish_step_trace in Hm8 as (Hg8 & Hp8).
  { split; [left; congruence|]. exists 3%nat. split; [lia|]. simpl. congruence. }
  assert (published s8 = published st ++ publication att job) as Hp' by congruence.
  assert (progress s8 = progress st ++ [10; 70; 90]%nat) as Hg' by congruence.
  clear Hp Hg Hp7 Hg7 Hp8 Hg8.
  destruct (updateProgress_spec att 100 s8 (fst (updateProgress att 100 s8))
              (snd (updateProgress att 100 s8))) as (_ & _ & Hrej);
    [by destruct (updateProgress att 100 s8)|].
  walk H Hm9 s9; rewrite Hm9 in Hrej; simpl in Hrej;
    apply updateProgress_trace in Hm9 as (Hp9 & Hg9).
  { split; [right; split; [congruence|done]|].
    exists 3%nat. split; [lia|]. simpl. congruence. }
  destruct (log_trace (LCompleted (frameId job)) s9) as (sc & Hlog & _ & _ & Hpc & Hgc).
  walk H Hm10 s10; rewrite Hlog in Hm10; [done|]. injection Hm10 as <- <-.
  unfold ret, mret, M_ret in H. injection H as <- <-.
  split; [congruence|]. rewrite Hgc, Hg9, Hg', <-app_assoc. done.
Qed.

Lemma catch_trace att job e st :
  ∃ st1, processInferenceJob_catch att job e st = (Throw e, st1) ∧
    published st1 = published st ∧ progress st1 = progress st.
Proof.
  unfold processInferenceJob_catch, try_catch, InferenceResult_create,
    sentinel_row, mbind, M_bind, call, log, throw, ret, mret, M_ret.
  simpl. destruct (create_sentinel_rejects att) as [dbError|]; simpl; eexists;
    (split; [reflexivity|]); simpl; done.
Qed.

Lemma attempt_trace att job st :
  ∃ rt stt, processInferenceJob_try att job st = (rt, stt) ∧
    (processInferenceJob att job st).1 = rt ∧
    published (processInferenceJob att job st).2 = published stt ∧
    progress (processInferenceJob att job st).2 = progress stt.
Proof.
  unfold processInferenceJob, try_catch.
  destruct (processInferenceJob_try att job st) as [[v|e] stt] eqn:Htry.
  - by exists (Ok v), stt.
  - exists (Throw e), stt. split; [done|].
    destruct (catch_trace att job e stt) as (st1 & -> & Hp & Hg). done.
Qed.

(** X12.  What an attempt of the worker puts on the bus.  An attempt that
    succeeds publishes exactly one event, on [inference-results], with
    the job's session, its frame and the scores, when the job names a
    session, and nothing when it names none.  An attempt that fails has
    published nothing, unless the only call that failed is the last
    progress report: then the event is out although the job is retried.
    The error handler publishes nothing. *)
Theorem attempt_publishes (att : Attempt) (job : JobData) (st : Store) :
  let r := processInferenceJob att job st in
  match r.1 with
  | Ok _ => published r.2 = published st ++ publication att job
  | Throw e =>
      published r.2 = published st ∨
      published r.2 = published st ++ publication att job ∧
      updateProgress_rejects att 100 = Some e
  end ∧
  (has_session job = false → publication att job = []) ∧
  (has_session job = true →
   ∃ sid, sessionId job = Some sid ∧
          publication att job =
            [("inference-results",
              mkResultEvent sid (frameId job) (scores_of att job) (elapsed att))]).
Proof.
  simpl. split; [|split].
  - destruct (attempt_trace att job st) as (rt & stt & Htry & -> & -> & _).
    apply try_trace in Htry. destruct rt as [v|e]; [by destruct Htry|by destruct Htry].
  - unfold has_session, publication. destruct (sessionId job) as [sid|]; [|done].
    by destruct (String.eqb sid "").
  - unfold has_session, publication. destruct (sessionId job) as [sid|]; [|done].
    destruct (String.eqb sid ""); [done|]. intros _. by exists sid.
Qed.

(** X13.  The progress an attempt reports: 10, 70, 90 and 100 in this
    order when it succeeds, and when it fails the reports made before the
    failing call, which never include 100.  So a job whose progress shows
    100 has succeeded. *)
Theorem attempt_progress (att : Attempt) (job : JobData) (st : Store) :
  let r := processInferenceJob att job st in
  match r.1 with
  | Ok _ => progress r.2 = progress st ++ [10; 70; 90; 100]%nat
  | Throw _ =>
      ∃ n, (n ≤ 3)%nat ∧ progress r.2 = progress st ++ take n [10; 70; 90; 100]%nat
  end.
Proof.
  simpl. destruct (attempt_trace att job st) as (rt & stt & Htry & -> & _ & ->).
  apply try_trace in Htry. destruct rt as [v|e]; by destruct Htry.
Qed.

(** X14.  A confidence outside the interval from 0 to 1: the insert of
    [processFrame], which does not go through the model, stores it; the
    model then refuses the worker's own record, the attempt fails with a
    validation error whatever the other collaborators answer, the frame
    is not marked and nothing is published.  Every attempt of such a job
    ends so. *)
Theorem invalid_confidence_rejected (att : Attempt) (job : JobData) (st : Store) :
  updateProgress_rejects att 10 = None → query_rejects att = None →
  updateProgress_rejects att 70 = None →
  valid_confidence (emotionConf (scores_of att job)) &&
  valid_confidence (rednessConf (scores_of att job)) = false →
  let r := processInferenceJob att job st in
  r.1 = Throw "Validation error" ∧
  inference_results r.2 =
    inference_results st ++ raw_row att job :: recorded_sentinel att job ∧
  frames r.2 = frames st ∧ published r.2 = published st.
Proof.
  intros H10 Hq H70 Hv. simpl.
  destruct (processInferenceJob_spec att job st) as (rt & stt & Htry & Hspec).
  destruct (attempt_trace att job st) as (rt' & stt' & Htry' & _ & Hpub & _).
  rewrite Htry in Htry'. injection Htry' as <- <-.
  pose proof (try_trace _ _ _ _ _ Htry) as Htrace.
  assert (rt = Throw "Validation error" ∧
          inference_results stt = inference_results st ++ [raw_row att job] ∧
          frames stt = frames st ∧ published stt = published st) as (-> & Hr & Hf & Hp).
  { clear Hspec Hpub Htrace. unfold processInferenceJob_try in Htry. rename Htry into H.
    unfold scores_of in Hv. simpl in Hv.
    destruct (log_spec (LProcessing (frameId job)) st) as (sl & Hlog & Hr0 & Hf0).
    destruct (log_trace (LProcessing (frameId job)) st) as (sl' & Hlog' & _ & _ & Hp0 & _).
    rewrite Hlog in Hlog'. injection Hlog' as <-.
    walk H Hm1 s1; rewrite Hlog in Hm1; [done|]. injection Hm1 as <- <-. clear Hlog.
    walk H Hm2 s2; pose proof (updateProgress_trace _ _ _ _ _ Hm2) as (Hp2 & _);
      apply updateProgress_spec in Hm2 as (Hr2 & Hf2 & He2); [congruence|].
    walk H Hm3 s3; pose proof (processFrame_trace _ _ _ _ _ _ Hm3) as (Hp3 & _);
      apply processFrame_spec in Hm3 as (Hf3 & Hm3); [destruct Hm3; congruence|].
    destruct Hm3 as (-> & _ & Hr3).
    walk H Hm4 s4; pose proof (updateProgress_trace _ _ _ _ _ Hm4) as (Hp4 & _);
      apply updateProgress_spec in Hm4 as (Hr4 & Hf4 & He4); [congruence|].
    walk H Hm5 s5; pose proof (create_trace _ _ _ _ _ Hm5) as (Hp5 & _);
      apply create_spec in Hm5 as (Hf5 & Hm5); simpl in Hm5.
    - destruct Hm5 as [Hr5 [[Hv' _]|[_ ->]]]; [congruence|].
      split; [done|]. split; [|split; congruence].
      rewrite Hr5, Hr4, Hr3, Hr2, Hr0. done.
    - destruct Hm5 as (_ & _ & Hv' & _). congruence. }
  destruct Hspec as (st1 & Hrun & Hr1 & Hf1 & Hp1 & _). rewrite Hrun. simpl.
  split; [done|]. split; [|split; congruence].
  rewrite Hr1, Hr, <-app_assoc. done.
Qed.

Lemma invalid_confidence_rejected_witness :
  (updateProgress_rejects overconfident 10 = None ∧ query_rejects overconfident = None ∧
   updateProgress_rejects overconfident 70 = None ∧
   valid_confidence (emotionConf (scores_of overconfident sample_job)) &&
   valid_confidence (rednessConf (scores_of overconfident sample_job)) = false) ∧
  let r := processInferenceJob overconfident sample_job sample_store in
  r.1 = Throw "Validation error" ∧
  inference_results r.2 =
    inference_results sample_store ++
      raw_row overconfident sample_job :: recorded_sentinel overconfident sample_job ∧
  frames r.2 = frames sample_store ∧ published r.2 = published sample_store.
Proof.
  split; [repeat split; reflexivity|].
  apply (invalid_confidence_rejected overconfident sample_job sample_store);
    reflexivity.
Defined.

Lemma or_string_spec (a : option string) (b : string) :
  (∀ text, a = Some text → text ≠ "" → or_string a b = text) ∧
  (a = None ∨ a = Some "" → or_string a b = b).
Proof.
  unfold or_string. split.
  - intros text -> Hne. apply String.eqb_neq in Hne. by rewrite Hne.
  - by intros [-> | ->].
Qed.

Lemma or_number_spec (a b : option Q) :
  (∀ q, a = Some q → ¬ (q == 0)%Q → or_number a b = Some q) ∧
  (a = None ∨ (∃ q, a = Some q ∧ (q == 0)%Q) → or_number a b = b).
Proof.
  unfold or_number. split.
  - intros q -> Hne. destruct (Qeq_bool q 0) eqn:E; [|done].
    by apply Qeq_bool_eq in E.
  - intros [-> | (q & -> & Hq)]; [done|]. by rewrite (Qeq_eq_bool _ _ Hq).
Qed.

(** X15.  The label and the confidence [processFrame] takes from a reply
    of the scoring API are those of its first prediction: the label of
    the prediction when it has one that is not empty, otherwise its class
    when that is not empty, otherwise [Unknown]; the confidence of the
    prediction when it has one that is not zero, otherwise its score when
    that is not zero, otherwise null.  So the label is never the empty
    string and the confidence never zero; and a reply without
    predictions, an error reply among them, gives [Unknown] with no
    confidence. *)
Theorem first_prediction_defaults (reply : Reply) :
  (∀ pred rest, predictions reply = Some (pred :: rest) →
     let taken := first_prediction reply in
     (∀ text, label pred = Some text → text ≠ "" → taken.1 = text) ∧
     (label pred = None ∨ label pred = Some "" →
      (∀ text, class pred = Some text → text ≠ "" → taken.1 = text) ∧
      (class pred = None ∨ class pred = Some "" → taken.1 = "Unknown")) ∧
     (∀ q, confidence pred = Some q → ¬ (q == 0)%Q → taken.2 = Some q) ∧
     (confidence pred = None ∨ (∃ q, confidence pred = Some q ∧ (q == 0)%Q) →
      (∀ q, score pred = Some q → ¬ (q == 0)%Q → taken.2 = Some q) ∧
      (score pred = None ∨ (∃ q, score pred = Some q ∧ (q == 0)%Q) → taken.2 = None))) ∧
  (first_prediction reply).1 ≠ "" ∧
  (∀ q, (first_prediction reply).2 = Some q → ¬ (q == 0)%Q) ∧
  (predictions reply = None ∨ predictions reply = Some [] →
   first_prediction reply = ("Unknown", None)).
Proof.
  unfold first_prediction. split; [|split; [|split]].
  - intros pred rest ->. simpl.
    destruct (or_string_spec (label pred) (or_string (class pred) "Unknown")) as [Hl Hl'].
    destruct (or_string_spec (class pred) "Unknown") as [Hc Hc'].
    destruct (or_number_spec (confidence pred) (or_number (score pred) None)) as [Hq Hq'].
    destruct (or_number_spec (score pred) None) as [Hs Hs'].
    split; [done|]. split.
    { intros Hnone. rewrite (Hl' Hnone). by split. }
    split; [done|].
    intros Hnone. rewrite (Hq' Hnone). by split.
  - destruct (predictions reply) as [[|pred rest]|]; simpl; try done.
    unfold or_string. destruct (label pred) as [l|].
    + destruct (String.eqb l "") eqn:El; [|by apply String.eqb_neq].
      destruct (class pred) as [c|]; [|done].
      destruct (String.eqb c "") eqn:Ec; [done|by apply String.eqb_neq].
    + destruct (class pred) as [c|]; [|done].
      destruct (String.eqb c "") eqn:Ec; [done|by apply String.eqb_neq].
  - intros q. destruct (predictions reply) as [[|pred rest]|]; simpl; try done.
    unfold or_number.
    destruct (confidence pred) as [c|].
    + destruct (Qeq_bool c 0) eqn:Ec.
      * destruct (score pred) as [s|]; [|done].
        destruct (Qeq_bool s 0) eqn:Es; [done|].
        intros [= <-]. by apply Qeq_bool_neq.
      * intros [= <-]. by apply Qeq_bool_neq.
    + destruct (score pred) as [s|]; [|done].
      destruct (Qeq_bool s 0) eqn:Es; [done|].
      intros [= <-]. by apply Qeq_bool_neq.
  - by intros [->| ->].
Qed.

(** X16.  The earlier worker, which has no error handler: a job that
    completes leaves one row for its frame, the one [processFrame]
    inserts, and marks the frame; a job that fails leaves no record of
    the failure: nothing when the insert was refused, the scored row with
    the frame unmarked when the update was, so that a retry scores the
    frame again.  It publishes nothing and reports no progress. *)
Theorem legacy_worker_rows (att : Attempt) (job : JobData) (st : Store) :
  let r := LegacyWorker.processJob att job st in
  match r.1 with
  | Ok results =>
      results = scores_of att job ∧
      inference_results r.2 = inference_results st ++ [raw_row att job] ∧
      frames r.2 = alter mark_processed (frameId job) (frames st)
  | Throw e =>
      frames r.2 = frames st ∧
      (query_rejects att = Some e ∧ inference_results r.2 = inference_results st ∨
       query_rejects att = None ∧ update_rejects att = Some e ∧
       inference_results r.2 = inference_results st ++ [raw_row att job])
  end ∧
  published r.2 = published st ∧ progress r.2 = progress st.
Proof.
  simpl. destruct (LegacyWorker.processJob att job st) as [r st1] eqn:H. simpl.
  unfold LegacyWorker.processJob in H.
  destruct (log_trace (LProcessing (frameId job)) st) as (sl & Hlog & Hr0 & Hf0 & Hp0 & Hg0).
  walk H Hm1 s1; rewrite Hlog in Hm1; [done|]. injection Hm1 as <- <-. clear Hlog.
  walk H Hm2 s2; pose proof (processFrame_trace _ _ _ _ _ _ Hm2) as (Hp2 & Hg2);
    apply processFrame_spec in Hm2 as (Hf2 & Hm2).
  { destruct Hm2 as [Hq Hr2]. split; [|split; congruence].
    split; [congruence|]. left. split; [done|congruence]. }
  destruct Hm2 as (-> & Hq & Hr2).
  walk H Hm3 s3; pose proof (markFrameProcessed_trace _ _ _ _ _ Hm3) as (Hp3 & Hg3);
    apply markFrameProcessed_spec in Hm3 as (Hr3 & Hm3).
  { destruct Hm3 as [Hu Hf3]. split; [|split; congruence].
    split; [congruence|]. right. split; [done|]. split; [done|].
    rewrite Hr3, Hr2, Hr0. done. }
  destruct Hm3 as (_ & Hf3).
  unfold ret, mret, M_ret in H. injection H as <- <-.
  split; [|split; congruence].
  split; [done|]. split; [by rewrite Hr3, Hr2, Hr0|]. rewrite Hf3, Hf2, Hf0. done.
Qed.


End worker_more.

(** ** The object store and the frame table *)
Section storage.
Import Worker(result, Ok, Throw, Error).
Import Storage.

Lemma uploadToS3_spec env buffer name st :
  match put_rejects env with
  | None =>
      ∃ st1, uploadToS3 env buffer name st =
               (Ok (mkStorageInfo "s3" ("frames/" +:+ name) (List.length buffer) BUCKET), st1) ∧
             bucket st1 = <["frames/" +:+ name := mkObject buffer (now env)]> (bucket st) ∧
             frames st1 = frames st ∧ next_id st1 = next_id st
  | Some e =>
      ∃ st1, uploadToS3 env buffer name st = (Throw e, st1) ∧
             bucket st1 = bucket st ∧ frames st1 = frames st ∧ next_id st1 = next_id st
  end.
Proof. unfold uploadToS3. destruct (put_rejects env); by eexists. Qed.

Lemma Frame_create_spec env values st r st1 :
  Frame_create env values st = (r, st1) →
  bucket st1 = bucket st ∧
  match r with
  | Ok row =>
      ¬ (∃ i old, frames st !! i = Some old ∧ filename old = new_filename values) ∧ create_rejects env = None ∧
      row = mkFrame (next_id st) (new_filename values) (new_s3_key values)
                    (new_session_id values) false (new_file_size values) (now env) ∧
      frames st1 = <[next_id st := row]> (frames st) ∧ next_id st1 = (next_id st + 1)%Z
  | Throw e =>
      frames st1 = frames st ∧ next_id st1 = next_id st ∧
      ((∃ i old, frames st !! i = Some old ∧ filename old = new_filename values) ∧
       create_rejects env = None ∧ e = "Validation error" ∨
       create_rejects env = Some e)
  end.
Proof.
  unfold Frame_create. destruct (create_rejects env) as [e|].
  - intros [= <- <-]. split; [done|]. split; [done|]. split; [done|]. by right.
  - case_bool_decide as Ht; intros [= <- <-]; simpl; [|done].
    split; [done|]. split; [done|]. split; [done|]. by left.
Qed.

Lemma saveFrame_saved env buffer name sessionId st saved st1 :
  saveFrame env buffer name sessionId st = (Ok saved, st1) →
  ∃ optimized,
    sharp env buffer = Ok optimized ∧
    saved = mkSaved (next_id st) ("frames/" +:+ name) "s3" (List.length optimized) ∧
    frames st1 =
      <[next_id st := mkFrame (next_id st) name ("frames/" +:+ name) sessionId false
                              (List.length optimized) (now env)]> (frames st) ∧
    bucket st1 = <["frames/" +:+ name := mkObject optimized (now env)]> (bucket st) ∧
    (∀ i row, frames st !! i = Some row → filename row ≠ name).
Proof.
  unfold saveFrame. destruct (sharp env buffer) as [optimized|e]; [|done].
  pose proof (uploadToS3_spec env optimized name
                (log (LCompressed name (List.length buffer) (List.length optimized)) st))
    as Hup.
  destruct (put_rejects env) as [e|].
  { destruct Hup as (s2 & -> & _). done. }
  destruct Hup as (s2 & -> & Hb2 & Hf2 & Hn2). simpl.
  destruct (Frame_create env _ s2) as [[row|e] s3] eqn:Hc; [|done].
  apply Frame_create_spec in Hc as (Hb3 & Hnt & _ & Hrow & Hf3 & Hn3). simpl in *.
  intros [= <- <-]. exists optimized.
  split; [done|]. split; [by rewrite Hrow, Hn2|].
  split; [by rewrite Hf3, Hrow, Hf2, Hn2|].
  split; [by rewrite Hb3, Hb2|].
  intros i r Hi Hname. apply Hnt. exists i, r. by rewrite Hf2.
Qed.

(** X17.  Saving a frame and reading it back.  When [saveFrame] returns,
    the table has a row under the identifier returned, with the file
    name, the key [frames/<filename>], the session and the size of the
    compressed image, not yet processed, and the bucket holds the
    compressed image under that key.  As long as the lookup of the row
    is not refused, [getFrameUrl] of the identifier gives the address of
    the image in the bucket, and [getFrameBuffer] gives the compressed
    image back if the bucket does not refuse the read; a refused lookup
    is what either call throws.  No other row had the file name. *)
Theorem saveFrame_round_trip (env : Env) (buffer : Buffer) (name : string)
    (sessionId : option string) (st : Store) (saved : Saved) (st1 : Store) :
  saveFrame env buffer name sessionId st = (Ok saved, st1) →
  ∃ optimized,
    sharp env buffer = Ok optimized ∧
    s3Key saved = "frames/" +:+ name ∧ saved_size saved = List.length optimized ∧
    frames st1 !! frameId saved =
      Some (mkFrame (frameId saved) name ("frames/" +:+ name) sessionId false
                    (List.length optimized) (now env)) ∧
    bucket st1 !! ("frames/" +:+ name) = Some (mkObject optimized (now env)) ∧
    (∀ env',
       match find_rejects env' with
       | Some e =>
           getFrameBuffer env' (frameId saved) st1 = (Throw e, st1) ∧
           getFrameUrl env' st1 (frameId saved) = Throw e
       | None =>
           getFrameUrl env' st1 (frameId saved) =
             Ok ("http://localhost:9444/blink-detector-frames/frames/" +:+ name) ∧
           match get_rejects env' with
           | Some e => (getFrameBuffer env' (frameId saved) st1).1 = Throw e
           | None => getFrameBuffer env' (frameId saved) st1 = (Ok optimized, st1)
           end
       end) ∧
    (∀ i row, frames st !! i = Some row → filename row ≠ name).
Proof.
  intros (optimized & Hsharp & -> & Hf & Hb & Hfree)%saveFrame_saved.
  exists optimized. simpl.
  assert (frames st1 !! next_id st =
          Some (mkFrame (next_id st) name ("frames/" +:+ name) sessionId false
                        (List.length optimized) (now env))) as Hlook
    by (by rewrite Hf, lookup_insert_eq).
  assert (bucket st1 !! ("frames/" +:+ name) = Some (mkObject optimized (now env))) as Hobj
    by (by rewrite Hb, lookup_insert_eq).
  split; [done|]. split; [done|]. split; [done|]. split; [done|]. split; [done|].
  split; [|done].
  intros env'. unfold getFrameBuffer, getFrameUrl, Frame_findByPk, getFile.
  destruct (find_rejects env') as [e|]; [done|]. rewrite Hlook. simpl.
  split; [done|]. destruct (get_rejects env') as [e|]; [done|]. by rewrite Hobj.
Qed.

Lemma saveFrame_round_trip_witness :
  let saved := mkSaved 1 "frames/1.jpg" "s3" 2 in
  let st1 := (saveFrame sample_env sample_buffer "1.jpg" (Some "uuid-1") sample_store).2 in
  saveFrame sample_env sample_buffer "1.jpg" (Some "uuid-1") sample_store = (Ok saved, st1) ∧
  getFrameBuffer sample_env 1 st1 = (Ok (take 2 sample_buffer), st1) ∧
  getFrameUrl sample_env st1 1 =
    Ok "http://localhost:9444/blink-detector-frames/frames/1.jpg".
Proof.
  assert (saveFrame sample_env sample_buffer "1.jpg" (Some "uuid-1") sample_store =
          (Ok (mkSaved 1 "frames/1.jpg" "s3" 2),
           (saveFrame sample_env sample_buffer "1.jpg" (Some "uuid-1") sample_store).2))
    as Hrun by (vm_compute; reflexivity).
  split; [exact Hrun|].
  destruct (saveFrame_round_trip sample_env sample_buffer "1.jpg" (Some "uuid-1")
              sample_store _ _ Hrun)
    as (optimized & Hsharp & _ & _ & _ & _ & Hread & _).
  injection Hsharp as <-. destruct (Hread sample_env) as [Hurl Hbuffer].
  split; [exact Hbuffer|exact Hurl].
Defined.

Lemma saveFrame_thrown env buffer name sessionId st e st1 :
  saveFrame env buffer name sessionId st = (Throw e, st1) →
  frames st1 = frames st ∧ next_id st1 = next_id st ∧
  match sharp env buffer with
  | Throw e' => e = e' ∧ bucket st1 = bucket st
  | Ok optimized =>
      match put_rejects env with
      | Some e' => e = e' ∧ bucket st1 = bucket st
      | None =>
          bucket st1 = <["frames/" +:+ name := mkObject optimized (now env)]> (bucket st) ∧
          ((∃ i row, frames st !! i = Some row ∧ filename row = name) ∧
           e = "Validation error" ∨
           create_rejects env = Some e)
      end
  end.
Proof.
  unfold saveFrame. destruct (sharp env buffer) as [optimized|e'].
  2: { intros [= <- <-]. done. }
  pose proof (uploadToS3_spec env optimized name
                (log (LCompressed name (List.length buffer) (List.length optimized)) st))
    as Hup.
  destruct (put_rejects env) as [e'|].
  { destruct Hup as (s2 & -> & Hb & Hf & Hn). intros [= <- <-]. done. }
  destruct Hup as (s2 & -> & Hb2 & Hf2 & Hn2). simpl.
  destruct (Frame_create env _ s2) as [[row|e'] s3] eqn:Hc; [done|].
  apply Frame_create_spec in Hc as (Hb3 & Hf3 & Hn3 & Hwhy). simpl in *.
  intros [= <- <-]. simpl.
  split; [congruence|]. split; [congruence|]. split; [congruence|].
  destruct Hwhy as [((i & row & Hi & Hname) & _ & ->)|Hrej]; [left|by right].
  split; [|done]. exists i, row. by rewrite <-Hf2.
Qed.

(** X18.  [saveFrame] undoes nothing.  When it throws, the table is as it
    was; the bucket is as it was when the compression or the upload
    failed; and when the row could not be created, because the file name
    is taken or the database refused, the compressed image stays in the
    bucket under [frames/<filename>], in the place of whatever was stored
    under that key before. *)
Theorem saveFrame_failure (env : Env) (buffer : Buffer) (name : string)
    (sessionId : option string) (st : Store) (e : Error) (st1 : Store) :
  saveFrame env buffer name sessionId st = (Throw e, st1) →
  frames st1 = frames st ∧ next_id st1 = next_id st ∧
  match sharp env buffer with
  | Throw e' => e = e' ∧ bucket st1 = bucket st
  | Ok optimized =>
      match put_rejects env with
      | Some e' => e = e' ∧ bucket st1 = bucket st
      | None =>
          bucket st1 = <["frames/" +:+ name := mkObject optimized (now env)]> (bucket st) ∧
          ((∃ i row, frames st !! i = Some row ∧ filename row = name) ∧
           e = "Validation error" ∨
           create_rejects env = Some e)
      end
  end.
Proof. apply saveFrame_thrown. Qed.

Lemma saveFrame_failure_witness :
  let env := mkEnv (sharp sample_env) None None "NoSuchKey" (listing sample_env)
                   (λ _, None) (Some "connection refused") None 7 None in
  let st1 := (saveFrame env sample_buffer "1.jpg" None sample_store).2 in
  saveFrame env sample_buffer "1.jpg" None sample_store = (Throw "connection refused", st1) ∧
  frames st1 = frames sample_store ∧ next_id st1 = next_id sample_store ∧
  bucket st1 =
    <["frames/1.jpg" := mkObject (take 2 sample_buffer) 7]> (bucket sample_store) ∧
  ((∃ i row, frames sample_store !! i = Some row ∧ filename row = "1.jpg") ∧
   "connection refused" = "Validation error" ∨
   Some "connection refused" = Some "connection refused").
Proof.
  set (env := mkEnv (sharp sample_env) None None "NoSuchKey" (listing sample_env)
                    (λ _, None) (Some "connection refused") None 7 None).
  assert (saveFrame env sample_buffer "1.jpg" None sample_store =
          (Throw "connection refused",
           (saveFrame env sample_buffer "1.jpg" None sample_store).2))
    as Hrun by (vm_compute; reflexivity).
  split; [exact Hrun|].
  exact (saveFrame_failure env sample_buffer "1.jpg" None sample_store _ _ Hrun).
Defined.

Lemma cleanup_loop env maxAge (objects : list (string * Z)) (n : nat) (st : Store) :
  let r := foldl (cleanup_step env maxAge) (n, st) objects in
  let old := filter (λ obj, (maxAge < now env - obj.2)%Z) objects in
  r.1 = (n + List.length old)%nat ∧
  frames r.2 = frames st ∧ next_id r.2 = next_id st ∧
  ∀ k, bucket r.2 !! k =
       if bool_decide (k ∈ old.*1 ∧ delete_rejects env k = None)
       then None else bucket st !! k.
Proof.
  simpl. revert n st. induction objects as [|[key modified] objects IH]; intros n st.
  - simpl. split; [lia|]. done.
  - simpl. destruct (decide (maxAge < now env - modified)%Z) as [Hold|Hyoung].
    + assert (cleanup_step env maxAge (n, st) (key, modified) =
              (S n, (deleteObject env key st).2)) as ->.
      { unfold cleanup_step. simpl. by rewrite (proj2 (Z.ltb_lt _ _) Hold). }
      rewrite filter_cons_True by done. simpl.
      destruct (IH (S n) (deleteObject env key st).2) as (Hn & Hf & Hi & Hb).
      assert (frames (deleteObject env key st).2 = frames st ∧
              next_id (deleteObject env key st).2 = next_id st ∧
              bucket (deleteObject env key st).2 =
                match delete_rejects env key with
                | None => delete key (bucket st)
                | Some _ => bucket st
                end) as (Hdf & Hdi & Hdb).
      { unfold deleteObject. by destruct (delete_rejects env key). }
      rewrite Hn, Hf, Hi, Hdf, Hdi. split; [lia|]. split; [done|]. split; [done|].
      intros k. rewrite Hb, Hdb. clear Hn Hf Hi Hb Hdf Hdi Hdb IH.
      destruct (decide (k = key)) as [->|Hne].
      * destruct (delete_rejects env key) as [e|] eqn:Hd.
        -- rewrite !bool_decide_eq_false_2; [done| |]; intros [_ Hnone]; congruence.
        -- rewrite lookup_delete_eq.
           rewrite (bool_decide_eq_true_2 (key ∈ key :: _ ∧ _));
             [by case_bool_decide|]. split; [constructor|done].
      * assert (match delete_rejects env key with
                | None => delete key (bucket st)
                | Some _ => bucket st
                end !! k = bucket st !! k) as ->.
        { destruct (delete_rejects env key); [done|]. by rewrite lookup_delete_ne. }
        match goal with
        | |- (if ?a then _ else _) = (if ?b then _ else _) => assert (a = b) as ->; [|done]
        end.
        apply bool_decide_ext. rewrite elem_of_cons. split.
        -- intros [Hin Hnone]. split; [by right|done].
        -- intros [[?|Hin] Hnone]; [done|by split].
    + assert (cleanup_step env maxAge (n, st) (key, modified) = (n, st)) as ->.
      { unfold cleanup_step. simpl. by rewrite (proj2 (Z.ltb_ge _ _)) by lia. }
      rewrite filter_cons_False by done. apply IH.
Qed.

Lemma cleanupOldFiles_spec env daysOld st :
  let r := cleanupOldFiles env daysOld st in
  let contents := match listing env with Ok contents => contents | Throw _ => [] end in
  let old := filter (λ obj, (daysOld * 86400000 < now env - obj.2)%Z) contents in
  r.1 = List.length old ∧
  (∀ k, bucket r.2 !! k =
        if bool_decide (k ∈ old.*1 ∧ delete_rejects env k = None)
        then None else bucket st !! k) ∧
  frames r.2 = frames st.
Proof.
  simpl. unfold cleanupOldFiles, listObjects.
  replace (daysOld * 24 * 60 * 60 * 1000)%Z with (daysOld * 86400000)%Z by lia.
  destruct (listing env) as [contents|e]; simpl.
  - pose proof (cleanup_loop env (daysOld * 86400000) contents 0 st) as Hloop.
    simpl in Hloop. destruct (foldl _ _ contents) as [deleted st2]. simpl in *.
    destruct Hloop as (Hn & Hf & _ & Hb).
    split; [done|]. by destruct (0 <? deleted)%nat.
  - done.
Qed.

(** X19.  Cleaning the bucket.  The number [cleanupOldFiles] returns is
    the number of listed objects older than [daysOld] days, an object of
    exactly that age not among them, whether or not their deletion
    succeeded: a deletion that fails is counted as well.  Gone from the
    bucket are exactly the old objects whose deletion succeeded; a listing
    that fails counts as an empty bucket; the table of frames is not
    touched. *)
Theorem cleanupOldFiles_counts (env : Env) (daysOld : Z) (st : Store) :
  let r := cleanupOldFiles env daysOld st in
  let contents := match listing env with Ok contents => contents | Throw _ => [] end in
  let old := filter (λ obj, (daysOld * 86400000 < now env - obj.2)%Z) contents in
  r.1 = List.length old ∧
  (∀ k, bucket r.2 !! k =
        if bool_decide (k ∈ old.*1 ∧ delete_rejects env k = None)
        then None else bucket st !! k) ∧
  frames r.2 = frames st.
Proof. apply cleanupOldFiles_spec. Qed.

(** X20.  Cleaning the bucket and the table together.  The bucket is
    cleaned first and stays cleaned whatever happens next; the rows older
    than the cutoff are then deleted and both counts returned; when the
    database refuses, the call throws, no count is returned and every row
    stays, the rows of the objects just deleted among them. *)
Theorem cleanupOldFrames_outcome (env : Env) (later daysOld : Z) (st : Store) :
  let r := cleanupOldFrames env later daysOld st in
  let cutoffDate := (later - daysOld * 86400000)%Z in
  bucket r.2 = bucket (cleanupOldFiles env daysOld st).2 ∧
  match r.1 with
  | Ok (deleted, dbDeleted) =>
      deleted = (cleanupOldFiles env daysOld st).1 ∧
      dbDeleted = size (filter (λ kv, (uploaded_at kv.2 < cutoffDate)%Z) (frames st)) ∧
      ∀ i, frames r.2 !! i =
           match frames st !! i with
           | Some row => if bool_decide (uploaded_at row < cutoffDate)%Z then None
                         else Some row
           | None => None
           end
  | Throw e => destroy_rejects env = Some e ∧ frames r.2 = frames st
  end.
Proof.
  simpl. unfold cleanupOldFrames.
  destruct (cleanupOldFiles_spec env daysOld st) as (_ & _ & Hf). simpl in Hf.
  destruct (cleanupOldFiles env daysOld st) as [deleted st1]. simpl in *.
  replace (daysOld * 24 * 60 * 60 * 1000)%Z with (daysOld * 86400000)%Z by lia.
  unfold Frame_destroy. destruct (destroy_rejects env) as [e|]; simpl.
  - done.
  - split; [done|]. split; [done|]. rewrite Hf. split; [done|]. intros i.
    destruct (frames st !! i) as [row|] eqn:Hi.
    + case_bool_decide as Hold.
      * apply map_lookup_filter_None. right. intros row' Hi' Hkeep. simpl in Hkeep.
        rewrite Hi in Hi'. by simplify_eq.
      * apply map_lookup_filter_Some. done.
    + apply map_lookup_filter_None. by left.
Qed.


End storage.

(** ** Frame ingestion *)
Section ingestion.
Import Worker(result, Ok, Throw, Error, JobData, mkJobData).
Import App.
Context {runtime : Runtime}.

Lemma split_no_sep sep text :
  sep ∉ list_ascii_of_string text → split sep text = [text].
Proof.
  induction text as [|ch rest IH]; [done|]. simpl. intros Hnot.
  apply not_elem_of_cons in Hnot as [Hne Hrest].
  destruct (Ascii.eqb_spec ch sep) as [->|_]; [done|]. by rewrite IH.
Qed.

Lemma split_sep sep header rest :
  sep ∉ list_ascii_of_string header →
  split sep (header +:+ String sep rest) = header :: split sep rest.
Proof.
  induction header as [|ch header IH]; simpl.
  - intros _. by rewrite Ascii.eqb_refl.
  - intros Hnot. apply not_elem_of_cons in Hnot as [Hne Hrest].
    destruct (Ascii.eqb_spec ch sep) as [->|_]; [done|]. by rewrite IH.
Qed.

Lemma split_head sep text : ∃ part parts, split sep text = part :: parts.
Proof.
  induction text as [|ch rest (part & parts & IH)]; simpl; [by eexists _, _|].
  destruct (Ascii.eqb ch sep); [by eexists _, _|]. rewrite IH. by eexists _, _.
Qed.

(** X21.  A binary payload that is not of the form [header,data]: one
    with no comma, or with nothing between its first comma and the next
    comma or the end.  The client is sent the error [Invalid frame
    format]; nothing is stored, nothing is queued and no counter moves. *)
Theorem binary_invalid_format (env : Env) (c : ws) (clientInfo : ClientInfo)
    (data : string) (a : State) :
  (","%char ∉ list_ascii_of_string data) ∨
  (∃ header rest, (","%char ∉ list_ascii_of_string header) ∧
                  (data = (header +:+ ",") ∨ data = (header +:+ ",," +:+ rest))) →
  let a' := binary_message_handler env c clientInfo data a in
  world a' = sendError (world a) c "Invalid frame format" ∧
  store a' = store a ∧ inferenceQueue a' = inferenceQueue a ∧
  activeSessions a' = activeSessions a ∧ total_frames a' = total_frames a ∧
  console a' = console a.
Proof.
  intros Hshape. simpl. unfold binary_message_handler.
  assert (split "," data !! 1%nat = None ∨ split "," data !! 1%nat = Some "") as Hsplit.
  { destruct Hshape as [Hnone|(header & rest & Hheader & [->| ->])].
    - left. by rewrite split_no_sep.
    - right. by rewrite split_sep.
    - right. replace (",," +:+ rest) with (String "," (String "," rest)) by done.
      rewrite split_sep by done. done. }
  destruct Hsplit as [-> | ->]; done.
Qed.

(** The handler on a payload that carries data. *)
Lemma binary_message_handler_ingest env c clientInfo data encoded a :
  split "," data !! 1%nat = Some encoded → encoded ≠ "" →
  binary_message_handler env c clientInfo data a =
    match ingest env c clientInfo encoded a with
    | (Ok _, a') => a'
    | (Throw error, a') =>
        set_world (λ w, sendError w c "Failed to process frame")
                  (log (LFrameProcessingError error) a')
    end.
Proof.
  intros Hsplit Hne. unfold binary_message_handler. rewrite Hsplit.
  apply String.eqb_neq in Hne. by rewrite Hne.
Qed.

Lemma updateSessionFrameCount_frame env sid a :
  world (updateSessionFrameCount env sid a) = world a ∧
  store (updateSessionFrameCount env sid a) = store a ∧
  inferenceQueue (updateSessionFrameCount env sid a) = inferenceQueue a.
Proof.
  unfold updateSessionFrameCount. destruct (findOne_rejects env); [done|].
  destruct (total_frames a !! sid); [destruct (update_rejects env)|]; done.
Qed.

(** X22.  A frame that is stored and queued.  For a payload [header,data]
    whose frame [saveFrame] stores, with the queue accepting the job: one
    job [run-inference] is added at the end of the queue, with two
    attempts and a fixed wait of 5000 ms; it names the identifier and the
    key of the row just written, which is not yet processed, for the
    session of the connection, and the image is in the bucket under that
    key; the client is then sent the acknowledgment [frame_received]. *)
Theorem binary_frame_queued (env : Env) (c : ws) (clientInfo : ClientInfo)
    (data encoded : string) (a : State) (saved : Storage.Saved) (s1 : Storage.Store) :
  split "," data !! 1%nat = Some encoded → encoded ≠ "" →
  let name := frame_filename (clock (world a)) (uuid env) in
  Storage.saveFrame (storage env) (base64 env encoded) name (Some (sessionId clientInfo))
                    (store a) = (Ok saved, s1) →
  add_rejects env = None →
  let a' := binary_message_handler env c clientInfo data a in
  let job := mkJobData (Storage.frameId saved) ("frames/" +:+ name)
                       (Some (sessionId clientInfo)) in
  inferenceQueue a' =
    inferenceQueue a ++
      [Queue.mkJob "run-inference" job
         (Queue.mkJobsOptions 2 (Queue.mkBackoff Queue.fixed 5000) 100 50)] ∧
  store a' = s1 ∧
  (∃ row, Storage.frames s1 !! Storage.frameId saved = Some row ∧
          Storage.s3_key row = "frames/" +:+ name ∧
          Storage.session_id row = Some (sessionId clientInfo) ∧
          Storage.processed row = false) ∧
  (∃ object, Storage.bucket s1 !! ("frames/" +:+ name) = Some object ∧
             Storage.sharp (storage env) (base64 env encoded) = Ok (Storage.Body object)) ∧
  world a' =
    (sendToClient (world a) c
       (DObject (frame_received saved (sessionId clientInfo) name))).1.
Proof.
  intros Hsplit Hne name Hsave Hadd. simpl.
  rewrite (binary_message_handler_ingest _ _ _ _ _ _ Hsplit Hne).
  unfold ingest. fold name. rewrite Hsave. unfold addInferenceJob. rewrite Hadd.
  destruct (updateSessionFrameCount_frame env (sessionId clientInfo) (set_store s1 a))
    as (Hw & Hs & Hq).
  apply saveFrame_saved in Hsave as (optimized & Hsharp & -> & Hf & Hb & _).
  simpl. rewrite Hw, Hs, Hq. simpl.
  split; [done|]. split; [done|].
  split; [eexists; split; [by rewrite Hf, lookup_insert_eq|done]|].
  split; [eexists; split; [by rewrite Hb, lookup_insert_eq|done]|].
  done.
Qed.

Lemma updateSessionFrameCount_set_store env sid s a :
  updateSessionFrameCount env sid (set_store s a) =
  set_store s (updateSessionFrameCount env sid a).
Proof.
  unfold updateSessionFrameCount. simpl. destruct (findOne_rejects env); [done|].
  destruct (total_frames a !! sid); [destruct (update_rejects env)|]; done.
Qed.

(** X23.  A frame that cannot be stored.  When [saveFrame] throws, no row
    is written, no job is queued and no counter moves; the error is
    logged and the client is sent [Failed to process frame]. *)
Theorem binary_frame_not_saved (env : Env) (c : ws) (clientInfo : ClientInfo)
    (data encoded : string) (a : State) (e : Error) (s1 : Storage.Store) :
  split "," data !! 1%nat = Some encoded → encoded ≠ "" →
  Storage.saveFrame (storage env) (base64 env encoded)
                    (frame_filename (clock (world a)) (uuid env))
                    (Some (sessionId clientInfo)) (store a) = (Throw e, s1) →
  let a' := binary_message_handler env c clientInfo data a in
  inferenceQueue a' = inferenceQueue a ∧
  store a' = s1 ∧ Storage.frames s1 = Storage.frames (store a) ∧
  activeSessions a' = activeSessions a ∧ total_frames a' = total_frames a ∧
  world a' = sendError (world a) c "Failed to process frame" ∧
  console a' = console a ++ [LFrameProcessingError e].
Proof.
  intros Hsplit Hne Hsave. simpl.
  rewrite (binary_message_handler_ingest _ _ _ _ _ _ Hsplit Hne).
  unfold ingest. rewrite Hsave. simpl.
  apply saveFrame_thrown in Hsave as (Hf & _). done.
Qed.

(** X24.  A frame that is stored but cannot be queued.  When the queue
    refuses the job, the frame stays stored, its row unprocessed, with no
    job for it in the queue, and the frame counters have already moved;
    the error is logged and the client is sent [Failed to process
    frame]. *)
Theorem binary_frame_not_queued (env : Env) (c : ws) (clientInfo : ClientInfo)
    (data encoded : string) (a : State) (saved : Storage.Saved) (s1 : Storage.Store)
    (e : Error) :
  split "," data !! 1%nat = Some encoded → encoded ≠ "" →
  Storage.saveFrame (storage env) (base64 env encoded)
                    (frame_filename (clock (world a)) (uuid env))
                    (Some (sessionId clientInfo)) (store a) = (Ok saved, s1) →
  add_rejects env = Some e →
  let a' := binary_message_handler env c clientInfo data a in
  let counted := updateSessionFrameCount env (sessionId clientInfo) a in
  inferenceQueue a' = inferenceQueue a ∧
  store a' = s1 ∧
  (∃ row, Storage.frames s1 !! Storage.frameId saved = Some row ∧
          Storage.processed row = false ∧
          Storage.bucket s1 !! Storage.s3_key row ≠ None) ∧
  activeSessions a' = activeSessions counted ∧ total_frames a' = total_frames counted ∧
  world a' = sendError (world a) c "Failed to process frame" ∧
  console a' = console counted ++ [LFrameProcessingError e].
Proof.
  intros Hsplit Hne Hsave Hadd. simpl.
  rewrite (binary_message_handler_ingest _ _ _ _ _ _ Hsplit Hne).
  unfold ingest. rewrite Hsave. unfold addInferenceJob. rewrite Hadd.
  rewrite updateSessionFrameCount_set_store.
  destruct (updateSessionFrameCount_frame env (sessionId clientInfo) a) as (Hw & Hs & Hq).
  apply saveFrame_saved in Hsave as (optimized & Hsharp & -> & Hf & Hb & _).
  simpl. rewrite Hw, Hq.
  split; [done|]. split; [done|].
  split; [|done].
  eexists. split; [by rewrite Hf, lookup_insert_eq|]. split; [done|].
  simpl. by rewrite Hb, lookup_insert_eq.
Qed.

(** X25.  The frame counters of a session.  [updateSessionFrameCount]
    never throws and touches neither the sockets, the store nor the
    queue.  When the database answers, the session's row, if there is
    one, counts one frame more, and so does its entry in
    [activeSessions], if there is one; no other session is touched.
    When the lookup or the update of the row is refused, the refusal is
    logged and neither counter moves. *)
Theorem updateSessionFrameCount_counts (env : Env) (sid : string) (a : State) :
  let a' := updateSessionFrameCount env sid a in
  let refused :=
    match findOne_rejects env with
    | Some e => Some e
    | None => match total_frames a !! sid with
              | Some _ => update_rejects env
              | None => None
              end
    end in
  world a' = world a ∧ store a' = store a ∧ inferenceQueue a' = inferenceQueue a ∧
  match refused with
  | None =>
      total_frames a' !! sid = (λ n, n + 1)%Z <$> total_frames a !! sid ∧
      frameCount <$> activeSessions a' !! sid =
        (λ sessionData, S (frameCount sessionData)) <$> activeSessions a !! sid ∧
      (∀ other, other ≠ sid →
                total_frames a' !! other = total_frames a !! other ∧
                activeSessions a' !! other = activeSessions a !! other) ∧
      console a' = console a
  | Some e =>
      total_frames a' = total_frames a ∧ activeSessions a' = activeSessions a ∧
      console a' = console a ++ [LFrameCountError e]
  end.
Proof.
  simpl. unfold updateSessionFrameCount.
  destruct (findOne_rejects env) as [e|]; [done|].
  destruct (total_frames a !! sid) as [n|] eqn:Hn; [destruct (update_rejects env) as [e|]|];
    simpl; try done.
  - split; [done|]. split; [done|]. split; [done|].
    split; [by rewrite lookup_insert_eq|].
    split; [rewrite lookup_alter_eq; by destruct (activeSessions a !! sid)|].
    split; [|done]. intros other Hne.
    by rewrite lookup_insert_ne, lookup_alter_ne.
  - split; [done|]. split; [done|]. split; [done|].
    split; [by rewrite Hn|].
    split; [rewrite lookup_alter_eq; by destruct (activeSessions a !! sid)|].
    split; [|done]. intros other Hne. by rewrite lookup_alter_ne.
Qed.


Lemma ingest_world env c clientInfo encoded a :
  match ingest env c clientInfo encoded a with
  | (Ok _, a') => ∃ d, world a' = (sendToClient (world a) c d).1
  | (Throw _, a') => world a' = world a
  end.
Proof.
  unfold ingest. destruct (Storage.saveFrame _ _ _ _ _) as [[saved|e] s]; [|done].
  destruct (updateSessionFrameCount_frame env (sessionId clientInfo) (set_store s a))
    as (Hw & _ & _).
  unfold addInferenceJob. destruct (add_rejects env) as [e|]; simpl; [done|].
  rewrite Hw. by eexists.
Qed.

(** X26.  Whatever the payload and whatever the store, the queue and the
    database answer, the [binary_message] handler does one thing to the
    service: it sends one message to the socket the frame came from.  So
    the registry is as it was, no socket is closed or terminated, and a
    consistent registry stays consistent. *)
Theorem binary_message_handler_sends (env : Env) (c : ws) (clientInfo : ClientInfo)
    (data : string) (a : State) :
  let a' := binary_message_handler env c clientInfo data a in
  (∃ d, world a' = handle (world a) (AppSend c d)) ∧
  quiet (world a) (world a') ∧
  (consistent (world a) → consistent (world a')).
Proof.
  simpl.
  assert (∃ d, world (binary_message_handler env c clientInfo data a) =
               (sendToClient (world a) c d).1) as [d Hd].
  { unfold binary_message_handler.
    destruct (split "," data !! 1%nat) as [encoded|]; [|by eexists].
    destruct (String.eqb encoded ""); [by eexists|].
    pose proof (ingest_world env c clientInfo encoded a) as Hw.
    destruct (ingest env c clientInfo encoded a) as [[[]|e] a']; [done|].
    simpl. unfold sendError. rewrite Hw. by eexists. }
  assert (quiet (world a) (world (binary_message_handler env c clientInfo data a))) as Hq
    by (rewrite Hd; apply sendToClient_quiet).
  split; [by exists d|]. split; [done|]. by apply quiet_consistent.
Qed.


(** The start of the handler, which runs inside [emit], and the handler as
    a whole: a payload without a data part is answered at the start and
    that is all the handler does to the service; any other payload is
    left alone at the start. *)
Lemma binary_message_start_agrees env c clientInfo data a :
  match split "," data !! 1%nat with
  | Some encoded =>
      if String.eqb encoded ""
      then world (binary_message_handler env c clientInfo data a) =
             binary_message_start (world a) c data
      else binary_message_start (world a) c data = world a
  | None =>
      world (binary_message_handler env c clientInfo data a) =
        binary_message_start (world a) c data
  end.
Proof.
  unfold binary_message_handler, binary_message_start.
  destruct (split "," data !! 1%nat) as [encoded|]; [|done].
  by destruct (String.eqb encoded "").
Qed.


End ingestion.

(** ** Examples *)

(** The result the worker publishes for the sample job, confidences of
    0.9 among its fields, reaches the socket of session [uuid-1] with the
    type in front. *)
Lemma onRedisMessage_inference_witness :
  let fields := [("sessionId", JStr "uuid-1"); ("frameId", JNum 1);
                 ("emotionLabel", JStr "happy"); ("emotionConf", JNum 0.9);
                 ("rednessLabel", JStr "red"); ("rednessConf", JNum 0.9);
                 ("processingTime", JNum 42)] in
  let r := @onRedisMessage Bus.bus_runtime sample_world "inference-results"
             (render Bus.sample_result) in
  (@JSON_parse Bus.bus_runtime (render Bus.sample_result) = Some (JObj fields) ∧
   assoc "sessionId" fields = Some (JStr "uuid-1") ∧ "uuid-1" ≠ "") ∧
  r.2 = [] ∧
  outbox <$> sockets r.1 !! 1%positive =
    Some (outbox sample_socket ++
          [render (JObj (("type", JStr "inference_complete") :: fields))]).
Proof.
  simpl.
  pose proof (@onRedisMessage_inference Bus.bus_runtime sample_world
                (render Bus.sample_result) _ "uuid-1" eq_refl eq_refl ltac:(discriminate))
    as Hbus.
  split; [split; [reflexivity|split; [reflexivity|discriminate]]|].
  split; [exact (proj1 Hbus)|]. vm_compute. reflexivity.
Defined.

(** A payload without a comma. *)
Lemma binary_invalid_format_witness :
  (","%char ∉ list_ascii_of_string "hello") ∧
  App.inferenceQueue
    (@App.binary_message_handler sample_runtime App.sample_env 1%positive sample_client
       "hello" App.sample_state) = [].
Proof.
  assert (","%char ∉ list_ascii_of_string "hello") as Hnone.
  { apply (bool_decide_unpack _). vm_compute. exact I. }
  split; [exact Hnone|].
  exact (proj1 (proj2 (proj2
    (@binary_invalid_format sample_runtime App.sample_env 1%positive sample_client
       "hello" App.sample_state (or_introl Hnone))))).
Defined.

(** A frame of the first client is stored and queued. *)
Lemma binary_frame_queued_witness :
  let data := "data:image/jpeg;base64,AAAA" in
  let saved := Storage.mkSaved 1 "frames/0_3f2b8c1e.jpg" "s3" 2 in
  let run := Storage.saveFrame Storage.sample_env Storage.sample_buffer "0_3f2b8c1e.jpg"
               (Some "uuid-1") Storage.sample_store in
  (App.split "," data !! 1%nat = Some "AAAA" ∧ "AAAA" ≠ "" ∧ run = (Worker.Ok saved, run.2) ∧
   App.add_rejects App.sample_env = None) ∧
  App.inferenceQueue
    (@App.binary_message_handler sample_runtime App.sample_env 1%positive sample_client
       data App.sample_state) =
    [Queue.mkJob "run-inference"
       (Worker.mkJobData 1 "frames/0_3f2b8c1e.jpg" (Some "uuid-1"))
       (Queue.mkJobsOptions 2 (Queue.mkBackoff Queue.fixed 5000) 100 50)].
Proof.
  simpl.
  assert (Storage.saveFrame Storage.sample_env Storage.sample_buffer "0_3f2b8c1e.jpg"
            (Some "uuid-1") Storage.sample_store =
          (Worker.Ok (Storage.mkSaved 1 "frames/0_3f2b8c1e.jpg" "s3" 2),
           (Storage.saveFrame Storage.sample_env Storage.sample_buffer "0_3f2b8c1e.jpg"
              (Some "uuid-1") Storage.sample_store).2)) as Hrun
    by (vm_compute; reflexivity).
  split; [split; [reflexivity|split; [discriminate|split; [exact Hrun|reflexivity]]]|].
  exact (proj1 (@binary_frame_queued sample_runtime App.sample_env 1%positive sample_client
                  "data:image/jpeg;base64,AAAA" "AAAA" App.sample_state _ _
                  eq_refl ltac:(discriminate) Hrun eq_refl)).
Defined.

(** The image cannot be decoded: nothing is queued. *)
Lemma binary_frame_not_saved_witness :
  let data := "data:image/jpeg;base64,AAAA" in
  let e := "Input buffer contains unsupported image format" in
  let run := Storage.saveFrame (App.storage App.unreadable) Storage.sample_buffer
               "0_3f2b8c1e.jpg" (Some "uuid-1") Storage.sample_store in
  (App.split "," data !! 1%nat = Some "AAAA" ∧ "AAAA" ≠ "" ∧ run = (Worker.Throw e, run.2)) ∧
  App.inferenceQueue
    (@App.binary_message_handler sample_runtime App.unreadable 1%positive sample_client
       data App.sample_state) = [].
Proof.
  simpl.
  assert (Storage.saveFrame (App.storage App.unreadable) Storage.sample_buffer
            "0_3f2b8c1e.jpg" (Some "uuid-1") Storage.sample_store =
          (Worker.Throw "Input buffer contains unsupported image format",
           (Storage.saveFrame (App.storage App.unreadable) Storage.sample_buffer
              "0_3f2b8c1e.jpg" (Some "uuid-1") Storage.sample_store).2)) as Hrun
    by (vm_compute; reflexivity).
  split; [split; [reflexivity|split; [discriminate|exact Hrun]]|].
  exact (proj1 (@binary_frame_not_saved sample_runtime App.unreadable 1%positive
                  sample_client "data:image/jpeg;base64,AAAA" "AAAA" App.sample_state _ _
                  eq_refl ltac:(discriminate) Hrun)).
Defined.

(** The queue refuses the job: the frame is stored and nothing is queued. *)
Lemma binary_frame_not_queued_witness :
  let data := "data:image/jpeg;base64,AAAA" in
  let saved := Storage.mkSaved 1 "frames/0_3f2b8c1e.jpg" "s3" 2 in
  let run := Storage.saveFrame Storage.sample_env Storage.sample_buffer "0_3f2b8c1e.jpg"
               (Some "uuid-1") Storage.sample_store in
  (App.split "," data !! 1%nat = Some "AAAA" ∧ "AAAA" ≠ "" ∧ run = (Worker.Ok saved, run.2) ∧
   App.add_rejects App.queue_down = Some "Connection is closed.") ∧
  App.inferenceQueue
    (@App.binary_message_handler sample_runtime App.queue_down 1%positive sample_client
       data App.sample_state) = [].
Proof.
  simpl.
  assert (Storage.saveFrame Storage.sample_env Storage.sample_buffer "0_3f2b8c1e.jpg"
            (Some "uuid-1") Storage.sample_store =
          (Worker.Ok (Storage.mkSaved 1 "frames/0_3f2b8c1e.jpg" "s3" 2),
           (Storage.saveFrame Storage.sample_env Storage.sample_buffer "0_3f2b8c1e.jpg"
              (Some "uuid-1") Storage.sample_store).2)) as Hrun
    by (vm_compute; reflexivity).
  split; [split; [reflexivity|split; [discriminate|split; [exact Hrun|reflexivity]]]|].
  exact (proj1 (@binary_frame_not_queued sample_runtime App.queue_down 1%positive
                  sample_client "data:image/jpeg;base64,AAAA" "AAAA" App.sample_state _ _ _
                  eq_refl ltac:(discriminate) Hrun eq_refl)).
Defined.
